(** * Activity tracing through tasks and spans (daemon/logging/trace/trace.go)

    A shallow embedding of the tree of trace nodes kept by package [trace]:
    [WithTask], [WithSpan], the two [DoneFunc] closures they return,
    [TaskAndSpanStack] and [GetSpanStackOrDefault].

    Nodes live in a store addressed by pointers; every library call is a
    computation in a state-and-panic monad over that store.  The per-node
    mutexes of the source serialise the critical sections; here each call is
    one atomic step, so a run of the program is an interleaving of calls. *)

From Stdlib Require Import ZArith.
From stdpp Require Import gmap strings list pretty.

Module trace.

(** ** Data model *)

(** [*traceNode]: the address of a node in the store. *)
Abbreviation ptr := nat (only parsing).

(** [time.Time], as the number of clock ticks since the zero value
    [time.Time{}]; [IsZero] holds of [0] only. *)
Abbreviation Time := N (only parsing).

Definition IsZero (t : Time) : bool := N.eqb t 0.

Record traceNode := mkTraceNode {
  id : string;
  annotation : string;
  parentTask : option ptr;
  activeChildTasks : Z;            (* int32 *)
  parentSpan : option ptr;
  activeChildSpan : option ptr;
  startedAt : Time;
  endedAt : Time
}.

Definition set_activeChildTasks (v : Z) (n : traceNode) : traceNode :=
  mkTraceNode (id n) (annotation n) (parentTask n) v (parentSpan n)
    (activeChildSpan n) (startedAt n) (endedAt n).

Definition set_activeChildSpan (v : option ptr) (n : traceNode) : traceNode :=
  mkTraceNode (id n) (annotation n) (parentTask n) (activeChildTasks n)
    (parentSpan n) v (startedAt n) (endedAt n).

Definition set_endedAt (v : Time) (n : traceNode) : traceNode :=
  mkTraceNode (id n) (annotation n) (parentTask n) (activeChildTasks n)
    (parentSpan n) (activeChildSpan n) (startedAt n) v.

(** Two's complement wrap-around of Go's [int32] arithmetic. *)
Definition wrap32 (z : Z) : Z := ((z + 2 ^ 31) mod 2 ^ 32 - 2 ^ 31)%Z.

(** [context.Context], reduced to the value stored under [contextKeyTraceNode]:
    the attached node, or nothing. *)
Abbreviation Context := (option ptr) (only parsing).

(** What the trace writers and the span callbacks get to see. *)
Inductive event :=
  | chrometraceBeginTask (n : ptr)
  | chrometraceEndTask (n : ptr)
  | chrometraceBeginSpan (n : ptr)
  | chrometraceEndSpan (n : ptr)
  | callbackBeginSpan (n : ptr)
  | callbackEndSpan (n : ptr).

(** The values the package panics with.  [NilDereference] and [LoopBound] are
    the two ways in which a computation of the model can stop that the
    functions of the package do not have: a pointer outside the store, and a
    walk along parent pointers that is cut off (see [firstLiveAncestor]). *)
Inductive panicValue :=
  | ErrTaskStillHasActiveChildTasks (active : Z)
  | ImplErrorNegativeActiveChildTasks
  | ErrAlreadyActiveChildSpan
  | ErrSpanStillHasActiveChildSpan
  | ImplErrorActiveChildSpanChanged
  | MustBeCalledFromWithinTask
  | NilDereference
  | LoopBound.

(** The process state the package touches: the nodes, the wall clock, the
    source of identifiers, the package-level [taskNamer], the gauge
    [metrics.activeTasks] and the stream of emitted events. *)
Record state := mkState {
  heap : list traceNode;
  clock : positive;
  idgen : nat;
  taskNamer : gmap string (gset nat);
  activeTasks : Z;
  emitted : list event
}.

Definition with_heap (h : list traceNode) (s : state) : state :=
  mkState h (clock s) (idgen s) (taskNamer s) (activeTasks s) (emitted s).

Definition with_taskNamer (m : gmap string (gset nat)) (s : state) : state :=
  mkState (heap s) (clock s) (idgen s) m (activeTasks s) (emitted s).

Definition with_activeTasks (g : Z) (s : state) : state :=
  mkState (heap s) (clock s) (idgen s) (taskNamer s) g (emitted s).

Arguments with_heap _ _ /.
Arguments with_taskNamer _ _ /.
Arguments with_activeTasks _ _ /.

(** The state of a process that has not traced anything yet. *)
Definition init : state := mkState [] 1%positive 0 ∅ 0 [].

(** ** The monad of library calls *)

Inductive result (A : Type) :=
  | Ok (a : A) (s : state)
  | Panic (e : panicValue) (s : state).
Arguments Ok {A} a s.
Arguments Panic {A} e s.

Definition M (A : Type) : Type := state → result A.

Definition ret {A} (a : A) : M A := fun s => Ok a s.

Definition bind {A B} (m : M A) (k : A → M B) : M B := fun s =>
  match m s with
  | Ok a s' => k a s'
  | Panic e s' => Panic e s'
  end.

Definition panic {A} (e : panicValue) : M A := fun s => Panic e s.

Declare Scope trace_scope.
Delimit Scope trace_scope with trace.
Notation "x ← m ; k" := (bind m (fun x => k))
  (at level 20, m at level 100, k at level 200, only parsing) : trace_scope.
Notation "m ;; k" := (bind m (fun _ => k))
  (at level 100, k at level 200, right associativity, only parsing) : trace_scope.
Local Open Scope trace_scope.

(** Dereference of a node pointer. *)
Definition load (p : ptr) : M traceNode := fun s =>
  match heap s !! p with
  | Some n => Ok n s
  | None => Panic NilDereference s
  end.

(** Assignment to fields of the node behind [p]. *)
Definition store (p : ptr) (f : traceNode → traceNode) : M unit := fun s =>
  match heap s !! p with
  | Some n => Ok () (with_heap (<[p := f n]> (heap s)) s)
  | None => Panic NilDereference s
  end.

(** [&traceNode{...}] *)
Definition new (n : traceNode) : M ptr := fun s =>
  Ok (length (heap s)) (with_heap (heap s ++ [n]) s).

(** [time.Now()]: the clock never shows the zero time, and moves on. *)
Definition time_Now : M Time := fun s =>
  Ok (Npos (clock s))
     (mkState (heap s) (Pos.succ (clock s)) (idgen s) (taskNamer s)
        (activeTasks s) (emitted s)).

(** Modelled from the spec: [genID] is not part of this file; the node [id] is
    a process-unique opaque identifier generated at creation.  Here: the
    decimal rendering of a counter. *)
Definition genID : M string := fun s =>
  Ok (pretty (idgen s))
     (mkState (heap s) (clock s) (S (idgen s)) (taskNamer s)
        (activeTasks s) (emitted s)).

Definition emit (e : event) : M unit := fun s =>
  Ok () (mkState (heap s) (clock s) (idgen s) (taskNamer s) (activeTasks s)
           (emitted s ++ [e])).

(** [metrics.activeTasks.Inc()] and [.Dec()] *)
Definition activeTasks_Inc : M unit := fun s =>
  Ok () (with_activeTasks (activeTasks s + 1) s).

Definition activeTasks_Dec : M unit := fun s =>
  Ok () (with_activeTasks (activeTasks s - 1) s).

(** ** The unique namer *)

(** The lowest natural number that is not in [used]. *)
Definition lowestUnused (used : gset nat) : nat :=
  match list_find (fun k => k ∉ used) (seq 0 (S (size used))) with
  | Some (k, _) => k
  | None => size used
  end.

(** The suffixes handed out for [name] and not given back yet. *)
Definition allocated (name : string) (m : gmap string (gset nat)) : gset nat :=
  default ∅ (m !! name).

(** Modelled from the spec: the type [uniqueConcurrentTaskNamer] is not part of
    this file.  Per base name it keeps the set of allocated suffixes;
    allocation picks the lowest unused one, marks it used and returns the
    display name together with the release function (here: the pair the
    release function closes over).  The display name is [name#NUM], as the
    package documentation has it. *)
Definition UniqueConcurrentTaskName (name : string) : M (string * (string * nat)) :=
  fun s =>
    let used := allocated name (taskNamer s) in
    let k := lowestUnused used in
    Ok (name +:+ "#" +:+ pretty k, (name, k))
       (with_taskNamer (<[name := {[k]} ∪ used]> (taskNamer s)) s).

(** Modelled from the spec: the release function returned by the namer. *)
Definition taskNameDone (a : string * nat) : M unit := fun s =>
  let used := allocated a.1 (taskNamer s) in
  Ok () (with_taskNamer (<[a.1 := used ∖ {[a.2]}]> (taskNamer s)) s).

(** ** Tasks *)

(** The closures returned by [WithTask] and [WithSpan], as the variables they
    capture. *)
Inductive DoneFunc :=
  | WithTask_endTaskFunc (this : ptr) (nameDone : string * nat)
  | WithSpan_endTaskFunc (parent this : ptr).

(** The loop of [WithTask]: the first task, starting at [parent] and following
    [parentTask], that has not ended.  [fuel] bounds the number of nodes
    inspected. *)
Fixpoint firstLiveAncestor (fuel : nat) (parent : option ptr) : M (option ptr) :=
  match fuel with
  | O => panic LoopBound
  | S fuel' =>
      match parent with
      | None => ret None
      | Some p =>
          n ← load p;
          if IsZero (endedAt n) then ret (Some p)
          else firstLiveAncestor fuel' (parentTask n)
      end
  end.

(** [WithTask]: start a root task, or a child task of the nearest task of the
    context that has not ended.  Returns the context that carries the new node
    and the closure that ends the task. *)
Definition WithTask (ctx : Context) (taskName : string) : M (Context * DoneFunc) :=
  candidate ← match ctx with
              | None => ret None
              | Some node =>
                  n ← load node;
                  ret (match parentSpan n with
                       | Some _ => parentTask n
                       | None => Some node
                       end)
              end;
  bound ← (fun s => Ok (S (length (heap s))) s);
  parent ← firstLiveAncestor bound candidate;
  named ← UniqueConcurrentTaskName taskName;
  i ← genID;
  now ← time_Now;
  this ← new (mkTraceNode i named.1 parent 0 None None now 0%N);
  match parent with
  | Some p => store p (fun n => set_activeChildTasks (wrap32 (activeChildTasks n + 1)) n)
  | None => ret ()
  end;;
  emit (chrometraceBeginTask this);;
  activeTasks_Inc;;
  ret (Some this, WithTask_endTaskFunc this named.2).

(** The inner function of the task's [endTaskFunc]; everything it does happens
    under the locks of the task and of its parent. *)
Definition alreadyEnded (this : ptr) : M bool :=
  n ← load this;
  if bool_decide (activeChildTasks n ≠ 0%Z)
  then panic (ErrTaskStillHasActiveChildTasks (activeChildTasks n))
  else if negb (IsZero (endedAt n)) then ret true
  else
    now ← time_Now;
    store this (set_endedAt now);;
    match parentTask n with
    | Some p =>
        store p (fun m => set_activeChildTasks (wrap32 (activeChildTasks m - 1)) m);;
        m ← load p;
        if bool_decide (activeChildTasks m < 0)%Z
        then panic ImplErrorNegativeActiveChildTasks
        else ret false
    | None => ret false
    end.

(** The [endTaskFunc] of [WithTask]: what follows [alreadyEnded] happens
    outside the locks. *)
Definition call_WithTask_endTaskFunc (this : ptr) (nameDone : string * nat) : M unit :=
  ended ← alreadyEnded this;
  if ended : bool then ret ()
  else
    emit (chrometraceEndTask this);;
    activeTasks_Dec;;
    taskNameDone nameDone.

(** ** Spans *)

(** [WithSpan]: start a span below the node of the context.  The node is made
    first; it becomes the active child span under the lock of its parent. *)
Definition WithSpan (ctx : Context) (label : string) : M (Context * DoneFunc) :=
  match ctx with
  | None => panic MustBeCalledFromWithinTask
  | Some parent =>
      n ← load parent;
      i ← genID;
      now ← time_Now;
      this ← new (mkTraceNode i label
                    (match parentSpan n with
                     | None => Some parent
                     | Some _ => parentTask n
                     end)
                    0 (Some parent) None now 0%N);
      m ← load parent;
      match activeChildSpan m with
      | Some _ => panic ErrAlreadyActiveChildSpan
      | None => store parent (set_activeChildSpan (Some this))
      end;;
      emit (chrometraceBeginSpan this);;
      emit (callbackBeginSpan this);;
      ret (Some this, WithSpan_endTaskFunc parent this)
  end.

(** The [endTaskFunc] of [WithSpan], over the captured [parentSpan] and
    [this]. *)
Definition call_WithSpan_endTaskFunc (parent this : ptr) : M unit :=
  p ← load parent;
  n ← load this;
  if bool_decide (activeChildSpan p ≠ Some this) && IsZero (endedAt n)
  then panic ImplErrorActiveChildSpanChanged
  else
    match activeChildSpan n with
    | Some _ => panic ErrSpanStillHasActiveChildSpan
    | None =>
        if negb (IsZero (endedAt n)) then ret ()
        else
          store parent (set_activeChildSpan None);;
          now ← time_Now;
          store this (set_endedAt now);;
          emit (chrometraceEndSpan this);;
          emit (callbackEndSpan this)
    end.

(** Calling a [DoneFunc]. *)
Definition callDone (d : DoneFunc) : M unit :=
  match d with
  | WithTask_endTaskFunc this nameDone => call_WithTask_endTaskFunc this nameDone
  | WithSpan_endTaskFunc parent this => call_WithSpan_endTaskFunc parent this
  end.

(** ** Rendering the ancestry of a node *)

Record StackKind := mkStackKind {
  symbolizeTask : traceNode → string;
  symbolizeSpan : traceNode → string
}.

(** The kinds [StackKindId] and [SpanStackKindAnnotation]; the third kind of
    the package, [SpanStackKindCombined], renders ["(id %q)"] of both. *)
Definition StackKindId : StackKind := mkStackKind id id.

Definition SpanStackKindAnnotation : StackKind := mkStackKind annotation annotation.

(** [strings.Join] *)
Fixpoint Join (elems : list string) (sep : string) : string :=
  match elems with
  | [] => ""
  | [x] => x
  | x :: rest => x +:+ sep +:+ Join rest sep
  end.

(** [n.task()]: the node itself when it is a task, else its [parentTask]. *)
Definition task (n : ptr) (node : traceNode) : option ptr :=
  match parentSpan node with
  | None => Some n
  | Some _ => parentTask node
  end.

(** The two collecting loops of [TaskAndSpanStack]: the nodes met from [cur]
    along [next], nearest first.  [None] when a pointer leads outside the store
    or more than [fuel] nodes are met. *)
Fixpoint chain (fuel : nat) (next : traceNode → option ptr) (h : list traceNode)
    (cur : option ptr) : option (list traceNode) :=
  match cur with
  | None => Some []
  | Some p =>
      match fuel with
      | O => None
      | S fuel' =>
          match h !! p with
          | None => None
          | Some n =>
              match chain fuel' next h (next n) with
              | None => None
              | Some rest => Some (n :: rest)
              end
          end
      end
  end.

Definition TaskAndSpanStack (h : list traceNode) (this : ptr) (kind : StackKind)
    : option string :=
  match h !! this with
  | None => None
  | Some node =>
      match chain (length h) parentSpan h (Some this),
            chain (length h) parentTask h (task this node) with
      | Some spansInTask, Some tasks =>
          let taskIdsRev := symbolizeTask kind <$> reverse tasks in
          let spanIdsRev := symbolizeSpan kind <$> reverse spansInTask in
          let taskStack := Join taskIdsRev "$" in
          Some (taskStack +:+ "$" +:+ Join spanIdsRev ".")
      | _, _ => None
      end
  end.

Definition GetSpanStackOrDefault (h : list traceNode) (ctx : Context)
    (kind : StackKind) (def : string) : option string :=
  match ctx with
  | Some n => TaskAndSpanStack h n StackKindId
  | None => Some def
  end.

(** ** Programs that use the package *)

(** A client holds the contexts and closures the package returned to it and
    nothing else; [context.Background()] is always at hand. *)
Inductive call :=
  | CallWithTask (ctx : Context) (taskName : string)
  | CallWithSpan (ctx : Context) (label : string)
  | CallDone (d : DoneFunc).

Inductive outcome :=
  | Returned
  | Panicked (e : panicValue).

Record world := mkWorld {
  st : state;
  issued : list DoneFunc
}.

Definition thisOf (d : DoneFunc) : ptr :=
  match d with
  | WithTask_endTaskFunc this _ => this
  | WithSpan_endTaskFunc _ this => this
  end.

Global Instance DoneFunc_eq_dec : EqDecision DoneFunc.
Proof. solve_decision. Defined.

(** The contexts a client can pass: the background context and the contexts
    returned together with an issued closure. *)
Definition holdsContext (w : world) (ctx : Context) : Prop :=
  match ctx with
  | None => True
  | Some p => p ∈ thisOf <$> issued w
  end.

Global Instance holdsContext_dec w ctx : Decision (holdsContext w ctx).
Proof. destruct ctx; simpl; apply _. Defined.

Definition begun (w : world) (r : result (Context * DoneFunc)) : outcome * world :=
  match r with
  | Ok (_, d) s => (Returned, mkWorld s (issued w ++ [d]))
  | Panic e s => (Panicked e, mkWorld s (issued w))
  end.

Definition done (w : world) (r : result unit) : outcome * world :=
  match r with
  | Ok _ s => (Returned, mkWorld s (issued w))
  | Panic e s => (Panicked e, mkWorld s (issued w))
  end.

(** One call of the client; a panic is recovered and the program goes on in the
    state the panic left.  [None]: the client does not hold what it passes. *)
Definition exec (c : call) (w : world) : option (outcome * world) :=
  match c with
  | CallWithTask ctx taskName =>
      if decide (holdsContext w ctx)
      then Some (begun w (WithTask ctx taskName (st w))) else None
  | CallWithSpan ctx label =>
      if decide (holdsContext w ctx)
      then Some (begun w (WithSpan ctx label (st w))) else None
  | CallDone d =>
      if decide (d ∈ issued w)
      then Some (done w (callDone d (st w))) else None
  end.

Fixpoint run (cs : list call) (w : world) : option (list outcome * world) :=
  match cs with
  | [] => Some ([], w)
  | c :: cs' =>
      match exec c w with
      | None => None
      | Some (o, w') =>
          match run cs' w' with
          | None => None
          | Some (os, w'') => Some (o :: os, w'')
          end
      end
  end.

Definition start : world := mkWorld init [].

Definition reachable (w : world) : Prop :=
  ∃ cs os, run cs start = Some (os, w).

End trace.

Import trace.
Local Open Scope trace_scope.

(** * Vocabulary of the properties *)

(** ** Frames *)

(** The fields of a node that are written once, when the node is made. *)
Definition sameIdentity (n n' : traceNode) : Prop :=
  id n' = id n ∧ annotation n' = annotation n ∧ parentTask n' = parentTask n
  ∧ parentSpan n' = parentSpan n ∧ startedAt n' = startedAt n.

(** [s'] has all the nodes of [s], at the same addresses and with the same
    identity. *)
Definition grows (s s' : state) : Prop :=
  ∀ p n, heap s !! p = Some n → ∃ n', heap s' !! p = Some n' ∧ sameIdentity n n'.

(** The state a call leaves, whether it returns or panics. *)
Definition stateOf {A} (r : result A) : state :=
  match r with
  | Ok _ s => s
  | Panic _ s => s
  end.

(** A computation all of whose runs, returning or panicking, relate the state
    before to the state after by [R]. *)
Definition keeps {A} (R : state → state → Prop) (m : M A) : Prop :=
  ∀ s, R s (stateOf (m s)).

(** Two nodes that agree on everything the invariant of the spans reads: the
    end time of a task does not matter to it. *)
Definition sameSpanView (n n' : traceNode) : Prop :=
  sameIdentity n n' ∧ activeChildSpan n' = activeChildSpan n
  ∧ (parentSpan n ≠ None → endedAt n' = endedAt n).

(** Two nodes that agree on everything the invariant of the counters reads:
    the end time of a span does not matter to it. *)
Definition sameTaskView (n n' : traceNode) : Prop :=
  parentSpan n' = parentSpan n ∧ parentTask n' = parentTask n
  ∧ activeChildTasks n' = activeChildTasks n
  ∧ (parentSpan n = None → endedAt n' = endedAt n).

(** Two nodes with the same end time. *)
Definition sameEnd (n n' : traceNode) : Prop := endedAt n' = endedAt n.

(** ** The tree *)

(** Parent pointers lead to older nodes. *)
Definition acyclic (h : list traceNode) : Prop :=
  ∀ p n, h !! p = Some n →
    (∀ q, parentTask n = Some q → q < p) ∧ (∀ q, parentSpan n = Some q → q < p).

(** The task that [WithTask] starts its search from: the task the node of the
    context belongs to. *)
Definition candidate (h : list traceNode) (ctx : Context) : option ptr :=
  match ctx with
  | None => None
  | Some node =>
      match h !! node with
      | Some n => task node n
      | None => None
      end
  end.

(** [nearestLive h c r]: going up from [c] along [parentTask], [r] is the first
    task that has not ended; [None] when there is no such task. *)
Inductive nearestLive (h : list traceNode) : option ptr → option ptr → Prop :=
  | nearestLive_root : nearestLive h None None
  | nearestLive_here p n :
      h !! p = Some n → endedAt n = 0%N → nearestLive h (Some p) (Some p)
  | nearestLive_up p n r :
      h !! p = Some n → endedAt n ≠ 0%N → nearestLive h (parentTask n) r →
      nearestLive h (Some p) r.

(** The node [WithTask] makes. *)
Definition taskNode (i name : string) (parent : option ptr) (now : Time) : traceNode :=
  mkTraceNode i name parent 0 None None now 0%N.

(** The node [WithSpan] makes under [parent], whose node is [n]. *)
Definition spanNode (i label : string) (parent : ptr) (n : traceNode) (now : Time)
    : traceNode :=
  mkTraceNode i label (task parent n) 0 (Some parent) None now 0%N.

(** [this.parentTask.activeChildTasks++] *)
Definition adopt (parent : option ptr) (h : list traceNode) : list traceNode :=
  match parent with
  | None => h
  | Some p =>
      match h !! p with
      | Some n => <[p := set_activeChildTasks (wrap32 (activeChildTasks n + 1)) n]> h
      | None => h
      end
  end.

(** [1] when [P] holds of [x], else [0]. *)
Definition one {A : Type} (P : A → Prop) `{!∀ x, Decision (P x)} (x : A) : nat :=
  if decide (P x) then 1 else 0.

(** [n] is a task that has not ended and whose parent is [p]. *)
Definition liveChildOf (p : ptr) (n : traceNode) : Prop :=
  parentSpan n = None ∧ endedAt n = 0%N ∧ parentTask n = Some p.

Global Instance liveChildOf_dec p n : Decision (liveChildOf p n).
Proof. unfold liveChildOf. apply _. Defined.

(** The number of child tasks of [p] that have not ended. *)
Definition liveChildTasks (h : list traceNode) (p : ptr) : nat :=
  length (filter (liveChildOf p) h).

(** What holds of the nodes behind the closures a client holds: the closure of
    a task points to a task, the closure of a span to a span below the captured
    parent, and a span that has not ended is the active child of its parent. *)
Record spanInv (h : list traceNode) (ds : list DoneFunc) : Prop := mkSpanInv {
  inv_acyclic : acyclic h;
  inv_task : ∀ t nd, WithTask_endTaskFunc t nd ∈ ds →
    ∃ n, h !! t = Some n ∧ parentSpan n = None;
  inv_span : ∀ p x, WithSpan_endTaskFunc p x ∈ ds →
    ∃ n np, h !! x = Some n ∧ parentSpan n = Some p ∧ h !! p = Some np
            ∧ (endedAt n = 0%N → activeChildSpan np = Some x)
}.

(** What holds of the counters while the store has fewer than [2^31] nodes:
    [activeChildTasks] is the number of live child tasks, and a task that has
    ended has none. *)
Record taskInv (h : list traceNode) : Prop := mkTaskInv {
  inv_bound : (Z.of_nat (length h) < 2 ^ 31)%Z;
  inv_count : ∀ p n, h !! p = Some n →
    activeChildTasks n = Z.of_nat (liveChildTasks h p);
  inv_ended : ∀ p n, h !! p = Some n → parentSpan n = None → endedAt n ≠ 0%N →
    activeChildTasks n = 0%Z
}.

(** ** Counting the calls of a run *)

(** A completed [WithTask]. *)
Definition begins1 (c : call) (o : outcome) : nat :=
  match c, o with
  | CallWithTask _ _, Returned => 1
  | _, _ => 0
  end.

(** A completed call of the closure of a task none of whose earlier calls
    completed; [seen] are the tasks whose closure has completed before. *)
Definition ends1 (seen : list ptr) (c : call) (o : outcome) : nat :=
  match c, o with
  | CallDone (WithTask_endTaskFunc t _), Returned => if decide (t ∈ seen) then 0 else 1
  | _, _ => 0
  end.

(** The tasks whose closure has completed, after one more call. *)
Definition seenAfter (seen : list ptr) (c : call) (o : outcome) : list ptr :=
  match c, o with
  | CallDone (WithTask_endTaskFunc t _), Returned =>
      if decide (t ∈ seen) then seen else t :: seen
  | _, _ => seen
  end.

(** The number of completed [WithTask] calls of a run. *)
Fixpoint completedBegins (cs : list call) (os : list outcome) : nat :=
  match cs, os with
  | c :: cs', o :: os' => begins1 c o + completedBegins cs' os'
  | _, _ => 0
  end.

(** The number of completed first-time calls of task closures of a run. *)
Fixpoint firstEnds (seen : list ptr) (cs : list call) (os : list outcome) : nat :=
  match cs, os with
  | c :: cs', o :: os' => ends1 seen c o + firstEnds (seenAfter seen c o) cs' os'
  | _, _ => 0
  end.

(** [seen] are exactly the tasks that have ended. *)
Definition endedSeen (w : world) (seen : list ptr) : Prop :=
  (∀ t, t ∈ seen → t < length (heap (st w)))
  ∧ ∀ t nd n, WithTask_endTaskFunc t nd ∈ issued w → heap (st w) !! t = Some n →
      (endedAt n ≠ 0%N ↔ t ∈ seen).

(** ** Scenarios *)

(** The store of the ancestry scenario: task [A] at 0, its child task [B] at 1,
    span [y] at 2 opened in [B], span [x] at 3 opened in [y]. *)
Definition ancestry_tree : list traceNode :=
  [ mkTraceNode "0" "A" None 1%Z None None 1%N 0%N;
    mkTraceNode "1" "B" (Some 0) 0%Z None (Some 2) 2%N 0%N;
    mkTraceNode "2" "y" (Some 1) 0%Z (Some 1) (Some 3) 3%N 0%N;
    mkTraceNode "3" "x" (Some 1) 0%Z (Some 2) None 4%N 0%N ].

(** The world after a task and a span in it have been started. *)
Definition task_with_span : world :=
  default start (snd <$> run [CallWithTask None "t"; CallWithSpan (Some 0) "x"] start).

(** The same with a second span, [y], started in [x]. *)
Definition task_with_two_spans : world :=
  default start
    (snd <$> run [CallWithTask None "t"; CallWithSpan (Some 0) "x";
                  CallWithSpan (Some 1) "y"] start).

(** The state after span [x] of [task_with_span] has ended. *)
Definition span_ended : state :=
  stateOf (callDone (WithSpan_endTaskFunc 0 1) (st task_with_span)).

(** The world after a task and a child task of it have been started. *)
Definition task_with_child : world :=
  default start
    (snd <$> run [CallWithTask None "a"; CallWithTask (Some 0) "b"] start).

(** The world after a task and a child task were started and the child
    ended. *)
Definition child_ended : world :=
  default start
    (snd <$> run [CallWithTask None "a"; CallWithTask (Some 0) "b";
                  CallDone (WithTask_endTaskFunc 1 ("b", 0))] start).

(** Ending span [x] of task [t], starting span [z] from the context of the
    ended [x], and calling the closure of [x] once more. *)
Definition end_start_end : list call :=
  [CallWithTask None "t"; CallWithSpan (Some 0) "x";
   CallDone (WithSpan_endTaskFunc 0 1);
   CallWithSpan (Some 1) "z";
   CallDone (WithSpan_endTaskFunc 0 1)].

(** A task and a child task; the child ends, its closure is called once more,
    then the task ends. *)
Definition begin_end_twice : list call :=
  [CallWithTask None "a"; CallWithTask (Some 0) "b";
   CallDone (WithTask_endTaskFunc 1 ("b", 0));
   CallDone (WithTask_endTaskFunc 1 ("b", 0));
   CallDone (WithTask_endTaskFunc 0 ("a", 0))].

(** ** What a call does *)

(** The state [WithTask] leaves when it has found [parent]. *)
Definition afterWithTask (s : state) (taskName : string) (parent : option ptr) : state :=
  let k := lowestUnused (allocated taskName (taskNamer s)) in
  mkState
    (adopt parent
       (heap s ++ [taskNode (pretty (idgen s)) (taskName +:+ "#" +:+ pretty k)
                     parent (Npos (clock s))]))
    (Pos.succ (clock s)) (S (idgen s))
    (<[taskName := {[k]} ∪ allocated taskName (taskNamer s)]> (taskNamer s))
    (activeTasks s + 1)
    (emitted s ++ [chrometraceBeginTask (length (heap s))]).

(** The state [WithSpan] leaves when it panics under [parent], whose node is
    [n]: the new node is there, nothing points to it. *)
Definition afterWithSpanRefused (s : state) (parent : ptr) (label : string)
    (n : traceNode) : state :=
  mkState (heap s ++ [spanNode (pretty (idgen s)) label parent n (Npos (clock s))])
    (Pos.succ (clock s)) (S (idgen s)) (taskNamer s) (activeTasks s) (emitted s).

(** The state [WithSpan] leaves when it returns. *)
Definition afterWithSpan (s : state) (parent : ptr) (label : string) (n : traceNode)
    : state :=
  mkState
    (<[parent := set_activeChildSpan (Some (length (heap s))) n]>
       (heap s ++ [spanNode (pretty (idgen s)) label parent n (Npos (clock s))]))
    (Pos.succ (clock s)) (S (idgen s)) (taskNamer s) (activeTasks s)
    ((emitted s ++ [chrometraceBeginSpan (length (heap s))])
       ++ [callbackBeginSpan (length (heap s))]).

(** The store after task [t], whose node is [n], got its end time, and after
    the counter of its parent [q], whose node is [m], went down. *)
Definition taskEnded (s : state) (t : ptr) (n : traceNode) : list traceNode :=
  <[t := set_endedAt (Npos (clock s)) n]> (heap s).

Definition parentReleased (q : ptr) (m : traceNode) (h : list traceNode)
    : list traceNode :=
  <[q := set_activeChildTasks (wrap32 (activeChildTasks m - 1)) m]> h.

(** The state the closure of a task leaves when it ends the task, with store
    [h]. *)
Definition afterTaskEnd (s : state) (t : ptr) (nd : string * nat)
    (h : list traceNode) : state :=
  mkState h (Pos.succ (clock s)) (idgen s)
    (<[nd.1 := allocated nd.1 (taskNamer s) ∖ {[nd.2]}]> (taskNamer s))
    (activeTasks s - 1)
    (emitted s ++ [chrometraceEndTask t]).

(** The state the closure of a task leaves when it panics after the tree was
    changed. *)
Definition afterTaskEndPanic (s : state) (h : list traceNode) : state :=
  mkState h (Pos.succ (clock s)) (idgen s) (taskNamer s) (activeTasks s) (emitted s).

(** The state the closure of span [x] below [p] leaves when it ends the span. *)
Definition afterSpanEnd (s : state) (p x : ptr) (np n : traceNode) : state :=
  mkState
    (<[x := set_endedAt (Npos (clock s)) n]>
       (<[p := set_activeChildSpan None np]> (heap s)))
    (Pos.succ (clock s)) (idgen s) (taskNamer s) (activeTasks s)
    ((emitted s ++ [chrometraceEndSpan x]) ++ [callbackEndSpan x]).

(** [effect s ds c o w']: in state [s], the client holding the closures [ds],
    call [c] ends with [o] and leaves [w'].  One case per path through the
    four functions. *)
Inductive effect (s : state) (ds : list DoneFunc) : call → outcome → world → Prop :=
  | effect_WithTask ctx taskName parent :
      nearestLive (heap s) (candidate (heap s) ctx) parent →
      effect s ds (CallWithTask ctx taskName) Returned
        (mkWorld (afterWithTask s taskName parent)
           (ds ++ [WithTask_endTaskFunc (length (heap s))
                     (taskName, lowestUnused (allocated taskName (taskNamer s)))]))
  | effect_WithSpan_outside label :
      effect s ds (CallWithSpan None label) (Panicked MustBeCalledFromWithinTask)
        (mkWorld s ds)
  | effect_WithSpan_refused parent label n c :
      heap s !! parent = Some n → activeChildSpan n = Some c →
      effect s ds (CallWithSpan (Some parent) label) (Panicked ErrAlreadyActiveChildSpan)
        (mkWorld (afterWithSpanRefused s parent label n) ds)
  | effect_WithSpan parent label n :
      heap s !! parent = Some n → activeChildSpan n = None →
      effect s ds (CallWithSpan (Some parent) label) Returned
        (mkWorld (afterWithSpan s parent label n)
           (ds ++ [WithSpan_endTaskFunc parent (length (heap s))]))
  | effect_task_children t nd n :
      WithTask_endTaskFunc t nd ∈ ds →
      heap s !! t = Some n → parentSpan n = None → activeChildTasks n ≠ 0%Z →
      effect s ds (CallDone (WithTask_endTaskFunc t nd))
        (Panicked (ErrTaskStillHasActiveChildTasks (activeChildTasks n))) (mkWorld s ds)
  | effect_task_again t nd n :
      WithTask_endTaskFunc t nd ∈ ds →
      heap s !! t = Some n → parentSpan n = None → activeChildTasks n = 0%Z →
      endedAt n ≠ 0%N →
      effect s ds (CallDone (WithTask_endTaskFunc t nd)) Returned (mkWorld s ds)
  | effect_task_end_root t nd n :
      WithTask_endTaskFunc t nd ∈ ds →
      heap s !! t = Some n → parentSpan n = None → activeChildTasks n = 0%Z →
      endedAt n = 0%N → parentTask n = None →
      effect s ds (CallDone (WithTask_endTaskFunc t nd)) Returned
        (mkWorld (afterTaskEnd s t nd (taskEnded s t n)) ds)
  | effect_task_end_child t nd n q m :
      WithTask_endTaskFunc t nd ∈ ds →
      heap s !! t = Some n → parentSpan n = None → activeChildTasks n = 0%Z →
      endedAt n = 0%N → parentTask n = Some q → q < t → heap s !! q = Some m →
      (0 ≤ wrap32 (activeChildTasks m - 1))%Z →
      effect s ds (CallDone (WithTask_endTaskFunc t nd)) Returned
        (mkWorld (afterTaskEnd s t nd (parentReleased q m (taskEnded s t n))) ds)
  | effect_task_end_negative t nd n q m :
      WithTask_endTaskFunc t nd ∈ ds →
      heap s !! t = Some n → parentSpan n = None → activeChildTasks n = 0%Z →
      endedAt n = 0%N → parentTask n = Some q → q < t → heap s !! q = Some m →
      (wrap32 (activeChildTasks m - 1) < 0)%Z →
      effect s ds (CallDone (WithTask_endTaskFunc t nd))
        (Panicked ImplErrorNegativeActiveChildTasks)
        (mkWorld (afterTaskEndPanic s (parentReleased q m (taskEnded s t n))) ds)
  | effect_span_child p x np n c :
      WithSpan_endTaskFunc p x ∈ ds →
      heap s !! p = Some np → heap s !! x = Some n → parentSpan n = Some p → p < x →
      activeChildSpan n = Some c →
      effect s ds (CallDone (WithSpan_endTaskFunc p x))
        (Panicked ErrSpanStillHasActiveChildSpan) (mkWorld s ds)
  | effect_span_again p x np n :
      WithSpan_endTaskFunc p x ∈ ds →
      heap s !! p = Some np → heap s !! x = Some n → parentSpan n = Some p → p < x →
      activeChildSpan n = None → endedAt n ≠ 0%N →
      effect s ds (CallDone (WithSpan_endTaskFunc p x)) Returned (mkWorld s ds)
  | effect_span_end p x np n :
      WithSpan_endTaskFunc p x ∈ ds →
      heap s !! p = Some np → heap s !! x = Some n → parentSpan n = Some p → p < x →
      activeChildSpan n = None → endedAt n = 0%N → activeChildSpan np = Some x →
      effect s ds (CallDone (WithSpan_endTaskFunc p x)) Returned
        (mkWorld (afterSpanEnd s p x np n) ds).

(** ** More of the package *)

(** [n.TaskName()]: the annotation of the task the node belongs to. *)
Definition TaskName (h : list traceNode) (n : ptr) : option string :=
  match h !! n with
  | None => None
  | Some node =>
      match task n node with
      | None => None
      | Some t => annotation <$> h !! t
      end
  end.

(** [n.EndedAt()] *)
Definition EndedAt (h : list traceNode) (n : ptr) : option Time :=
  endedAt <$> h !! n.

(** Every span has a parent node and belongs to the task its parent belongs
    to; the task a node belongs to is a task node. *)
Definition typed (h : list traceNode) : Prop :=
  ∀ p n, h !! p = Some n →
    (∀ q, parentSpan n = Some q →
       ∃ nq, h !! q = Some nq ∧ parentTask n = task q nq ∧ is_Some (parentTask n))
    ∧ (∀ t, parentTask n = Some t → ∃ nt, h !! t = Some nt ∧ parentSpan nt = None).

(** [activeChildSpan], when set, points to a span below the node that has not
    ended and whose closure the client holds. *)
Definition linked (h : list traceNode) (ds : list DoneFunc) : Prop :=
  ∀ p np c, h !! p = Some np → activeChildSpan np = Some c →
    ∃ nc, h !! c = Some nc ∧ parentSpan nc = Some p ∧ endedAt nc = 0%N
          ∧ WithSpan_endTaskFunc p c ∈ ds.

(** The node an event is about. *)
Definition nodeOf (e : event) : ptr :=
  match e with
  | chrometraceBeginTask n | chrometraceEndTask n | chrometraceBeginSpan n
  | chrometraceEndSpan n | callbackBeginSpan n | callbackEndSpan n => n
  end.

(** For an event that ends something, the event that began it. *)
Definition beginOf (e : event) : option event :=
  match e with
  | chrometraceEndTask n => Some (chrometraceBeginTask n)
  | chrometraceEndSpan n => Some (chrometraceBeginSpan n)
  | callbackEndSpan n => Some (callbackBeginSpan n)
  | _ => None
  end.

(** The events emitted when the node of a closure was made. *)
Definition beginsOf (d : DoneFunc) : list event :=
  match d with
  | WithTask_endTaskFunc t _ => [chrometraceBeginTask t]
  | WithSpan_endTaskFunc _ x => [chrometraceBeginSpan x; callbackBeginSpan x]
  end.

(** In [l] every event that ends something comes after the event that began
    it. *)
Definition precededByBegin (l : list event) : Prop :=
  ∀ l1 e l2 b, l = l1 ++ e :: l2 → beginOf e = Some b → b ∈ l1.

(** The stream of events [l] against the store and the closures handed out. *)
Record eventsInv (h : list traceNode) (l : list event) (ds : list DoneFunc)
    : Prop := mkEventsInv {
  ev_nodup : NoDup l;
  ev_node : ∀ e, e ∈ l → nodeOf e < length h;
  ev_ended : ∀ e b, e ∈ l → beginOf e = Some b →
    ∃ n, h !! nodeOf e = Some n ∧ endedAt n ≠ 0%N;
  ev_order : precededByBegin l;
  ev_begun : ∀ d b, d ∈ ds → b ∈ beginsOf d → b ∈ l
}.

(** [n] is a task that has not ended. *)
Definition liveTask (n : traceNode) : Prop :=
  parentSpan n = None ∧ endedAt n = 0%N.

Global Instance liveTask_dec n : Decision (liveTask n).
Proof. unfold liveTask. apply _. Defined.

(** The number of tasks in the store that have not ended. *)
Definition liveTasks (h : list traceNode) : nat := length (filter liveTask h).

(** The panics the package documents. *)
Definition documented (e : panicValue) : Prop :=
  match e with
  | ErrTaskStillHasActiveChildTasks _ | ErrAlreadyActiveChildSpan
  | ErrSpanStillHasActiveChildSpan | MustBeCalledFromWithinTask => True
  | _ => False
  end.

(** A way of naming nodes that reads only what is written when a node is
    made. *)
Definition namesByIdentity (kind : StackKind) : Prop :=
  ∀ n n', sameIdentity n n' →
    symbolizeTask kind n' = symbolizeTask kind n
    ∧ symbolizeSpan kind n' = symbolizeSpan kind n.

(** * Properties *)

(** ** The unique namer *)

Lemma lowestUnused_spec (used : gset nat) :
  (lowestUnused used ∉ used) ∧ ∀ j, j < lowestUnused used → j ∈ used.
Proof.
  unfold lowestUnused.
  destruct (list_find _ _) as [[k x]|] eqn:Hfind.
  - apply list_find_Some in Hfind as (Hk & Hx & Hmin).
    apply lookup_seq in Hk as [-> Hlt]. rewrite Nat.add_0_l in *.
    split; [done|]. intros j Hj.
    destruct (decide (j ∈ used)) as [|Hn]; [done|].
    exfalso. apply (Hmin j j); [|done|done].
    apply lookup_seq. split; [done|lia].
  - exfalso. apply list_find_None in Hfind.
    assert (set_seq 0 (S (size used)) ⊆ used) as Hsub.
    { intros j Hj. apply elem_of_set_seq in Hj.
      destruct (decide (j ∈ used)) as [|Hn]; [done|].
      exfalso. eapply (Forall_forall _ _ ) in Hfind; [exact (Hfind Hn)|].
      apply elem_of_seq. lia. }
    apply subseteq_size in Hsub. rewrite size_set_seq in Hsub. lia.
Qed.

(** C9.  Allocation always picks the lowest suffix that is not allocated for
    the base name, marks it and shows it after [#]; two allocations for
    ["sync"] that are live together get the suffixes 0 and 1, and once 0 is
    released the next allocation for ["sync"] gets 0 again, not 2. *)
Theorem UniqueConcurrentTaskName_lowest_unused :
  (∀ (name : string) (s : state),
     ∃ k s',
       UniqueConcurrentTaskName name s = Ok (name +:+ "#" +:+ pretty k, (name, k)) s'
       ∧ (k ∉ allocated name (taskNamer s))
       ∧ (∀ j, j < k → j ∈ allocated name (taskNamer s))
       ∧ allocated name (taskNamer s') = {[k]} ∪ allocated name (taskNamer s)
       ∧ (∀ other, other ≠ name →
            allocated other (taskNamer s') = allocated other (taskNamer s)))
  ∧ (∃ s1 s2 s3 s4,
       UniqueConcurrentTaskName "sync" init = Ok ("sync#0", ("sync", 0)) s1
       ∧ UniqueConcurrentTaskName "sync" s1 = Ok ("sync#1", ("sync", 1)) s2
       ∧ taskNameDone ("sync", 0) s2 = Ok () s3
       ∧ UniqueConcurrentTaskName "sync" s3 = Ok ("sync#0", ("sync", 0)) s4).
Proof.
  split.
  - intros name s. eexists _, _. split; [reflexivity|].
    destruct (lowestUnused_spec (allocated name (taskNamer s))) as [Hfree Hmin].
    repeat split; try done.
    + unfold allocated at 1. simpl. by rewrite lookup_insert_eq.
    + intros other Hne. unfold allocated at 1. simpl.
      by rewrite lookup_insert_ne.
  - eexists _, _, _, _. repeat split; vm_compute; reflexivity.
Qed.

(** ** Spans need a task *)

(** C8.  [WithSpan] on a context that carries no node panics with "must be
    called from within a task"; the state is the one before the call, so no
    node was made, and the client gets no closure. *)
Theorem WithSpan_outside_task (label : string) :
  (∀ s : state, WithSpan None label s = Panic MustBeCalledFromWithinTask s)
  ∧ (∀ w : world,
       exec (CallWithSpan None label) w
       = Some (Panicked MustBeCalledFromWithinTask, w)).
Proof.
  split.
  - intros s. reflexivity.
  - intros w. unfold exec. case_decide as Hctx; [by destruct w|].
    by destruct Hctx.
Qed.

(** ** The ancestry label *)

(** The four calls of the scenario build this store; the namer shows the two
    tasks as [A#0] and [B#0]. *)
Example ancestry_tree_built :
  ∃ os w,
    run [CallWithTask None "A"; CallWithTask (Some 0) "B";
         CallWithSpan (Some 1) "y"; CallWithSpan (Some 2) "x"] start = Some (os, w)
    ∧ Forall (eq Returned) os
    ∧ heap (st w) =
        <[1 := mkTraceNode "1" "B#0" (Some 0) 0%Z None (Some 2) 2%N 0%N]>
          (<[0 := mkTraceNode "0" "A#0" None 1%Z None None 1%N 0%N]> ancestry_tree).
Proof.
  eexists _, _. split; [vm_compute; reflexivity|].
  split; [repeat constructor|reflexivity].
Qed.

Lemma chain_end fuel next h : chain fuel next h None = Some [].
Proof. by destruct fuel. Qed.

(** In a store whose parent pointers lead to older nodes the collecting loops
    end within the fuel they are given. *)
Lemma chain_total next h fuel cur :
  (∀ p n q, h !! p = Some n → next n = Some q → q < p) →
  (∀ p, cur = Some p → p < fuel ∧ p < length h) →
  is_Some (chain fuel next h cur).
Proof.
  intros Hnext. revert cur. induction fuel as [|fuel IH]; intros cur Hcur.
  - destruct cur as [p|]; [|by eexists]. destruct (Hcur p eq_refl). lia.
  - destruct cur as [p|]; [|by eexists]. destruct (Hcur p eq_refl) as [Hp Hlen].
    destruct (lookup_lt_is_Some_2 _ _ Hlen) as [n Hn]. simpl. rewrite Hn.
    destruct (IH (next n)) as [rest Hrest].
    { intros q Hq. specialize (Hnext p n q Hn Hq). lia. }
    rewrite Hrest. by eexists.
Qed.

(** [TaskAndSpanStack] returns a label for every node of such a store. *)
Lemma TaskAndSpanStack_total h this kind :
  acyclic h → this < length h → is_Some (TaskAndSpanStack h this kind).
Proof.
  intros Hacyc Hthis. unfold TaskAndSpanStack.
  destruct (lookup_lt_is_Some_2 _ _ Hthis) as [node Hnode]. rewrite Hnode.
  destruct (chain_total parentSpan h (length h) (Some this)) as [spans ->].
  { intros p n q Hp Hq. apply Hacyc in Hp as [_ Hp]. by apply Hp. }
  { by intros p [= <-]. }
  destruct (chain_total parentTask h (length h) (task this node)) as [tasks ->].
  { intros p n q Hp Hq. apply Hacyc in Hp as [Hp _]. by apply Hp. }
  { intros p Hp. unfold task in Hp. destruct (parentSpan node).
    - apply Hacyc in Hnode as [Hnode _]. specialize (Hnode p Hp). lia.
    - injection Hp as <-. done. }
  by eexists.
Qed.

(** The label of a span two levels below a task with one ancestor, for any
    store of that shape and any way of naming nodes. *)
Lemma TaskAndSpanStack_two_spans (h : list traceNode) (a b y x : ptr)
    (na nb ny nx : traceNode) (kind : StackKind) :
  h !! a = Some na → parentSpan na = None → parentTask na = None →
  h !! b = Some nb → parentSpan nb = None → parentTask nb = Some a →
  h !! y = Some ny → parentSpan ny = Some b →
  h !! x = Some nx → parentSpan nx = Some y → parentTask nx = Some b →
  TaskAndSpanStack h x kind =
    Some (Join [symbolizeTask kind na; symbolizeTask kind nb] "$" +:+ "$" +:+
          Join [symbolizeSpan kind nb; symbolizeSpan kind ny; symbolizeSpan kind nx] ".").
Proof.
  intros Ha Hsa Hta Hb Hsb Htb Hy Hsy Hx Hsx Htx.
  assert (x ≠ y) by (intros ->; congruence).
  assert (x ≠ b) by (intros ->; congruence).
  assert (y ≠ b) by (intros ->; congruence).
  pose proof (lookup_lt_Some _ _ _ Hb). pose proof (lookup_lt_Some _ _ _ Hy).
  pose proof (lookup_lt_Some _ _ _ Hx).
  unfold TaskAndSpanStack, task. rewrite Hx, Hsx, Htx.
  destruct (length h) as [|[|[|n]]] eqn:Hlen; [lia..|].
  repeat (cbn [chain];
    first [rewrite Hx | rewrite Hsx | rewrite Hy | rewrite Hsy | rewrite Hb
          | rewrite Hsb | rewrite Htb | rewrite Ha | rewrite Hta | rewrite Hsa
          | rewrite chain_end]).
  reflexivity.
Qed.

(** C1 (as the code has it).  In the tree of the scenario, with the task nodes
    labelled [A] and [B], [TaskAndSpanStack] with the annotation-only kind
    gives ["A$B$B.y.x"] for the node of [x]: the tasks from the root joined by
    [$], one [$], then the nodes met along [parentSpan] from the root joined by
    [.], of which the first is the enclosing task node itself. *)
Theorem TaskAndSpanStack_annotation_ancestry (h : list traceNode) (a b y x : ptr)
    (na nb ny nx : traceNode) :
  h !! a = Some na → parentSpan na = None → parentTask na = None →
  h !! b = Some nb → parentSpan nb = None → parentTask nb = Some a →
  h !! y = Some ny → parentSpan ny = Some b →
  h !! x = Some nx → parentSpan nx = Some y → parentTask nx = Some b →
  annotation na = "A" → annotation nb = "B" →
  annotation ny = "y" → annotation nx = "x" →
  TaskAndSpanStack h x SpanStackKindAnnotation = Some "A$B$B.y.x".
Proof.
  intros Ha Hsa Hta Hb Hsb Htb Hy Hsy Hx Hsx Htx Aa Ab Ay Ax.
  rewrite (TaskAndSpanStack_two_spans h a b y x na nb ny nx) by done.
  simpl. rewrite Aa, Ab, Ay, Ax. reflexivity.
Qed.

Lemma TaskAndSpanStack_annotation_ancestry_witness :
  TaskAndSpanStack ancestry_tree 3 SpanStackKindAnnotation = Some "A$B$B.y.x".
Proof.
  apply (TaskAndSpanStack_annotation_ancestry ancestry_tree 0 1 2 3
           (mkTraceNode "0" "A" None 1%Z None None 1%N 0%N)
           (mkTraceNode "1" "B" (Some 0) 0%Z None (Some 2) 2%N 0%N)
           (mkTraceNode "2" "y" (Some 1) 0%Z (Some 1) (Some 3) 3%N 0%N)
           (mkTraceNode "3" "x" (Some 1) 0%Z (Some 2) None 4%N 0%N));
    reflexivity.
Defined.

(** In the scenario the ancestry query does not answer ["A$B$y.x"]: it names
    the nodes by [id] whatever kind is passed, and the span part of the label
    starts with the task [B]. *)
Lemma GetSpanStackOrDefault_ancestry_counterexample :
  GetSpanStackOrDefault ancestry_tree (Some 3) SpanStackKindAnnotation "" = Some "0$1$1.2.3"
  ∧ GetSpanStackOrDefault ancestry_tree (Some 3) SpanStackKindAnnotation "" ≠ Some "A$B$y.x"
  ∧ TaskAndSpanStack ancestry_tree 3 SpanStackKindAnnotation ≠ Some "A$B$y.x".
Proof. split; [reflexivity|split; discriminate]. Qed.

(** ** What no call changes *)

Section frame.
Context (R : state → state → Prop) `{!Reflexive R} `{!Transitive R}.

Lemma keeps_ret {A} (a : A) : keeps R (ret a).
Proof. intros s. simpl. reflexivity. Qed.

Lemma keeps_panic {A} e : keeps R (@panic A e).
Proof. intros s. simpl. reflexivity. Qed.

Lemma keeps_bind {A B} (m : M A) (k : A → M B) :
  keeps R m → (∀ a, keeps R (k a)) → keeps R (bind m k).
Proof.
  intros Hm Hk s. unfold bind. specialize (Hm s).
  destruct (m s) as [a s1|e s1]; simpl in *; [|done].
  etrans; [exact Hm|apply Hk].
Qed.

Lemma keeps_load p : keeps R (load p).
Proof. intros s. unfold load. destruct (heap s !! p); simpl; reflexivity. Qed.

Lemma keeps_if {A} (b : bool) (m1 m2 : M A) :
  keeps R m1 → keeps R m2 → keeps R (if b then m1 else m2).
Proof. by destruct b. Qed.
End frame.

Global Instance sameIdentity_refl : Reflexive sameIdentity.
Proof. by intros n. Qed.

Global Instance sameIdentity_trans : Transitive sameIdentity.
Proof. intros a b c (?&?&?&?&?) (?&?&?&?&?). repeat split; congruence. Qed.

Global Instance grows_refl : Reflexive grows.
Proof. intros s p n Hp. by exists n. Qed.

Global Instance grows_trans : Transitive grows.
Proof.
  intros s1 s2 s3 H12 H23 p n Hp.
  destruct (H12 p n Hp) as (n2 & Hp2 & Hid2).
  destruct (H23 p n2 Hp2) as (n3 & Hp3 & Hid3).
  exists n3. split; [done|]. by etrans.
Qed.

Lemma grows_length s s' : grows s s' → length (heap s) ≤ length (heap s').
Proof.
  intros Hg. destruct (heap s) as [|n0 h0] eqn:Hh using rev_ind; [simpl; lia|].
  destruct (Hg (length h0) n0) as (n' & Hn' & _).
  { rewrite Hh. by apply list_lookup_middle. }
  apply lookup_lt_Some in Hn'. rewrite length_app. simpl. lia.
Qed.

Lemma grows_store p f :
  (∀ n, sameIdentity n (f n)) → keeps grows (store p f).
Proof.
  intros Hf s. unfold store. destruct (heap s !! p) as [n|] eqn:Hp; simpl; [|done].
  intros q m Hq. simpl. destruct (decide (q = p)) as [->|Hne].
  - exists (f n). rewrite list_lookup_insert_eq by (by eapply lookup_lt_Some).
    split; [done|]. assert (m = n) as -> by congruence. apply Hf.
  - exists m. by rewrite list_lookup_insert_ne.
Qed.

Lemma grows_new n : keeps grows (new n).
Proof.
  intros s q m Hq. simpl. exists m. split; [|done]. by apply lookup_app_l_Some.
Qed.

Lemma grows_same_heap {A} (m : M A) :
  (∀ s, heap (stateOf (m s)) = heap s) → keeps grows m.
Proof. intros Hm s p n Hp. rewrite Hm. by exists n. Qed.

Lemma grows_firstLiveAncestor fuel cand : keeps grows (firstLiveAncestor fuel cand).
Proof.
  revert cand. induction fuel as [|fuel IH]; intros cand; simpl.
  - apply keeps_panic, _.
  - destruct cand as [p|]; [|apply keeps_ret, _].
    apply keeps_bind; [apply _|apply keeps_load, _|]. intros n.
    apply keeps_if; [apply keeps_ret, _|apply IH].
Qed.

Local Ltac frame_step :=
  first
    [ apply keeps_ret; apply _
    | apply keeps_panic; apply _
    | apply keeps_load; apply _
    | apply grows_firstLiveAncestor
    | apply grows_new
    | apply grows_store; intros []; done
    | apply grows_same_heap; intros ?; reflexivity
    | apply keeps_bind; [apply _| |intros ?]
    | apply keeps_if
    | match goal with |- keeps _ (match ?x with _ => _ end) => destruct x end ].

Lemma grows_WithTask ctx taskName : keeps grows (WithTask ctx taskName).
Proof. unfold WithTask. repeat frame_step. Qed.

Lemma grows_WithSpan ctx label : keeps grows (WithSpan ctx label).
Proof. unfold WithSpan. repeat frame_step. Qed.

Lemma grows_callDone d : keeps grows (callDone d).
Proof.
  destruct d; unfold callDone, call_WithTask_endTaskFunc, alreadyEnded,
    call_WithSpan_endTaskFunc; repeat frame_step.
Qed.

Lemma grows_exec c w o w' : exec c w = Some (o, w') → grows (st w) (st w').
Proof.
  destruct c as [ctx name|ctx label|d]; simpl; case_decide; intros [=]; subst.
  - generalize (grows_WithTask ctx name (st w)).
    destruct (WithTask _ _ _) as [[? ?] ?|? ?]; simpl in *; by simplify_eq.
  - generalize (grows_WithSpan ctx label (st w)).
    destruct (WithSpan _ _ _) as [[? ?] ?|? ?]; simpl in *; by simplify_eq.
  - generalize (grows_callDone d (st w)).
    destruct (callDone _ _) as [? ?|? ?]; simpl in *; by simplify_eq.
Qed.

Lemma grows_run cs w os w' : run cs w = Some (os, w') → grows (st w) (st w').
Proof.
  revert w os. induction cs as [|c cs IH]; intros w os; simpl.
  - intros [=]; subst. reflexivity.
  - destruct (exec c w) as [[o w1]|] eqn:Hexec; [|done].
    destruct (run cs w1) as [[os1 w2]|] eqn:Hrun; [|done].
    intros [=]; subst. etrans; [by eapply grows_exec|by eapply IH].
Qed.

(** ** The shape of the store *)

Lemma IsZero_true t : IsZero t = true ↔ t = 0%N.
Proof. unfold IsZero. apply N.eqb_eq. Qed.

Lemma IsZero_false t : IsZero t = false ↔ t ≠ 0%N.
Proof. unfold IsZero. apply N.eqb_neq. Qed.

Lemma nearestLive_lt h c r : nearestLive h c r →
  ∀ p, r = Some p → ∃ n, h !! p = Some n ∧ endedAt n = 0%N.
Proof.
  induction 1 as [|p n Hp Hn|p n r Hp Hn _ IH]; intros q Hq; simplify_eq; eauto.
Qed.

Lemma nearestLive_functional h c r1 r2 :
  nearestLive h c r1 → nearestLive h c r2 → r1 = r2.
Proof.
  intros H1. revert r2.
  induction H1 as [|p n Hp Hn|p n r Hp Hn _ IH]; intros r2 H2;
    inversion H2; simplify_eq; eauto.
Qed.

(** With enough fuel the search of [WithTask] ends, leaves the state alone and
    finds the nearest task that has not ended. *)
Lemma firstLiveAncestor_nearestLive fuel cand s :
  acyclic (heap s) →
  match cand with
  | Some p => p + 1 < fuel ∧ p < length (heap s)
  | None => 0 < fuel
  end →
  ∃ r, firstLiveAncestor fuel cand s = Ok r s ∧ nearestLive (heap s) cand r.
Proof.
  intros Hacyc. revert cand.
  induction fuel as [|fuel IH]; intros cand Hfuel.
  { destruct cand; lia. }
  destruct cand as [p|]; simpl.
  - destruct Hfuel as [Hfuel Hlen].
    destruct (lookup_lt_is_Some_2 _ _ Hlen) as [n Hn].
    unfold bind, load. rewrite Hn.
    destruct (IsZero (endedAt n)) eqn:Hz.
    + exists (Some p). split; [done|].
      apply IsZero_true in Hz. by eapply nearestLive_here.
    + apply IsZero_false in Hz. destruct (IH (parentTask n)) as (r & Hr & Hnear).
      { destruct (parentTask n) as [q|] eqn:Hq; [|lia].
        apply Hacyc in Hn as [Hn _]. specialize (Hn q Hq). lia. }
      exists r. split; [done|]. by eapply nearestLive_up.
  - exists None. split; [done|constructor].
Qed.

Lemma candidate_lt h ctx p :
  acyclic h → candidate h ctx = Some p → p < length h.
Proof.
  intros Hacyc. destruct ctx as [node|]; simpl; [|done].
  destruct (h !! node) as [n|] eqn:Hn; [|done].
  unfold task. pose proof (lookup_lt_Some _ _ _ Hn).
  destruct (parentSpan n); intros Hp; simplify_eq; [|done].
  apply Hacyc in Hn as [Hn _]. specialize (Hn p Hp). lia.
Qed.

(** What [WithTask] does, in one equation. *)
Lemma WithTask_Ok ctx taskName s :
  acyclic (heap s) →
  (∀ node, ctx = Some node → is_Some (heap s !! node)) →
  ∃ parent,
    nearestLive (heap s) (candidate (heap s) ctx) parent
    ∧ WithTask ctx taskName s =
        let k := lowestUnused (allocated taskName (taskNamer s)) in
        let this := length (heap s) in
        Ok (Some this, WithTask_endTaskFunc this (taskName, k))
           (mkState
              (adopt parent
                 (heap s ++ [taskNode (pretty (idgen s)) (taskName +:+ "#" +:+ pretty k)
                               parent (Npos (clock s))]))
              (Pos.succ (clock s)) (S (idgen s))
              (<[taskName := {[k]} ∪ allocated taskName (taskNamer s)]> (taskNamer s))
              (activeTasks s + 1)
              (emitted s ++ [chrometraceBeginTask this])).
Proof.
  intros Hacyc Hctx.
  destruct (firstLiveAncestor_nearestLive (S (length (heap s)))
              (candidate (heap s) ctx) s Hacyc) as (parent & Hwalk & Hnear).
  { destruct (candidate _ _) as [p|] eqn:Hc; [|lia].
    apply candidate_lt in Hc; [lia|done]. }
  exists parent. split; [done|].
  assert (∀ p, parent = Some p → ∃ n, heap s !! p = Some n) as Hparent.
  { intros p ->. destruct (nearestLive_lt _ _ _ Hnear p) as (n & ? & _); eauto. }
  unfold WithTask, bind at 1.
  assert ((match ctx with
           | Some node => n ← load node;
               ret (match parentSpan n with Some _ => parentTask n | None => Some node end)
           | None => ret None
           end) s = Ok (candidate (heap s) ctx) s) as ->.
  { destruct ctx as [node|]; [|done]. destruct (Hctx node) as [n Hn]; [done|].
    unfold bind, load, candidate, task. rewrite Hn. simpl. by destruct (parentSpan n). }
  unfold bind at 1. unfold bind at 1. rewrite Hwalk.
  unfold bind, UniqueConcurrentTaskName, genID, time_Now, new, emit, activeTasks_Inc,
    store, ret. simpl.
  destruct parent as [p|]; simpl; [|done].
  destruct (Hparent p) as [n Hn]; [done|].
  unfold adopt. rewrite !(lookup_app_l_Some _ _ _ _ Hn). reflexivity.
Qed.

(** What the task's [endTaskFunc] does, by cases. *)
Lemma call_WithTask_endTaskFunc_eq this nameDone s n :
  heap s !! this = Some n →
  call_WithTask_endTaskFunc this nameDone s =
    if bool_decide (activeChildTasks n ≠ 0%Z)
    then Panic (ErrTaskStillHasActiveChildTasks (activeChildTasks n)) s
    else if negb (IsZero (endedAt n)) then Ok () s
    else
      let h1 := <[this := set_endedAt (Npos (clock s)) n]> (heap s) in
      let released :=
        <[nameDone.1 := allocated nameDone.1 (taskNamer s) ∖ {[nameDone.2]}]> (taskNamer s) in
      let ended := emitted s ++ [chrometraceEndTask this] in
      match parentTask n with
      | None =>
          Ok () (mkState h1 (Pos.succ (clock s)) (idgen s) released
                   (activeTasks s - 1) ended)
      | Some p =>
          match h1 !! p with
          | None =>
              Panic NilDereference
                (mkState h1 (Pos.succ (clock s)) (idgen s) (taskNamer s)
                   (activeTasks s) (emitted s))
          | Some m =>
              let c := wrap32 (activeChildTasks m - 1) in
              let h2 := <[p := set_activeChildTasks c m]> h1 in
              if bool_decide (c < 0)%Z
              then Panic ImplErrorNegativeActiveChildTasks
                     (mkState h2 (Pos.succ (clock s)) (idgen s) (taskNamer s)
                        (activeTasks s) (emitted s))
              else Ok () (mkState h2 (Pos.succ (clock s)) (idgen s) released
                            (activeTasks s - 1) ended)
          end
      end.
Proof.
  intros Hn.
  unfold call_WithTask_endTaskFunc, alreadyEnded, bind, load. rewrite Hn.
  case_bool_decide; [done|].
  destruct (IsZero (endedAt n)); simpl; [|done].
  unfold time_Now, store, emit, activeTasks_Dec, taskNameDone, ret. simpl. rewrite Hn.
  simpl. destruct (parentTask n) as [p|]; [|done].
  destruct (_ !! p) as [m|] eqn:Hm; simpl in *; [|done].
  rewrite list_lookup_insert_eq by (by eapply lookup_lt_Some).
  simpl. by case_bool_decide.
Qed.

(** What [WithSpan] does under a node, by cases. *)
Lemma WithSpan_eq parent label s n :
  heap s !! parent = Some n →
  WithSpan (Some parent) label s =
    let this := length (heap s) in
    let h1 := heap s ++ [spanNode (pretty (idgen s)) label parent n (Npos (clock s))] in
    match activeChildSpan n with
    | Some _ =>
        Panic ErrAlreadyActiveChildSpan
          (mkState h1 (Pos.succ (clock s)) (S (idgen s)) (taskNamer s)
             (activeTasks s) (emitted s))
    | None =>
        Ok (Some this, WithSpan_endTaskFunc parent this)
           (mkState (<[parent := set_activeChildSpan (Some this) n]> h1)
              (Pos.succ (clock s)) (S (idgen s)) (taskNamer s) (activeTasks s)
              ((emitted s ++ [chrometraceBeginSpan this]) ++ [callbackBeginSpan this]))
    end.
Proof.
  intros Hn. unfold WithSpan, bind, load. rewrite Hn.
  unfold genID, time_Now, new, store, emit, ret, panic. simpl.
  rewrite (lookup_app_l_Some _ _ _ _ Hn).
  unfold spanNode, task.
  destruct (activeChildSpan n); simpl; [by destruct (parentSpan n)|].
  rewrite (lookup_app_l_Some _ _ _ _ Hn). by destruct (parentSpan n).
Qed.

(** What the span's [endTaskFunc] does, by cases. *)
Lemma call_WithSpan_endTaskFunc_eq parent this s p n :
  heap s !! parent = Some p → heap s !! this = Some n → parent ≠ this →
  call_WithSpan_endTaskFunc parent this s =
    if bool_decide (activeChildSpan p ≠ Some this) && IsZero (endedAt n)
    then Panic ImplErrorActiveChildSpanChanged s
    else
      match activeChildSpan n with
      | Some _ => Panic ErrSpanStillHasActiveChildSpan s
      | None =>
          if negb (IsZero (endedAt n)) then Ok () s
          else
            Ok () (mkState
                     (<[this := set_endedAt (Npos (clock s)) n]>
                        (<[parent := set_activeChildSpan None p]> (heap s)))
                     (Pos.succ (clock s)) (idgen s) (taskNamer s) (activeTasks s)
                     ((emitted s ++ [chrometraceEndSpan this]) ++ [callbackEndSpan this]))
      end.
Proof.
  intros Hp Hn Hne. unfold call_WithSpan_endTaskFunc, bind, load. rewrite Hp, Hn.
  destruct (_ && _); [done|].
  destruct (activeChildSpan n); [done|].
  destruct (IsZero (endedAt n)); simpl; [|done].
  unfold store, time_Now, emit. simpl. rewrite Hp. simpl.
  rewrite list_lookup_insert_ne by lia. rewrite Hn. done.
Qed.

(** ** Invariants of the tree *)

Section counting.
Context {A : Type} (P : A → Prop) `{!∀ x, Decision (P x)}.

Lemma count_snoc l x : length (filter P (l ++ [x])) = length (filter P l) + one P x.
Proof.
  rewrite filter_app, length_app. f_equal. unfold one.
  rewrite filter_cons, filter_nil. by case_decide.
Qed.

Lemma count_insert l i x y :
  l !! i = Some x →
  length (filter P (<[i:=y]> l)) + one P x = length (filter P l) + one P y.
Proof.
  revert i. induction l as [|z l IH]; intros [|i] Hi; simplify_eq/=.
  - rewrite !filter_cons. unfold one. repeat case_decide; simpl; lia.
  - specialize (IH i Hi). rewrite !filter_cons. case_decide; simpl; lia.
Qed.

Lemma count_none l : Forall (λ x, ¬ P x) l → length (filter P l) = 0.
Proof.
  induction 1 as [|x l Hx _ IH]; [done|]. by rewrite filter_cons_False.
Qed.

Lemma count_pos l i x : l !! i = Some x → P x → 0 < length (filter P l).
Proof.
  revert i. induction l as [|z l IH]; intros [|i] Hi HP; simplify_eq/=.
  - rewrite filter_cons_True by done. simpl. lia.
  - rewrite filter_cons. specialize (IH i Hi HP). case_decide; simpl; lia.
Qed.
End counting.

Lemma liveChildTasks_le h p : liveChildTasks h p ≤ length h.
Proof. apply length_filter. Qed.

Lemma liveChildTasks_fresh h p : acyclic h → length h ≤ p → liveChildTasks h p = 0.
Proof.
  intros Hacyc Hp. apply count_none, Forall_lookup_2. intros q n Hq (_ & _ & Hpar).
  pose proof (lookup_lt_Some _ _ _ Hq).
  apply Hacyc in Hq as [Hq _]. specialize (Hq p Hpar). lia.
Qed.

(** Arithmetic on [int32] that stays in range does not wrap. *)
Lemma wrap32_small z : (- 2 ^ 31 ≤ z < 2 ^ 31)%Z → wrap32 z = z.
Proof. intros Hz. unfold wrap32. rewrite Z.mod_small; lia. Qed.

Lemma wrap32_range z : (- 2 ^ 31 ≤ wrap32 z < 2 ^ 31)%Z.
Proof.
  unfold wrap32. pose proof (Z.mod_pos_bound (z + 2 ^ 31) (2 ^ 32)). lia.
Qed.

Global Instance sameSpanView_refl : Reflexive sameSpanView.
Proof. by intros n. Qed.

Global Instance sameSpanView_trans : Transitive sameSpanView.
Proof.
  intros a b c ((?&?&?&?&?)&?&Hab) ((?&?&?&?&?)&?&Hbc).
  repeat split; try congruence. intros Hs. rewrite Hbc, Hab; congruence.
Qed.

Global Instance sameTaskView_refl : Reflexive sameTaskView.
Proof. by intros n. Qed.

Global Instance sameTaskView_trans : Transitive sameTaskView.
Proof.
  intros a b c (?&?&?&Hab) (?&?&?&Hbc).
  repeat split; try congruence. intros Hs. rewrite Hbc, Hab; congruence.
Qed.

Section views.
Context (R : traceNode → traceNode → Prop) `{!Reflexive R} `{!Transitive R}.

Lemma view_refl h : Forall2 R h h.
Proof. by apply Forall_Forall2_diag, Forall_true. Qed.

Lemma view_insert h i x y : h !! i = Some x → R x y → Forall2 R h (<[i:=y]> h).
Proof.
  intros Hi Hxy. rewrite <-(list_insert_id h i x) at 1 by done.
  apply Forall2_insert; [apply view_refl|done].
Qed.

Lemma view_trans h1 h2 h3 : Forall2 R h1 h2 → Forall2 R h2 h3 → Forall2 R h1 h3.
Proof. apply Forall2_trans. intros ???. apply transitivity. Qed.

Lemma view_insert_insert h i x y j z w :
  h !! i = Some x → R x y → <[i:=y]> h !! j = Some z → R z w →
  Forall2 R h (<[j:=w]> (<[i:=y]> h)).
Proof.
  intros Hi Hxy Hj Hzw. eapply view_trans; [by eapply view_insert|].
  by eapply view_insert.
Qed.
End views.

Lemma spanInv_view h h' ds :
  spanInv h ds → Forall2 sameSpanView h h' → spanInv h' ds.
Proof.
  intros [Hacyc Htask Hspan] Hview. split.
  - intros p n' Hp.
    destruct (Forall2_lookup_r _ _ _ _ _ Hview Hp) as (n & Hn & (_&_&HT&HS&_) & _).
    rewrite HT, HS. by apply Hacyc.
  - intros t nd Hd. destruct (Htask t nd Hd) as (n & Hn & Hs).
    destruct (Forall2_lookup_l _ _ _ _ _ Hview Hn) as (n' & Hn' & (_&_&_&HS&_) & _).
    exists n'. split; [done|congruence].
  - intros p x Hd. destruct (Hspan p x Hd) as (n & np & Hn & Hs & Hp & Hlive).
    destruct (Forall2_lookup_l _ _ _ _ _ Hview Hn) as (n' & Hn' & (_&_&_&HS&_) & _ & He).
    destruct (Forall2_lookup_l _ _ _ _ _ Hview Hp) as (np' & Hp' & _ & Ha & _).
    exists n', np'. repeat split; [done|congruence|done|].
    intros Hz. rewrite Ha. apply Hlive. rewrite <-He; [done|congruence].
Qed.

Lemma adopt_view parent h :
  Forall2 sameSpanView h (adopt parent h).
Proof.
  unfold adopt. destruct parent as [p|]; [|apply view_refl, _].
  destruct (h !! p) as [n|] eqn:Hn; [|apply view_refl, _].
  eapply view_insert; [apply _|done|]. by destruct n.
Qed.

(** A new task node, together with its closure, keeps the invariant. *)
Lemma spanInv_new_task h ds i name parent now nd :
  spanInv h ds → (∀ p, parent = Some p → p < length h) →
  spanInv (h ++ [taskNode i name parent now])
    (ds ++ [WithTask_endTaskFunc (length h) nd]).
Proof.
  intros [Hacyc Htask Hspan] Hparent. split.
  - intros p n Hp. apply lookup_snoc_Some in Hp as [[Hlt Hp]|[-> <-]].
    + by apply Hacyc.
    + simpl. split; [apply Hparent|done].
  - intros t nd' Hd. apply elem_of_app in Hd as [Hd|Hd].
    + destruct (Htask t nd' Hd) as (n & Hn & Hs). exists n.
      split; [by apply lookup_app_l_Some|done].
    + apply list_elem_of_singleton in Hd. simplify_eq.
      eexists. split; [apply list_lookup_middle; done|done].
  - intros p x Hd. apply elem_of_app in Hd as [Hd|Hd].
    + destruct (Hspan p x Hd) as (n & np & Hn & Hs & Hp & Hlive).
      exists n, np. repeat split; try done; by apply lookup_app_l_Some.
    + apply list_elem_of_singleton in Hd. simplify_eq.
Qed.

(** A new span node that nothing points to keeps the invariant. *)
Lemma spanInv_new_span h ds i label parent n now :
  spanInv h ds → h !! parent = Some n →
  spanInv (h ++ [spanNode i label parent n now]) ds.
Proof.
  intros [Hacyc Htask Hspan] Hparent.
  pose proof (lookup_lt_Some _ _ _ Hparent) as Hlt. split.
  - intros p m Hp. apply lookup_snoc_Some in Hp as [[_ Hp]|[-> <-]].
    + by apply Hacyc.
    + simpl. split; [|intros q [= <-]; done].
      unfold task. intros q. destruct (parentSpan n); intros Hq; simplify_eq; [|done].
      apply Hacyc in Hparent as [Hparent _]. specialize (Hparent q Hq). lia.
  - intros t nd' Hd. destruct (Htask t nd' Hd) as (m & Hm & Hs). exists m.
    split; [by apply lookup_app_l_Some|done].
  - intros p x Hd. destruct (Hspan p x Hd) as (m & mp & Hm & Hs & Hp & Hlive).
    exists m, mp. repeat split; try done; by apply lookup_app_l_Some.
Qed.

Lemma setter_identity n a : sameIdentity n (set_activeChildSpan a n).
Proof. by destruct n. Qed.

Lemma acyclic_view h h' :
  acyclic h → Forall2 sameIdentity h h' → acyclic h'.
Proof.
  intros Hacyc Hview p n' Hp.
  destruct (Forall2_lookup_r _ _ _ _ _ Hview Hp) as (n & Hn & (_&_&HT&HS&_)).
  rewrite HT, HS. by apply Hacyc.
Qed.

(** Making [this] the active child span of [parent], and handing out the
    closure of [this]. *)
Lemma spanInv_link h ds parent this n sn :
  spanInv h ds →
  h !! parent = Some n → activeChildSpan n = None →
  h !! this = Some sn → parentSpan sn = Some parent →
  spanInv (<[parent := set_activeChildSpan (Some this) n]> h)
    (ds ++ [WithSpan_endTaskFunc parent this]).
Proof.
  intros [Hacyc Htask Hspan] Hparent Hnone Hthis Hsn.
  pose proof (lookup_lt_Some _ _ _ Hparent) as Hlt.
  assert (parent < this) as Hne.
  { apply Hacyc in Hthis as [_ Hthis]. by apply Hthis. }
  split.
  - eapply acyclic_view; [done|].
    eapply view_insert; [apply _|done|apply setter_identity].
  - intros t nd Hd. apply elem_of_app in Hd as [Hd|Hd].
    2:{ apply list_elem_of_singleton in Hd. simplify_eq. }
    destruct (Htask t nd Hd) as (m & Hm & Hs).
    destruct (decide (t = parent)) as [->|Ht].
    + rewrite list_lookup_insert_eq by done. eexists. split; [done|].
      simplify_eq. done.
    + rewrite list_lookup_insert_ne by lia. eauto.
  - intros p x Hd. apply elem_of_app in Hd as [Hd|Hd].
    + destruct (Hspan p x Hd) as (m & mp & Hm & Hs & Hp & Hlive).
      assert (∃ m', <[parent:=set_activeChildSpan (Some this) n]> h !! x = Some m'
                ∧ parentSpan m' = Some p ∧ endedAt m' = endedAt m) as (m' & Hm' & Hs' & He').
      { destruct (decide (x = parent)) as [->|Hx].
        - rewrite list_lookup_insert_eq by done. eexists. split; [done|].
          simplify_eq. done.
        - rewrite list_lookup_insert_ne by lia. eauto. }
      destruct (decide (p = parent)) as [->|Hpp].
      * eexists m', _. rewrite list_lookup_insert_eq by done.
        repeat split; [done..|]. intros Hz. rewrite He' in Hz.
        specialize (Hlive Hz). simplify_eq.
      * exists m', mp. rewrite (list_lookup_insert_ne _ parent p) by lia.
        repeat split; [done..|]. intros Hz. rewrite He' in Hz. by apply Hlive.
    + apply list_elem_of_singleton in Hd. simplify_eq.
      exists sn. eexists. rewrite list_lookup_insert_ne by lia.
      rewrite list_lookup_insert_eq by done. done.
Qed.

(** Ending the span [this] below [parent]. *)
Lemma spanInv_unlink h ds parent this np n now :
  spanInv h ds →
  h !! parent = Some np → h !! this = Some n → parentSpan n = Some parent →
  activeChildSpan np = Some this → now ≠ 0%N →
  spanInv (<[this := set_endedAt now n]> (<[parent := set_activeChildSpan None np]> h)) ds.
Proof.
  intros [Hacyc Htask Hspan] Hparent Hthis Hsn Hactive Hnow.
  pose proof (lookup_lt_Some _ _ _ Hparent) as Hlt.
  pose proof (lookup_lt_Some _ _ _ Hthis) as Hlt'.
  assert (parent < this) as Hne.
  { apply Hacyc in Hthis as [_ Hthis]. by apply Hthis. }
  set (h' := <[this := set_endedAt now n]> (<[parent := set_activeChildSpan None np]> h)).
  assert (∀ q m, h !! q = Some m →
            ∃ m', h' !! q = Some m' ∧ sameIdentity m m'
                  ∧ (q ≠ this → endedAt m' = endedAt m)
                  ∧ (q = this → endedAt m' = now)
                  ∧ (q ≠ parent → activeChildSpan m' = activeChildSpan m)
                  ∧ (q = parent → activeChildSpan m' = None)) as Hlook.
  { intros q m Hq. unfold h'.
    destruct (decide (q = this)) as [->|Hq1].
    - rewrite list_lookup_insert_eq by (by rewrite length_insert).
      eexists. split; [done|]. simplify_eq. destruct n. repeat split; try done; lia.
    - rewrite list_lookup_insert_ne by lia.
      destruct (decide (q = parent)) as [->|Hq2].
      + rewrite list_lookup_insert_eq by done.
        eexists. split; [done|]. simplify_eq. destruct np. repeat split; done.
      + rewrite list_lookup_insert_ne by lia. exists m. repeat split; done. }
  split.
  - intros q m' Hq.
    assert (q < length h) as Hqlt.
    { apply lookup_lt_Some in Hq. unfold h' in Hq. by rewrite !length_insert in Hq. }
    destruct (lookup_lt_is_Some_2 _ _ Hqlt) as [m Hm].
    destruct (Hlook q m Hm) as (m'' & Hm'' & (_&_&HT&HS&_) & _).
    assert (m'' = m') as -> by congruence. rewrite HT, HS. by apply Hacyc.
  - intros t nd Hd. destruct (Htask t nd Hd) as (m & Hm & Hs).
    destruct (Hlook t m Hm) as (m' & Hm' & (_&_&_&HS&_) & _).
    exists m'. split; [done|congruence].
  - intros p x Hd. destruct (Hspan p x Hd) as (m & mp & Hm & Hs & Hp & Hlive).
    destruct (Hlook x m Hm) as (m' & Hm' & (_&_&_&HS&_) & He & He' & _).
    destruct (Hlook p mp Hp) as (mp' & Hp' & _ & _ & _ & Ha & Ha').
    exists m', mp'. repeat split; [done|congruence|done|].
    intros Hz. destruct (decide (x = this)) as [->|Hx].
    { rewrite He' in Hz by done. done. }
    rewrite He in Hz by done. specialize (Hlive Hz).
    destruct (decide (p = parent)) as [->|Hpp].
    { simplify_eq. }
    rewrite Ha by done. done.
Qed.

Lemma issued_valid h ds d :
  spanInv h ds → d ∈ ds → ∃ n, h !! thisOf d = Some n.
Proof.
  intros [_ Htask Hspan] Hd. destruct d as [t nd|p x]; simpl.
  - destruct (Htask t nd Hd) as (n & Hn & _). eauto.
  - destruct (Hspan p x Hd) as (n & _ & Hn & _). eauto.
Qed.

Lemma holdsContext_valid w node :
  spanInv (heap (st w)) (issued w) → holdsContext w (Some node) →
  ∃ n, heap (st w) !! node = Some n.
Proof.
  intros Hinv Hctx. simpl in Hctx.
  apply list_elem_of_fmap in Hctx as (d & -> & Hd). by eapply issued_valid.
Qed.

Lemma task_view_ended n now :
  parentSpan n = None → sameSpanView n (set_endedAt now n).
Proof. intros Hs. destruct n. repeat split; simpl in *; congruence. Qed.

Lemma task_view_counted n c : sameSpanView n (set_activeChildTasks c n).
Proof. by destruct n. Qed.

(** The invariant of the spans holds after every call, however the call ends. *)
Lemma spanInv_exec c w o w' :
  spanInv (heap (st w)) (issued w) → exec c w = Some (o, w') →
  spanInv (heap (st w')) (issued w').
Proof.
  intros Hinv. destruct c as [ctx name|ctx label|d]; simpl; case_decide as Hc;
    intros [= Heq].
  - destruct (WithTask_Ok ctx name (st w)) as (parent & Hnear & HOk).
    { apply Hinv. }
    { intros node ->. by apply holdsContext_valid. }
    rewrite HOk in Heq. simplify_eq/=.
    eapply spanInv_view; [|apply adopt_view].
    apply spanInv_new_task; [done|]. intros p Hp.
    destruct (nearestLive_lt _ _ _ Hnear p Hp) as (n & Hn & _).
    by eapply lookup_lt_Some.
  - destruct ctx as [parent|]; [|by simplify_eq/=].
    destruct (holdsContext_valid w parent) as [n Hn]; [done..|].
    rewrite (WithSpan_eq _ _ _ _ Hn) in Heq.
    pose proof (spanInv_new_span _ _ (pretty (idgen (st w))) label parent n
                  (Npos (clock (st w))) Hinv Hn) as Hinv'.
    destruct (activeChildSpan n) eqn:Ha; cbn [begun] in Heq;
      injection Heq as <- <-; cbn [heap st issued]; [done|].
    eapply spanInv_link
      with (sn := spanNode (pretty (idgen (st w))) label parent n (Npos (clock (st w))));
      [done| |done| |reflexivity].
    + by apply lookup_app_l_Some.
    + by apply list_lookup_middle.
  - destruct d as [t nd|p x]; simpl in Heq.
    + destruct (inv_task _ _ Hinv t nd Hc) as (n & Hn & Hs).
      rewrite (call_WithTask_endTaskFunc_eq _ _ _ _ Hn) in Heq.
      case_bool_decide; [by simplify_eq/=|].
      destruct (IsZero (endedAt n)); [|by simplify_eq/=].
      pose proof (task_view_ended n (Npos (clock (st w))) Hs) as Hview.
      assert (Forall2 sameSpanView (heap (st w))
                (<[t:=set_endedAt (N.pos (clock (st w))) n]> (heap (st w))))
        as Hview1.
      { eapply view_insert; [apply _|done..]. }
      simpl in Heq. destruct (parentTask n) as [q|].
      2:{ simplify_eq/=. by eapply spanInv_view. }
      destruct (_ !! q) as [m|] eqn:Hm.
      2:{ simplify_eq/=. by eapply spanInv_view. }
      assert (Forall2 sameSpanView (heap (st w))
                (<[q:=set_activeChildTasks (wrap32 (activeChildTasks m - 1)) m]>
                   (<[t:=set_endedAt (N.pos (clock (st w))) n]> (heap (st w)))))
        as Hview2.
      { eapply view_insert_insert; [apply _|apply _|done..|apply task_view_counted]. }
      case_bool_decide; simplify_eq/=; by eapply spanInv_view.
    + destruct (inv_span _ _ Hinv p x Hc) as (n & np & Hn & Hs & Hp & Hlive).
      assert (p < x) as Hlt.
      { apply Hinv in Hn as [_ Hn]. by apply Hn. }
      rewrite (call_WithSpan_endTaskFunc_eq _ _ _ _ _ Hp Hn) in Heq by lia.
      destruct (IsZero (endedAt n)) eqn:Hz.
      * case_bool_decide as Ha; [by simplify_eq/=|].
        destruct (activeChildSpan n); simplify_eq/=; [done|].
        by eapply spanInv_unlink.
      * rewrite andb_false_r in Heq. by destruct (activeChildSpan n); simplify_eq/=.
Qed.

Lemma spanInv_run cs w os w' :
  spanInv (heap (st w)) (issued w) → run cs w = Some (os, w') →
  spanInv (heap (st w')) (issued w').
Proof.
  revert w os. induction cs as [|c cs IH]; intros w os Hinv; simpl.
  - by intros [=]; subst.
  - destruct (exec c w) as [[o w1]|] eqn:Hexec; [|done].
    destruct (run cs w1) as [[os1 w2]|] eqn:Hrun; [|done].
    intros [=]; subst. eapply IH; [|done]. by eapply spanInv_exec.
Qed.

Lemma spanInv_start : spanInv (heap (st start)) (issued start).
Proof.
  split; simpl.
  - by intros p n.
  - intros t nd Hd. by apply elem_of_nil in Hd.
  - intros p x Hd. by apply elem_of_nil in Hd.
Qed.

Lemma reachable_spanInv w : reachable w → spanInv (heap (st w)) (issued w).
Proof. intros (cs & os & Hrun). eapply spanInv_run; [apply spanInv_start|done]. Qed.

(** ** The counters *)

Lemma liveChildOf_view p n n' :
  sameTaskView n n' → liveChildOf p n ↔ liveChildOf p n'.
Proof.
  intros (HS & HT & _ & HE). unfold liveChildOf. rewrite HS, HT.
  split; intros (Hs & He & Ht); repeat split; try done.
  - by rewrite HE.
  - by rewrite <-HE.
Qed.

Lemma liveChildTasks_view h h' p :
  Forall2 sameTaskView h h' → liveChildTasks h' p = liveChildTasks h p.
Proof.
  unfold liveChildTasks. induction 1 as [|n n' h h' Hn _ IH]; [done|].
  rewrite !filter_cons. apply (liveChildOf_view p) in Hn.
  repeat case_decide; simpl; try tauto; by rewrite IH.
Qed.

Lemma liveChildTasks_snoc h n p :
  liveChildTasks (h ++ [n]) p = liveChildTasks h p + one (liveChildOf p) n.
Proof. apply count_snoc. Qed.

Lemma liveChildTasks_insert h i x y p :
  h !! i = Some x →
  liveChildTasks (<[i:=y]> h) p + one (liveChildOf p) x
  = liveChildTasks h p + one (liveChildOf p) y.
Proof. apply count_insert. Qed.

Lemma taskInv_view h h' :
  taskInv h → Forall2 sameTaskView h h' → taskInv h'.
Proof.
  intros [Hbound Hcount Hended] Hview. split.
  - by rewrite <-(Forall2_length _ _ _ Hview).
  - intros p n' Hp.
    destruct (Forall2_lookup_r _ _ _ _ _ Hview Hp) as (n & Hn & _ & _ & HC & _).
    rewrite HC, (liveChildTasks_view _ _ _ Hview). by apply Hcount.
  - intros p n' Hp Hs He.
    destruct (Forall2_lookup_r _ _ _ _ _ Hview Hp) as (n & Hn & HS & _ & HC & HE).
    rewrite HC. apply (Hended p n Hn); [congruence|].
    rewrite <-HE; [done|congruence].
Qed.

Lemma span_view_linked n a : sameTaskView n (set_activeChildSpan a n).
Proof. by destruct n. Qed.

Lemma span_view_ended n now : parentSpan n ≠ None → sameTaskView n (set_endedAt now n).
Proof. intros Hs. destruct n. repeat split; simpl in *; congruence. Qed.

(** A new span node does not count. *)
Lemma taskInv_new_span h sn :
  acyclic h → taskInv h → parentSpan sn ≠ None → activeChildTasks sn = 0%Z →
  (Z.of_nat (S (length h)) < 2 ^ 31)%Z →
  taskInv (h ++ [sn]).
Proof.
  intros Hacyc [Hbound Hcount Hended] Hs Hc Hb.
  assert (∀ p, liveChildTasks (h ++ [sn]) p = liveChildTasks h p) as Hlive.
  { intros p. rewrite liveChildTasks_snoc. unfold one, liveChildOf.
    case_decide; [tauto|lia]. }
  split.
  - rewrite length_app. simpl. lia.
  - intros p n Hp. rewrite Hlive. apply lookup_snoc_Some in Hp as [[_ Hp]|[-> <-]].
    + by apply Hcount.
    + rewrite liveChildTasks_fresh by done. lia.
  - intros p n Hp. apply lookup_snoc_Some in Hp as [[_ Hp]|[-> <-]]; [|done].
    by apply (Hended p).
Qed.

(** A new task counts for the parent that adopts it. *)
Lemma taskInv_new_task h i name parent now :
  acyclic h → taskInv h →
  (∀ p, parent = Some p → ∃ n, h !! p = Some n ∧ endedAt n = 0%N) →
  (Z.of_nat (S (length h)) < 2 ^ 31)%Z →
  taskInv (adopt parent (h ++ [taskNode i name parent now])).
Proof.
  intros Hacyc [Hbound Hcount Hended] Hparent Hb.
  set (tn := taskNode i name parent now). set (h1 := h ++ [tn]).
  assert (∀ p, liveChildTasks h1 p
               = liveChildTasks h p + (if decide (parent = Some p) then 1 else 0))
    as Hlive1.
  { intros p. unfold h1. rewrite liveChildTasks_snoc. f_equal.
    unfold one, liveChildOf. simpl. repeat case_decide; try done; tauto. }
  destruct parent as [q|]; simpl.
  - destruct (Hparent q) as (nq & Hq & Hz); [done|].
    pose proof (lookup_lt_Some _ _ _ Hq) as Hqlt.
    assert (h1 !! q = Some nq) as Hq1 by (by apply lookup_app_l_Some).
    rewrite Hq1.
    set (nq' := set_activeChildTasks (wrap32 (activeChildTasks nq + 1)) nq).
    assert (∀ p, liveChildTasks (<[q:=nq']> h1) p = liveChildTasks h1 p) as Hlive2.
    { intros p. pose proof (liveChildTasks_insert h1 q nq nq' p Hq1) as Hi.
      assert (one (liveChildOf p) nq = one (liveChildOf p) nq') as Ho.
      { unfold one, nq'. destruct nq. unfold liveChildOf. simpl.
        repeat case_decide; try done; tauto. }
      lia. }
    pose proof (liveChildTasks_le h q) as Hle.
    split.
    + rewrite length_insert. unfold h1. rewrite length_app. simpl. lia.
    + intros p n Hp. rewrite Hlive2, Hlive1.
      apply list_lookup_insert_Some in Hp as [(<- & <- & _)|[Hne Hp]].
      * unfold nq'. cbn [activeChildTasks set_activeChildTasks].
        rewrite (Hcount q _ Hq), decide_True by done. rewrite wrap32_small; lia.
      * apply lookup_snoc_Some in Hp as [[_ Hp]|[-> <-]].
        -- rewrite decide_False by congruence. rewrite (Hcount p n Hp). lia.
        -- rewrite decide_False by (intros [=]; lia).
           rewrite liveChildTasks_fresh by done. simpl. lia.
    + intros p n Hp Hs He.
      apply list_lookup_insert_Some in Hp as [(<- & <- & _)|[Hne Hp]].
      * unfold nq' in He. cbn [endedAt set_activeChildTasks] in He. done.
      * apply lookup_snoc_Some in Hp as [[_ Hp]|[-> <-]]; [|done].
        by eapply Hended.
  - split.
    + unfold h1. rewrite length_app. simpl. lia.
    + intros p n Hp. rewrite Hlive1. rewrite decide_False by done.
      apply lookup_snoc_Some in Hp as [[_ Hp]|[-> <-]].
      * rewrite (Hcount p n Hp). lia.
      * rewrite liveChildTasks_fresh by done. simpl. lia.
    + intros p n Hp Hs He.
      apply lookup_snoc_Some in Hp as [[_ Hp]|[-> <-]]; [|done].
      by eapply Hended.
Qed.

(** Ending a task that has no live children: the parent, if there is one, has
    a positive counter, which goes down by one without wrapping. *)
Lemma taskInv_end_task h t n now :
  acyclic h → taskInv h →
  h !! t = Some n → parentSpan n = None → endedAt n = 0%N →
  activeChildTasks n = 0%Z → now ≠ 0%N →
  let h1 := <[t := set_endedAt now n]> h in
  match parentTask n with
  | None => taskInv h1
  | Some q =>
      ∃ m, h !! q = Some m ∧ h1 !! q = Some m ∧ q ≠ t
           ∧ (0 < activeChildTasks m)%Z
           ∧ wrap32 (activeChildTasks m - 1) = (activeChildTasks m - 1)%Z
           ∧ taskInv (<[q := set_activeChildTasks (wrap32 (activeChildTasks m - 1)) m]> h1)
  end.
Proof.
  intros Hacyc [Hbound Hcount Hended] Ht Hs Hz Hc Hnow h1.
  pose proof (lookup_lt_Some _ _ _ Ht) as Htlt.
  set (ne := set_endedAt now n) in *.
  assert (∀ p, liveChildTasks h1 p + (if decide (parentTask n = Some p) then 1 else 0)
               = liveChildTasks h p) as Hlive1.
  { intros p. pose proof (liveChildTasks_insert h t n ne p Ht) as Hi. fold h1 in Hi.
    assert (one (liveChildOf p) ne = 0) as Hne.
    { unfold one, liveChildOf, ne. rewrite decide_False; [done|].
      destruct n; simpl. tauto. }
    assert (one (liveChildOf p) n = if decide (parentTask n = Some p) then 1 else 0)
      as Hn.
    { unfold one, liveChildOf. repeat case_decide; try done; tauto. }
    lia. }
  assert (activeChildTasks ne = activeChildTasks n) as Hcne by (by destruct n).
  destruct (parentTask n) as [q|] eqn:Hq.
  - assert (q < t) as Hqt.
    { apply Hacyc in Ht as [Ht _]. by apply Ht. }
    destruct (lookup_lt_is_Some_2 h q) as [m Hm]; [lia|].
    assert (h1 !! q = Some m) as Hm1.
    { unfold h1. rewrite list_lookup_insert_ne by lia. done. }
    pose proof (Hlive1 q) as Hlq. rewrite decide_True in Hlq by done.
    pose proof (Hcount q m Hm) as Hcm.
    pose proof (liveChildTasks_le h q) as Hle.
    assert (wrap32 (activeChildTasks m - 1) = (activeChildTasks m - 1)%Z) as Hw.
    { apply wrap32_small. lia. }
    exists m. repeat split; [done|done|lia|lia|done|..].
    all: set (m' := set_activeChildTasks (wrap32 (activeChildTasks m - 1)) m).
    all: assert (∀ p, liveChildTasks (<[q:=m']> h1) p = liveChildTasks h1 p) as Hlive2
      by (intros p; pose proof (liveChildTasks_insert h1 q m m' p Hm1) as Hi;
          assert (one (liveChildOf p) m = one (liveChildOf p) m') as Ho
            by (unfold one, m'; destruct m; unfold liveChildOf; simpl;
                repeat case_decide; try done; tauto);
          lia).
    + unfold h1. rewrite !length_insert. done.
    + intros p x Hp. rewrite Hlive2.
      apply list_lookup_insert_Some in Hp as [(<- & <- & _)|[Hne Hp]].
      * unfold m'. cbn [activeChildTasks set_activeChildTasks]. lia.
      * pose proof (Hlive1 p) as Hlp. rewrite decide_False in Hlp by congruence.
        apply list_lookup_insert_Some in Hp as [(<- & <- & _)|[Hne' Hp]].
        -- rewrite Hcne, (Hcount t n Ht). lia.
        -- rewrite (Hcount p x Hp). lia.
    + intros p x Hp Hsx Hex.
      apply list_lookup_insert_Some in Hp as [(<- & <- & _)|[Hne Hp]].
      * exfalso. assert (activeChildTasks m = 0%Z); [|lia].
        apply (Hended q m Hm); by destruct m.
      * apply list_lookup_insert_Some in Hp as [(<- & <- & _)|[Hne' Hp]].
        -- by rewrite Hcne.
        -- by apply (Hended p).
  - assert (∀ p, liveChildTasks h1 p = liveChildTasks h p) as Hlive.
    { intros p. specialize (Hlive1 p). rewrite decide_False in Hlive1 by done. lia. }
    split.
    + unfold h1. by rewrite length_insert.
    + intros p x Hp. rewrite Hlive.
      apply list_lookup_insert_Some in Hp as [(<- & <- & _)|[Hne Hp]].
      * rewrite Hcne. by apply Hcount.
      * by apply Hcount.
    + intros p x Hp Hsx Hex.
      apply list_lookup_insert_Some in Hp as [(<- & <- & _)|[Hne Hp]].
      * by rewrite Hcne.
      * by apply (Hended p).
Qed.

(** The invariant of the counters holds after every call, as long as the store
    stays below [2^31] nodes. *)
Lemma taskInv_exec c w o w' :
  spanInv (heap (st w)) (issued w) → taskInv (heap (st w)) →
  exec c w = Some (o, w') →
  (Z.of_nat (length (heap (st w'))) < 2 ^ 31)%Z →
  taskInv (heap (st w')).
Proof.
  intros Hinv Htask. destruct c as [ctx name|ctx label|d]; simpl; case_decide as Hc;
    intros [= Heq] Hb.
  - destruct (WithTask_Ok ctx name (st w)) as (parent & Hnear & HOk).
    { apply Hinv. }
    { intros node ->. by apply holdsContext_valid. }
    rewrite HOk in Heq. cbn [begun] in Heq. injection Heq as <- <-.
    cbn [heap st] in *.
    apply taskInv_new_task; [apply Hinv|done| |].
    + intros p Hp. by eapply nearestLive_lt.
    + apply grows_length in Hb || idtac.
      revert Hb. unfold adopt. destruct parent as [q|]; [destruct (_ !! q)|];
        rewrite ?length_insert, length_app; simpl; lia.
  - destruct ctx as [parent|]; [|by simplify_eq/=].
    destruct (holdsContext_valid w parent) as [n Hn]; [done..|].
    rewrite (WithSpan_eq _ _ _ _ Hn) in Heq.
    assert ((Z.of_nat (S (length (heap (st w)))) < 2 ^ 31)%Z) as Hb'.
    { revert Hb. destruct (activeChildSpan n); cbn [begun] in Heq;
        injection Heq as <- <-; cbn [heap st];
        rewrite ?length_insert, length_app; simpl; lia. }
    pose proof (taskInv_new_span _
                  (spanNode (pretty (idgen (st w))) label parent n (Npos (clock (st w))))
                  (inv_acyclic _ _ Hinv) Htask) as Hnew.
    specialize (Hnew ltac:(done) eq_refl Hb').
    destruct (activeChildSpan n) eqn:Ha; cbn [begun] in Heq;
      injection Heq as <- <-; cbn [heap st]; [done|].
    eapply taskInv_view; [done|].
    eapply view_insert; [apply _|by apply lookup_app_l_Some|apply span_view_linked].
  - destruct d as [t nd|p x]; simpl in Heq.
    + destruct (inv_task _ _ Hinv t nd Hc) as (n & Hn & Hs).
      rewrite (call_WithTask_endTaskFunc_eq _ _ _ _ Hn) in Heq.
      case_bool_decide as Hcount; [by simplify_eq/=|].
      destruct (IsZero (endedAt n)) eqn:Hz; [|by simplify_eq/=].
      apply IsZero_true in Hz.
      pose proof (taskInv_end_task _ t n (Npos (clock (st w)))
                    (inv_acyclic _ _ Hinv) Htask Hn Hs Hz Hcount ltac:(done)) as Hend.
      cbn zeta in Hend. simpl in Heq.
      destruct (parentTask n) as [q|]; [|by simplify_eq/=].
      destruct Hend as (m & Hm & Hm1 & Hqt & Hpos & Hw & Hend).
      rewrite Hm1 in Heq. rewrite bool_decide_false in Heq by lia.
      by simplify_eq/=.
    + destruct (inv_span _ _ Hinv p x Hc) as (n & np & Hn & Hs & Hp & Hlive).
      assert (p < x) as Hlt.
      { apply Hinv in Hn as [_ Hn]. by apply Hn. }
      rewrite (call_WithSpan_endTaskFunc_eq _ _ _ _ _ Hp Hn) in Heq by lia.
      destruct (_ && _); [by simplify_eq/=|].
      destruct (activeChildSpan n); [by simplify_eq/=|].
      destruct (IsZero (endedAt n)); [|by simplify_eq/=].
      simplify_eq/=. eapply taskInv_view; [done|].
      eapply view_insert_insert; [apply _|apply _|done|apply span_view_linked| |].
      * rewrite list_lookup_insert_ne by lia. done.
      * apply span_view_ended. congruence.
Qed.

Lemma taskInv_run cs w os w' :
  spanInv (heap (st w)) (issued w) → taskInv (heap (st w)) →
  run cs w = Some (os, w') →
  (Z.of_nat (length (heap (st w'))) < 2 ^ 31)%Z →
  taskInv (heap (st w')).
Proof.
  revert w os. induction cs as [|c cs IH]; intros w os Hinv Htask; simpl.
  - by intros [=]; subst.
  - destruct (exec c w) as [[o w1]|] eqn:Hexec; [|done].
    destruct (run cs w1) as [[os1 w2]|] eqn:Hrun; [|done].
    intros [=] Hb; subst. eapply IH; [by eapply spanInv_exec| |done..].
    eapply taskInv_exec; [done..|].
    apply grows_run, grows_length in Hrun. lia.
Qed.

Lemma taskInv_start : taskInv (heap (st start)).
Proof. split; simpl; [done|by intros p n|by intros p n]. Qed.

Lemma reachable_taskInv w :
  reachable w → (Z.of_nat (length (heap (st w))) < 2 ^ 31)%Z → taskInv (heap (st w)).
Proof.
  intros (cs & os & Hrun) Hb.
  eapply taskInv_run; [apply spanInv_start|apply taskInv_start|done..].
Qed.

(** ** Ending spans *)

Lemma task_with_span_reachable : reachable task_with_span.
Proof.
  exists [CallWithTask None "t"; CallWithSpan (Some 0) "x"], [Returned; Returned].
  vm_compute. reflexivity.
Qed.

Lemma task_with_two_spans_reachable : reachable task_with_two_spans.
Proof.
  exists [CallWithTask None "t"; CallWithSpan (Some 0) "x"; CallWithSpan (Some 1) "y"],
    [Returned; Returned; Returned].
  vm_compute. reflexivity.
Qed.

(** C10.  In every state the package can be in, whatever calls led there, a
    span whose closure the client holds and that has not ended is the active
    child span of the captured parent; so calling the closure never reaches
    the panic "impl error: activeChildSpan should not change ...". *)
Theorem span_end_impl_error_unreachable (w : world) (p x : ptr) :
  reachable w → WithSpan_endTaskFunc p x ∈ issued w →
  ∃ n np,
    heap (st w) !! x = Some n ∧ heap (st w) !! p = Some np
    ∧ (endedAt n = 0%N → activeChildSpan np = Some x)
    ∧ ∀ s', callDone (WithSpan_endTaskFunc p x) (st w)
            ≠ Panic ImplErrorActiveChildSpanChanged s'.
Proof.
  intros Hreach Hd. pose proof (reachable_spanInv w Hreach) as Hinv.
  destruct (inv_span _ _ Hinv p x Hd) as (n & np & Hn & Hs & Hp & Hlive).
  exists n, np. repeat split; [done..|]. intros s'. simpl.
  assert (p < x) as Hlt.
  { apply Hinv in Hn as [_ Hn]. by apply Hn. }
  rewrite (call_WithSpan_endTaskFunc_eq _ _ _ _ _ Hp Hn) by lia.
  destruct (IsZero (endedAt n)) eqn:Hz.
  - apply IsZero_true in Hz. rewrite bool_decide_false by (by intros []; apply Hlive).
    simpl. by destruct (activeChildSpan n).
  - rewrite andb_false_r. by destruct (activeChildSpan n).
Qed.

Lemma span_end_impl_error_unreachable_witness :
  ∃ n np,
    heap (st task_with_span) !! 1 = Some n ∧ heap (st task_with_span) !! 0 = Some np
    ∧ (endedAt n = 0%N → activeChildSpan np = Some 1)
    ∧ ∀ s', callDone (WithSpan_endTaskFunc 0 1) (st task_with_span)
            ≠ Panic ImplErrorActiveChildSpanChanged s'.
Proof.
  apply (span_end_impl_error_unreachable task_with_span 0 1).
  - apply task_with_span_reachable.
  - vm_compute. repeat constructor.
Defined.

(** C7.  Calling the closure of a span whose own [activeChildSpan] is set
    panics with [ErrSpanStillHasActiveChildSpan] and leaves the state as it
    was, in every state the package can be in. *)
Theorem span_end_with_active_child (w : world) (p x c : ptr) (n : traceNode) :
  reachable w → WithSpan_endTaskFunc p x ∈ issued w →
  heap (st w) !! x = Some n → activeChildSpan n = Some c →
  callDone (WithSpan_endTaskFunc p x) (st w)
  = Panic ErrSpanStillHasActiveChildSpan (st w).
Proof.
  intros Hreach Hd Hx Hc. pose proof (reachable_spanInv w Hreach) as Hinv.
  destruct (inv_span _ _ Hinv p x Hd) as (n' & np & Hn & Hs & Hp & Hlive).
  assert (n' = n) as -> by congruence.
  assert (p < x) as Hlt.
  { apply Hinv in Hn as [_ Hn]. by apply Hn. }
  simpl. rewrite (call_WithSpan_endTaskFunc_eq _ _ _ _ _ Hp Hn) by lia.
  rewrite Hc. destruct (IsZero (endedAt n)) eqn:Hz.
  - apply IsZero_true in Hz. by rewrite bool_decide_false by (by intros []; apply Hlive).
  - by rewrite andb_false_r.
Qed.

Lemma span_end_with_active_child_witness :
  callDone (WithSpan_endTaskFunc 0 1) (st task_with_two_spans)
  = Panic ErrSpanStillHasActiveChildSpan (st task_with_two_spans).
Proof.
  apply (span_end_with_active_child task_with_two_spans 0 1 2
           (mkTraceNode "1" "x" (Some 0) 0 (Some 0) (Some 2) 2 0)).
  - apply task_with_two_spans_reachable.
  - vm_compute. repeat constructor.
  - reflexivity.
  - reflexivity.
Defined.

(** ** One active child span *)

(** C6.  [WithSpan] under a node whose [activeChildSpan] is set panics with
    [ErrAlreadyActiveChildSpan]; every node there was, the parent included,
    is as before, and so are the gauge and the emitted events.  When the
    program goes on and the active child ends, [activeChildSpan] of the parent
    is cleared and [WithSpan] under the same parent succeeds, making the new
    span the active child. *)
Theorem WithSpan_second_child :
  (∀ (s : state) (parent c : ptr) (np : traceNode) (label : string),
     heap s !! parent = Some np → activeChildSpan np = Some c →
     ∃ s1,
       WithSpan (Some parent) label s = Panic ErrAlreadyActiveChildSpan s1
       ∧ (∀ q m, heap s !! q = Some m → heap s1 !! q = Some m)
       ∧ activeTasks s1 = activeTasks s ∧ emitted s1 = emitted s)
  ∧ (∀ (s : state) (parent c : ptr) (np nc : traceNode) (label : string),
       heap s !! parent = Some np → activeChildSpan np = Some c →
       heap s !! c = Some nc → parent ≠ c →
       activeChildSpan nc = None → endedAt nc = 0%N →
       ∃ s1 s2 s3 this np2 np3 sn,
         WithSpan (Some parent) label s = Panic ErrAlreadyActiveChildSpan s1
         ∧ callDone (WithSpan_endTaskFunc parent c) s1 = Ok () s2
         ∧ heap s2 !! parent = Some np2 ∧ activeChildSpan np2 = None
         ∧ WithSpan (Some parent) label s2
           = Ok (Some this, WithSpan_endTaskFunc parent this) s3
         ∧ heap s2 !! this = None
         ∧ heap s3 !! this = Some sn ∧ parentSpan sn = Some parent
         ∧ heap s3 !! parent = Some np3 ∧ activeChildSpan np3 = Some this).
Proof.
  split.
  - intros s parent c np label Hp Ha. eexists.
    rewrite (WithSpan_eq _ _ _ _ Hp), Ha. cbn zeta.
    split; [reflexivity|]. simpl. split; [|done].
    intros q m Hq. by apply lookup_app_l_Some.
  - intros s parent c np nc label Hp Ha Hc Hne Hnone Hz.
    pose proof (lookup_lt_Some _ _ _ Hp) as Hplt.
    pose proof (WithSpan_eq parent label s np Hp) as E1.
    rewrite Ha in E1. cbn zeta in E1.
    match type of E1 with _ = Panic _ ?t => set (s1 := t) in * end.
    assert (heap s1 !! parent = Some np) as Hp1 by (by apply lookup_app_l_Some).
    assert (heap s1 !! c = Some nc) as Hc1 by (by apply lookup_app_l_Some).
    pose proof (call_WithSpan_endTaskFunc_eq parent c s1 np nc Hp1 Hc1 Hne) as E2.
    rewrite Hnone, Hz, bool_decide_false in E2 by (by intros []).
    cbn [andb negb IsZero N.eqb] in E2.
    match type of E2 with _ = Ok _ ?t => set (s2 := t) in * end.
    assert (heap s2 !! parent = Some (set_activeChildSpan None np)) as Hp2.
    { unfold s2. cbn [heap]. rewrite list_lookup_insert_ne by done.
      apply list_lookup_insert_eq. by eapply lookup_lt_Some. }
    pose proof (WithSpan_eq parent label s2 _ Hp2) as E3.
    cbn [activeChildSpan set_activeChildSpan] in E3. cbn zeta in E3.
    match type of E3 with _ = Ok _ ?t => set (s3 := t) in * end.
    assert (parent < length (heap s2)) as Hplt2 by (by eapply lookup_lt_Some).
    exists s1, s2, s3, (length (heap s2)), (set_activeChildSpan None np),
      (set_activeChildSpan (Some (length (heap s2))) (set_activeChildSpan None np)),
      (spanNode (pretty (idgen s2)) label parent (set_activeChildSpan None np)
         (N.pos (clock s2))).
    split; [exact E1|]. split; [exact E2|]. split; [exact Hp2|].
    split; [reflexivity|]. split; [exact E3|].
    split; [by apply lookup_ge_None_2|].
    split.
    { unfold s3. cbn [heap]. rewrite list_lookup_insert_ne by lia.
      by apply list_lookup_middle. }
    split; [reflexivity|].
    split; [|reflexivity].
    unfold s3. cbn [heap]. apply list_lookup_insert_eq. rewrite length_app. lia.
Qed.

Lemma WithSpan_second_child_witness :
  (∃ s1,
     WithSpan (Some 0) "y" (st task_with_span) = Panic ErrAlreadyActiveChildSpan s1
     ∧ (∀ q m, heap (st task_with_span) !! q = Some m → heap s1 !! q = Some m)
     ∧ activeTasks s1 = activeTasks (st task_with_span)
     ∧ emitted s1 = emitted (st task_with_span))
  ∧ ∃ s1 s2 s3 this np2 np3 sn,
      WithSpan (Some 0) "y" (st task_with_span) = Panic ErrAlreadyActiveChildSpan s1
      ∧ callDone (WithSpan_endTaskFunc 0 1) s1 = Ok () s2
      ∧ heap s2 !! 0 = Some np2 ∧ activeChildSpan np2 = None
      ∧ WithSpan (Some 0) "y" s2 = Ok (Some this, WithSpan_endTaskFunc 0 this) s3
      ∧ heap s2 !! this = None
      ∧ heap s3 !! this = Some sn ∧ parentSpan sn = Some 0
      ∧ heap s3 !! 0 = Some np3 ∧ activeChildSpan np3 = Some this.
Proof.
  split.
  - apply (proj1 WithSpan_second_child (st task_with_span) 0 1
             (mkTraceNode "0" "t#0" None 0 None (Some 1) 1 0) "y"); reflexivity.
  - apply (proj2 WithSpan_second_child (st task_with_span) 0 1
             (mkTraceNode "0" "t#0" None 0 None (Some 1) 1 0)
             (mkTraceNode "1" "x" (Some 0) 0 (Some 0) None 2 0) "y");
      [reflexivity|reflexivity|reflexivity|lia|reflexivity|reflexivity].
Defined.

(** ** Ending tasks *)

Lemma task_with_child_reachable : reachable task_with_child.
Proof.
  exists [CallWithTask None "a"; CallWithTask (Some 0) "b"], [Returned; Returned].
  vm_compute. reflexivity.
Qed.

(** C5.  Calling the closure of a task whose [activeChildTasks] is not zero
    panics with [ErrTaskStillHasActiveChildTasks] and leaves the state as it
    was.  In the states the package can be in, [activeChildTasks] is the number
    of child tasks that have not ended; once that number is zero the closure of
    a task that has not ended returns, [endedAt] of the task is set, and
    [activeChildTasks] of its parent is one less. *)
Theorem task_end_with_children :
  (∀ (s : state) (t : ptr) (nd : string * nat) (n : traceNode),
     heap s !! t = Some n → activeChildTasks n ≠ 0%Z →
     callDone (WithTask_endTaskFunc t nd) s
     = Panic (ErrTaskStillHasActiveChildTasks (activeChildTasks n)) s)
  ∧ (∀ (w : world) (t : ptr) (n : traceNode),
       reachable w → (Z.of_nat (length (heap (st w))) < 2 ^ 31)%Z →
       heap (st w) !! t = Some n →
       activeChildTasks n = Z.of_nat (liveChildTasks (heap (st w)) t))
  ∧ (∀ (w : world) (t : ptr) (nd : string * nat) (n : traceNode),
       reachable w → (Z.of_nat (length (heap (st w))) < 2 ^ 31)%Z →
       WithTask_endTaskFunc t nd ∈ issued w →
       heap (st w) !! t = Some n → endedAt n = 0%N →
       liveChildTasks (heap (st w)) t = 0 →
       ∃ s' n',
         callDone (WithTask_endTaskFunc t nd) (st w) = Ok () s'
         ∧ heap s' !! t = Some n' ∧ endedAt n' ≠ 0%N
         ∧ ∀ q m, parentTask n = Some q → heap (st w) !! q = Some m →
             ∃ m', heap s' !! q = Some m'
                   ∧ activeChildTasks m' = (activeChildTasks m - 1)%Z).
Proof.
  split; [|split].
  - intros s t nd n Hn Hc. simpl.
    rewrite (call_WithTask_endTaskFunc_eq _ _ _ _ Hn).
    by rewrite bool_decide_true.
  - intros w t n Hreach Hb Hn.
    by apply (inv_count _ (reachable_taskInv w Hreach Hb)).
  - intros w t nd n Hreach Hb Hd Hn Hz Hlive.
    pose proof (reachable_spanInv w Hreach) as Hinv.
    pose proof (reachable_taskInv w Hreach Hb) as Htask.
    destruct (inv_task _ _ Hinv t nd Hd) as (n0 & Hn0 & Hs).
    assert (n0 = n) as -> by congruence.
    assert (activeChildTasks n = 0%Z) as Hc.
    { rewrite (inv_count _ Htask t n Hn), Hlive. done. }
    pose proof (lookup_lt_Some _ _ _ Hn) as Htlt.
    pose proof (taskInv_end_task _ t n (Npos (clock (st w)))
                  (inv_acyclic _ _ Hinv) Htask Hn Hs Hz Hc ltac:(done)) as Hend.
    cbn zeta in Hend. simpl.
    rewrite (call_WithTask_endTaskFunc_eq _ _ _ _ Hn).
    rewrite bool_decide_false by (by intros []). rewrite Hz. cbn [IsZero N.eqb negb].
    cbn zeta. destruct (parentTask n) as [q|].
    + destruct Hend as (m & Hm & Hm1 & Hqt & Hpos & Hw & _).
      rewrite Hm1. rewrite bool_decide_false by lia.
      eexists _, _. split; [reflexivity|]. cbn [heap].
      split; [|split].
      * rewrite list_lookup_insert_ne by done.
        by apply list_lookup_insert_eq.
      * destruct n; simpl. done.
      * intros q' m' [= <-] Hm'. assert (m' = m) as -> by congruence.
        eexists. split.
        { apply list_lookup_insert_eq. rewrite length_insert.
          by eapply lookup_lt_Some. }
        cbn [activeChildTasks set_activeChildTasks]. done.
    + eexists _, _. split; [reflexivity|]. cbn [heap].
      split; [by apply list_lookup_insert_eq|]. split; [by destruct n|done].
Qed.

Lemma task_end_with_children_witness :
  callDone (WithTask_endTaskFunc 0 ("a", 0)) (st task_with_child)
  = Panic (ErrTaskStillHasActiveChildTasks 1) (st task_with_child)
  ∧ ∃ s' n',
      callDone (WithTask_endTaskFunc 1 ("b", 0)) (st task_with_child) = Ok () s'
      ∧ heap s' !! 1 = Some n' ∧ endedAt n' ≠ 0%N
      ∧ ∀ q m, Some 0 = Some q → heap (st task_with_child) !! q = Some m →
          ∃ m', heap s' !! q = Some m'
                ∧ activeChildTasks m' = (activeChildTasks m - 1)%Z.
Proof.
  split.
  - apply (proj1 task_end_with_children (st task_with_child) 0 ("a", 0)
             (mkTraceNode "0" "a#0" None 1 None None 1 0)).
    + reflexivity.
    + simpl. lia.
  - apply (proj2 (proj2 task_end_with_children) task_with_child 1 ("b", 0)
             (mkTraceNode "1" "b#0" (Some 0) 0 None None 2 0)).
    + apply task_with_child_reachable.
    + vm_compute. reflexivity.
    + vm_compute. repeat constructor.
    + reflexivity.
    + reflexivity.
    + reflexivity.
Defined.

(** ** Ending twice *)

Lemma wrap32_minus_one : wrap32 (0 - 1) = (-1)%Z.
Proof. reflexivity. Qed.

Lemma task_end_twice t nd s s' :
  call_WithTask_endTaskFunc t nd s = Ok () s' →
  call_WithTask_endTaskFunc t nd s' = Ok () s'.
Proof.
  intros Hfirst.
  destruct (heap s !! t) as [n|] eqn:Hn.
  2:{ unfold call_WithTask_endTaskFunc, alreadyEnded, bind, load in Hfirst.
      by rewrite Hn in Hfirst. }
  pose proof (lookup_lt_Some _ _ _ Hn) as Htlt.
  pose proof Hfirst as Heq. rewrite (call_WithTask_endTaskFunc_eq _ _ _ _ Hn) in Heq.
  case_bool_decide as Hc; [done|].
  destruct (IsZero (endedAt n)) eqn:Hz; cbn [negb] in Heq.
  2:{ by simplify_eq. }
  assert (∀ h' s2, heap s2 = h' →
            h' !! t = Some (set_endedAt (Npos (clock s)) n) →
            call_WithTask_endTaskFunc t nd s2 = Ok () s2) as Hagain.
  { intros h' s2 <- Ht. rewrite (call_WithTask_endTaskFunc_eq _ _ _ _ Ht).
    destruct n; simpl in *. rewrite bool_decide_false by (by intros []). done. }
  cbn zeta in Heq. destruct (parentTask n) as [q|].
  - destruct (_ !! q) as [m|] eqn:Hm; [|done].
    case_bool_decide as Hneg; [done|]. injection Heq as <-.
    eapply Hagain; [reflexivity|]. cbn [heap].
    destruct (decide (q = t)) as [->|Hqt].
    + exfalso. rewrite list_lookup_insert_eq in Hm by done.
      injection Hm as <-. apply Hneg.
      destruct n; simpl in *. subst.
      by rewrite wrap32_minus_one.
    + rewrite list_lookup_insert_ne by done. by apply list_lookup_insert_eq.
  - injection Heq as <-. eapply Hagain; [reflexivity|]. cbn [heap].
    by apply list_lookup_insert_eq.
Qed.

Lemma span_end_twice p x s s' :
  call_WithSpan_endTaskFunc p x s = Ok () s' →
  call_WithSpan_endTaskFunc p x s' = Ok () s'.
Proof.
  intros Hfirst.
  destruct (heap s !! p) as [np|] eqn:Hp.
  2:{ unfold call_WithSpan_endTaskFunc, bind, load in Hfirst.
      by rewrite Hp in Hfirst. }
  destruct (heap s !! x) as [n|] eqn:Hn.
  2:{ unfold call_WithSpan_endTaskFunc, bind, load in Hfirst.
      by rewrite Hp, Hn in Hfirst. }
  pose proof (lookup_lt_Some _ _ _ Hn) as Hxlt.
  pose proof (lookup_lt_Some _ _ _ Hp) as Hplt.
  destruct (IsZero (endedAt n)) eqn:Hz.
  - assert (p ≠ x) as Hne.
    { intros ->. assert (np = n) as -> by congruence.
      unfold call_WithSpan_endTaskFunc, bind, load in Hfirst.
      repeat rewrite Hn in Hfirst. rewrite Hz in Hfirst.
      destruct (activeChildSpan n) eqn:Ha.
      - by destruct (bool_decide _).
      - by rewrite bool_decide_true in Hfirst. }
    pose proof Hfirst as Heq.
    rewrite (call_WithSpan_endTaskFunc_eq _ _ _ _ _ Hp Hn Hne), Hz in Heq.
    destruct (bool_decide _ && true); [done|].
    destruct (activeChildSpan n) eqn:Ha; [done|]. cbn [negb] in Heq.
    injection Heq as <-.
    erewrite call_WithSpan_endTaskFunc_eq; [| | |exact Hne].
    2:{ cbn [heap]. rewrite list_lookup_insert_ne by done.
        by apply list_lookup_insert_eq. }
    2:{ cbn [heap]. apply list_lookup_insert_eq. by rewrite length_insert. }
    cbn [endedAt set_endedAt activeChildSpan IsZero N.eqb negb].
    by rewrite andb_false_r, Ha.
  - assert (s' = s) as ->; [|done].
    unfold call_WithSpan_endTaskFunc, bind, load in Hfirst.
    rewrite Hp, Hn, Hz, andb_false_r in Hfirst.
    destruct (activeChildSpan n); [done|]. simpl in Hfirst. by injection Hfirst.
Qed.

(** The closure of a span that already returned once is not a no-op at every
    later time: with a span started below the ended one it panics. *)
Lemma span_end_again_counterexample :
  fst <$> run end_start_end start
  = Some [Returned; Returned; Returned; Returned;
          Panicked ErrSpanStillHasActiveChildSpan].
Proof. vm_compute. reflexivity. Qed.

(** C3 (as the code has it).  Calling a closure again right after it returned
    changes nothing: the state is the state the first call left.  At any later
    time the closure of an ended task changes nothing and returns; the closure
    of an ended span changes nothing and returns as long as no span has been
    started below the ended one (its [activeChildSpan] is not set). *)
Theorem end_again_no_op :
  (∀ (d : DoneFunc) (s s' : state),
     callDone d s = Ok () s' → callDone d s' = Ok () s')
  ∧ (∀ (w : world) (t : ptr) (nd : string * nat) (n : traceNode),
       reachable w → (Z.of_nat (length (heap (st w))) < 2 ^ 31)%Z →
       WithTask_endTaskFunc t nd ∈ issued w →
       heap (st w) !! t = Some n → endedAt n ≠ 0%N →
       callDone (WithTask_endTaskFunc t nd) (st w) = Ok () (st w))
  ∧ (∀ (w : world) (p x : ptr) (n : traceNode),
       reachable w → WithSpan_endTaskFunc p x ∈ issued w →
       heap (st w) !! x = Some n → endedAt n ≠ 0%N →
       activeChildSpan n = None →
       callDone (WithSpan_endTaskFunc p x) (st w) = Ok () (st w)).
Proof.
  split; [|split].
  - intros [t nd|p x] s s'; simpl; [apply task_end_twice|apply span_end_twice].
  - intros w t nd n Hreach Hb Hd Hn He.
    pose proof (reachable_spanInv w Hreach) as Hinv.
    pose proof (reachable_taskInv w Hreach Hb) as Htask.
    destruct (inv_task _ _ Hinv t nd Hd) as (n0 & Hn0 & Hs).
    assert (n0 = n) as -> by congruence.
    simpl. rewrite (call_WithTask_endTaskFunc_eq _ _ _ _ Hn).
    rewrite (inv_ended _ Htask t n Hn Hs He).
    rewrite bool_decide_false by (by intros []).
    apply IsZero_false in He. by rewrite He.
  - intros w p x n Hreach Hd Hn He Ha.
    pose proof (reachable_spanInv w Hreach) as Hinv.
    destruct (inv_span _ _ Hinv p x Hd) as (n0 & np & Hn0 & Hs & Hp & _).
    assert (n0 = n) as -> by congruence.
    assert (p < x) as Hlt.
    { apply Hinv in Hn as [_ Hn]. by apply Hn. }
    simpl. rewrite (call_WithSpan_endTaskFunc_eq _ _ _ _ _ Hp Hn) by lia.
    apply IsZero_false in He. by rewrite He, andb_false_r, Ha.
Qed.

Lemma child_ended_reachable : reachable child_ended.
Proof.
  exists [CallWithTask None "a"; CallWithTask (Some 0) "b";
          CallDone (WithTask_endTaskFunc 1 ("b", 0))], [Returned; Returned; Returned].
  vm_compute. reflexivity.
Qed.

Lemma end_again_no_op_witness :
  callDone (WithSpan_endTaskFunc 0 1) span_ended = Ok () span_ended
  ∧ callDone (WithTask_endTaskFunc 1 ("b", 0)) (st child_ended) = Ok () (st child_ended).
Proof.
  split.
  - apply (proj1 end_again_no_op (WithSpan_endTaskFunc 0 1) (st task_with_span)
             span_ended).
    vm_compute. reflexivity.
  - apply (proj1 (proj2 end_again_no_op) child_ended 1 ("b", 0)
             (mkTraceNode "1" "b#0" (Some 0) 0 None None 2 3)).
    + apply child_ended_reachable.
    + vm_compute. reflexivity.
    + vm_compute. repeat constructor.
    + reflexivity.
    + simpl. lia.
Defined.

(** ** The parent of a new task *)

(** C2.  [WithTask] returns; the node it makes is new, its [parentTask] is the
    nearest task, starting at the task of the context and going up, that has
    not ended at that moment (none if there is no such task or the context
    carries no node); [activeChildTasks] of that task is one more than before
    and every other node is as before; and whatever calls follow, [parentTask]
    of the new node stays what it is. *)
Theorem WithTask_parentTask (w : world) (ctx : Context) (taskName : string) :
  reachable w → holdsContext w ctx →
  (Z.of_nat (length (heap (st w))) + 1 < 2 ^ 31)%Z →
  ∃ this nd s' parent node,
    WithTask ctx taskName (st w) = Ok (Some this, WithTask_endTaskFunc this nd) s'
    ∧ nearestLive (heap (st w)) (candidate (heap (st w)) ctx) parent
    ∧ heap (st w) !! this = None
    ∧ heap s' !! this = Some node ∧ parentTask node = parent
    ∧ (∀ p n, parent = Some p → heap (st w) !! p = Some n →
         ∃ n', heap s' !! p = Some n'
               ∧ activeChildTasks n' = (activeChildTasks n + 1)%Z)
    ∧ (∀ q n, parent ≠ Some q → heap (st w) !! q = Some n → heap s' !! q = Some n)
    ∧ (∀ cs os w',
         run cs (mkWorld s' (issued w ++ [WithTask_endTaskFunc this nd])) = Some (os, w') →
         ∃ node', heap (st w') !! this = Some node' ∧ parentTask node' = parent).
Proof.
  intros Hreach Hctx Hb.
  pose proof (reachable_spanInv w Hreach) as Hinv.
  pose proof (reachable_taskInv w Hreach ltac:(lia)) as Htask.
  destruct (WithTask_Ok ctx taskName (st w)) as (parent & Hnear & HOk).
  { apply Hinv. }
  { intros node ->. by apply holdsContext_valid. }
  cbn zeta in HOk.
  match type of HOk with _ = Ok _ ?t => set (s' := t) in * end.
  set (tn := taskNode (pretty (idgen (st w)))
               (taskName +:+ "#" +:+
                pretty (lowestUnused (allocated taskName (taskNamer (st w)))))
               parent (N.pos (clock (st w)))) in *.
  assert (∀ p, parent = Some p → p < length (heap (st w))) as Hplt.
  { intros p Hp. destruct (nearestLive_lt _ _ _ Hnear p Hp) as (n & Hn & _).
    by eapply lookup_lt_Some. }
  assert (heap s' !! length (heap (st w)) = Some tn) as Hnew.
  { unfold s', adopt. cbn [heap]. destruct parent as [p|].
    - specialize (Hplt p eq_refl). destruct (_ !! p).
      + rewrite list_lookup_insert_ne by lia. by apply list_lookup_middle.
      + by apply list_lookup_middle.
    - by apply list_lookup_middle. }
  exists (length (heap (st w))), (taskName, lowestUnused (allocated taskName (taskNamer (st w)))),
    s', parent, tn.
  split; [exact HOk|]. split; [exact Hnear|].
  split; [by apply lookup_ge_None_2|]. split; [exact Hnew|]. split; [reflexivity|].
  split; [|split].
  - intros p n -> Hn. unfold s', adopt. cbn [heap].
    rewrite (lookup_app_l_Some _ _ _ _ Hn). eexists. split.
    { apply list_lookup_insert_eq. rewrite length_app. specialize (Hplt p eq_refl). lia. }
    cbn [activeChildTasks set_activeChildTasks].
    rewrite (inv_count _ Htask p n Hn). pose proof (liveChildTasks_le (heap (st w)) p).
    apply wrap32_small. lia.
  - intros q n Hq Hn. unfold s', adopt. cbn [heap]. destruct parent as [p|].
    + destruct (_ !! p).
      * rewrite list_lookup_insert_ne by congruence. by apply lookup_app_l_Some.
      * by apply lookup_app_l_Some.
    + by apply lookup_app_l_Some.
  - intros cs os w' Hrun. apply grows_run in Hrun.
    destruct (Hrun _ _ Hnew) as (node' & Hnode' & (_ & _ & HT & _)).
    exists node'. split; [done|]. by rewrite HT.
Qed.

Lemma WithTask_parentTask_witness :
  ∃ this nd s' parent node,
    WithTask (Some 1) "c" (st task_with_child)
    = Ok (Some this, WithTask_endTaskFunc this nd) s'
    ∧ nearestLive (heap (st task_with_child))
        (candidate (heap (st task_with_child)) (Some 1)) parent
    ∧ heap (st task_with_child) !! this = None
    ∧ heap s' !! this = Some node ∧ parentTask node = parent
    ∧ (∀ p n, parent = Some p → heap (st task_with_child) !! p = Some n →
         ∃ n', heap s' !! p = Some n'
               ∧ activeChildTasks n' = (activeChildTasks n + 1)%Z)
    ∧ (∀ q n, parent ≠ Some q → heap (st task_with_child) !! q = Some n →
         heap s' !! q = Some n)
    ∧ (∀ cs os w',
         run cs (mkWorld s' (issued task_with_child ++ [WithTask_endTaskFunc this nd]))
         = Some (os, w') →
         ∃ node', heap (st w') !! this = Some node' ∧ parentTask node' = parent).
Proof.
  apply (WithTask_parentTask task_with_child (Some 1) "c").
  - apply task_with_child_reachable.
  - vm_compute. repeat constructor.
  - vm_compute. reflexivity.
Defined.

(** ** The gauge of active tasks *)

Global Instance sameEnd_refl : Reflexive sameEnd.
Proof. by intros n. Qed.

Global Instance sameEnd_trans : Transitive sameEnd.
Proof. unfold sameEnd. intros a b c ??. congruence. Qed.

Lemma adopt_sameEnd parent h : Forall2 sameEnd h (adopt parent h).
Proof.
  unfold adopt. destruct parent as [p|]; [|apply view_refl, _].
  destruct (h !! p) as [n|] eqn:Hn; [|apply view_refl, _].
  eapply view_insert; [apply _|done|]. by destruct n.
Qed.

(** Calls that leave the end times of all old nodes alone carry [endedSeen]
    over, for the closures there were. *)
Lemma endedSeen_view w h' seen :
  endedSeen w seen → (∀ t n, heap (st w) !! t = Some n →
                        ∃ n', h' !! t = Some n' ∧ endedAt n' = endedAt n) →
  length (heap (st w)) ≤ length h' →
  (∀ t, t ∈ seen → t < length h')
  ∧ ∀ t nd n', WithTask_endTaskFunc t nd ∈ issued w → h' !! t = Some n' →
      t < length (heap (st w)) → (endedAt n' ≠ 0%N ↔ t ∈ seen).
Proof.
  intros [Hlt Hseen] Hview Hlen. split.
  - intros t Ht. specialize (Hlt t Ht). lia.
  - intros t nd n' Hd Hn' Htlt.
    destruct (lookup_lt_is_Some_2 _ _ Htlt) as [n Hn].
    destruct (Hview t n Hn) as (n'' & Hn'' & He).
    assert (n'' = n') as -> by congruence. rewrite He. by eapply Hseen.
Qed.

Lemma gauge_exec c w o w' seen :
  spanInv (heap (st w)) (issued w) → taskInv (heap (st w)) → endedSeen w seen →
  exec c w = Some (o, w') →
  endedSeen w' (seenAfter seen c o)
  ∧ activeTasks (st w')
    = (activeTasks (st w) + Z.of_nat (begins1 c o) - Z.of_nat (ends1 seen c o))%Z.
Proof.
  intros Hinv Htask [Hlt Hseen].
  destruct c as [ctx name|ctx label|d]; simpl; case_decide as Hc; intros [= Heq].
  - destruct (WithTask_Ok ctx name (st w)) as (parent & Hnear & HOk).
    { apply Hinv. }
    { intros node ->. by apply holdsContext_valid. }
    rewrite HOk in Heq. cbn [begun] in Heq. injection Heq as <- <-.
    cbn [st issued heap activeTasks begins1 ends1 seenAfter].
    split; [|lia].
    set (tn := taskNode _ _ _ _).
    pose proof (adopt_sameEnd parent (heap (st w) ++ [tn])) as Hview.
    pose proof (Forall2_length _ _ _ Hview) as Hlen.
    rewrite length_app in Hlen. simpl in Hlen.
    split.
    + intros t Ht. specialize (Hlt t Ht). cbn [st heap]. lia.
    + intros t nd n' Hd Hn'. cbn [st heap issued] in *.
      destruct (Forall2_lookup_r _ _ _ _ _ Hview Hn') as (n1 & Hn1 & He).
      rewrite He. apply elem_of_app in Hd as [Hd|Hd].
      * destruct (inv_task _ _ Hinv t nd Hd) as (n & Hn & _).
        rewrite (lookup_app_l_Some _ _ _ _ Hn) in Hn1. injection Hn1 as <-.
        by eapply Hseen.
      * apply list_elem_of_singleton in Hd. injection Hd as -> ->.
        rewrite list_lookup_middle in Hn1 by done. injection Hn1 as <-.
        simpl. split; [done|]. intros Ht. specialize (Hlt _ Ht). lia.
  - assert (∀ h', (∀ t n, heap (st w) !! t = Some n → h' !! t = Some n ∨
                     ∃ a, h' !! t = Some (set_activeChildSpan a n)) →
              length (heap (st w)) ≤ length h' →
              ∀ ds' s', heap s' = h' →
                (∀ t nd, WithTask_endTaskFunc t nd ∈ ds' →
                   WithTask_endTaskFunc t nd ∈ issued w) →
                endedSeen (mkWorld s' ds') seen) as Hsame.
    { intros h' Hh' Hlen ds' s' <- Hds. split.
      - intros t Ht. specialize (Hlt t Ht). cbn [st]. lia.
      - intros t nd n' Hd Hn'. cbn [st issued] in *. apply Hds in Hd.
        destruct (inv_task _ _ Hinv t nd Hd) as (n & Hn & _).
        destruct (Hh' t n Hn) as [Hn2|[a Hn2]]; rewrite Hn2 in Hn'; injection Hn' as <-.
        + by eapply Hseen.
        + destruct n; simpl. by eapply (Hseen t nd (mkTraceNode _ _ _ _ _ _ _ _)). }
    destruct ctx as [parent|].
    2:{ simplify_eq/=. split; [done|lia]. }
    destruct (holdsContext_valid w parent) as [n Hn]; [done..|].
    rewrite (WithSpan_eq _ _ _ _ Hn) in Heq. cbn zeta in Heq.
    destruct (activeChildSpan n) eqn:Ha; cbn [begun] in Heq; injection Heq as <- <-;
      cbn [st activeTasks begins1 ends1 seenAfter]; (split; [|lia]).
    + eapply Hsame; cycle 2; [reflexivity|done|cbn [heap]..].
      * intros t m Hm. left. by apply lookup_app_l_Some.
      * rewrite length_app. lia.
    + eapply Hsame; cycle 2; [reflexivity| |cbn [heap]..]; cycle 1.
      * intros t m Hm. destruct (decide (t = parent)) as [->|Hne].
        -- right. exists (Some (length (heap (st w)))).
           assert (m = n) as -> by congruence.
           apply list_lookup_insert_eq. rewrite length_app.
           apply lookup_lt_Some in Hn. lia.
        -- left. rewrite list_lookup_insert_ne by done. by apply lookup_app_l_Some.
      * rewrite length_insert, length_app. lia.
      * intros t nd Hd. apply elem_of_app in Hd as [Hd|Hd]; [done|].
        by apply list_elem_of_singleton in Hd.
  - destruct d as [t nd|p x]; simpl in Heq.
    + destruct (inv_task _ _ Hinv t nd Hc) as (n & Hn & Hs).
      pose proof (Hseen t nd n Hc Hn) as Hts.
      rewrite (call_WithTask_endTaskFunc_eq _ _ _ _ Hn) in Heq.
      case_bool_decide as Hcount.
      { simplify_eq/=. split; [done|lia]. }
      destruct (IsZero (endedAt n)) eqn:Hz; cbn [negb] in Heq.
      2:{ apply IsZero_false in Hz. apply Hts in Hz.
          cbn [done] in Heq. injection Heq as <- <-.
          cbn [ends1 begins1 seenAfter]. rewrite !decide_True by done.
          split; [done|simpl; lia]. }
      apply IsZero_true in Hz.
      assert (t ∉ seen) as Hnew by (intros Ht; apply Hts in Ht; done).
      pose proof (taskInv_end_task _ t n (Npos (clock (st w)))
                    (inv_acyclic _ _ Hinv) Htask Hn Hs Hz Hcount ltac:(done)) as Hend.
      cbn zeta in Hend, Heq.
      assert (∀ h' s', heap s' = h' → length h' = length (heap (st w)) →
                (∃ now, now ≠ 0%N ∧ h' !! t = Some (set_endedAt now n)) →
                (∀ t' m, t' ≠ t → heap (st w) !! t' = Some m →
                   ∃ m', h' !! t' = Some m' ∧ endedAt m' = endedAt m) →
                endedSeen (mkWorld s' (issued w)) (t :: seen)) as Hfirst.
      { intros h' s' <- Hlen (now & Hnow & Ht) Hrest. split.
        - intros t' Ht'. cbn [st]. rewrite Hlen.
          apply elem_of_cons in Ht' as [->|Ht']; [by eapply lookup_lt_Some|by apply Hlt].
        - intros t' nd' n' Hd' Hn'. cbn [st issued] in *.
          destruct (decide (t' = t)) as [->|Hne].
          + rewrite Ht in Hn'. injection Hn' as <-. destruct n; simpl.
            split; [intros _; apply list_elem_of_here|done].
          + destruct (inv_task _ _ Hinv t' nd' Hd') as (m & Hm & _).
            destruct (Hrest t' m Hne Hm) as (m' & Hm' & He).
            assert (m' = n') as -> by congruence. rewrite He.
            rewrite (Hseen t' nd' m Hd' Hm), elem_of_cons.
            split; [by right|by intros [?|?]]. }
      pose proof (lookup_lt_Some _ _ _ Hn) as Htlt.
      destruct (parentTask n) as [q|].
      * destruct Hend as (m & Hm & Hm1 & Hqt & Hpos & Hw & _).
        rewrite Hm1 in Heq. rewrite bool_decide_false in Heq by lia.
        cbn [done] in Heq. injection Heq as <- <-.
        cbn [st activeTasks ends1 begins1 seenAfter]. rewrite !decide_False by done.
        split; [|simpl; lia].
        eapply Hfirst; [reflexivity|cbn [heap]..]; [by rewrite !length_insert| |].
        -- eexists. split; [|rewrite list_lookup_insert_ne by done;
                              by apply list_lookup_insert_eq]. done.
        -- intros t' m' Hne Hm'. destruct (decide (t' = q)) as [->|Hne'].
           ++ assert (m' = m) as -> by congruence. eexists. split.
              { apply list_lookup_insert_eq. rewrite length_insert.
                by eapply lookup_lt_Some. }
              by destruct m.
           ++ exists m'. split; [|done].
              rewrite !list_lookup_insert_ne by done. done.
      * cbn [done] in Heq. injection Heq as <- <-.
        cbn [st activeTasks ends1 begins1 seenAfter]. rewrite !decide_False by done.
        split; [|simpl; lia].
        eapply Hfirst; [reflexivity|cbn [heap]..]; [by rewrite !length_insert| |].
        -- eexists. split; [|by apply list_lookup_insert_eq]. done.
        -- intros t' m' Hne Hm'. exists m'. split; [|done].
           rewrite list_lookup_insert_ne by done. done.
    + destruct (inv_span _ _ Hinv p x Hc) as (n & np & Hn & Hs & Hp & Hlive).
      assert (p < x) as Hpx.
      { apply Hinv in Hn as [_ Hn']. by apply Hn'. }
      rewrite (call_WithSpan_endTaskFunc_eq _ _ _ _ _ Hp Hn) in Heq by lia.
      destruct (_ && _).
      { simplify_eq/=. split; [done|lia]. }
      destruct (activeChildSpan n).
      { simplify_eq/=. split; [done|lia]. }
      destruct (IsZero (endedAt n)); cbn [negb] in Heq.
      2:{ simplify_eq/=. split; [done|lia]. }
      cbn [done] in Heq. injection Heq as <- <-.
      cbn [st activeTasks ends1 begins1 seenAfter]. split; [|lia].
      split.
      * intros t Ht. cbn [st heap]. rewrite !length_insert. by apply Hlt.
      * intros t nd n' Hd Hn'. cbn [st heap issued] in *.
        destruct (inv_task _ _ Hinv t nd Hd) as (m & Hm & Hsm).
        assert (t ≠ x) as Htx by (intros ->; congruence).
        rewrite list_lookup_insert_ne in Hn' by done.
        apply list_lookup_insert_Some in Hn' as [(<- & <- & _)|[Hne Hn']].
        -- assert (m = np) as -> by congruence. destruct np; simpl.
           by eapply (Hseen p nd (mkTraceNode _ _ _ _ _ _ _ _)).
        -- assert (m = n') as -> by congruence. by eapply Hseen.
Qed.

Lemma gauge_run cs w os w' seen :
  spanInv (heap (st w)) (issued w) → taskInv (heap (st w)) → endedSeen w seen →
  run cs w = Some (os, w') →
  (Z.of_nat (length (heap (st w'))) < 2 ^ 31)%Z →
  activeTasks (st w')
  = (activeTasks (st w) + Z.of_nat (completedBegins cs os)
     - Z.of_nat (firstEnds seen cs os))%Z.
Proof.
  revert w os seen. induction cs as [|c cs IH]; intros w os seen Hinv Htask Hseen; simpl.
  - intros [=] _; subst. simpl. lia.
  - destruct (exec c w) as [[o w1]|] eqn:Hexec; [|done].
    destruct (run cs w1) as [[os1 w2]|] eqn:Hrun; [|done].
    intros [=] Hb; subst.
    destruct (gauge_exec c w o w1 seen Hinv Htask Hseen Hexec) as [Hseen1 Hgauge].
    assert (taskInv (heap (st w1))) as Htask1.
    { eapply taskInv_exec; [done..|].
      pose proof (grows_length _ _ (grows_run _ _ _ _ Hrun)). lia. }
    rewrite (IH w1 os1 _ (spanInv_exec _ _ _ _ Hinv Hexec) Htask1 Hseen1 Hrun Hb).
    rewrite Hgauge. simpl. lia.
Qed.

(** C4.  After any run of calls from the start of the process, the gauge
    [activeTasks] is the number of [WithTask] calls that returned minus the
    number of returned calls of task closures that were the first returned
    call of their closure. *)
Theorem activeTasks_gauge (cs : list call) (os : list outcome) (w : world) :
  run cs start = Some (os, w) →
  (Z.of_nat (length (heap (st w))) < 2 ^ 31)%Z →
  activeTasks (st w)
  = (Z.of_nat (completedBegins cs os) - Z.of_nat (firstEnds [] cs os))%Z.
Proof.
  intros Hrun Hb.
  assert (endedSeen start []) as Hseen.
  { split.
    - intros t Ht. by apply elem_of_nil in Ht.
    - intros t nd n Hd. by apply elem_of_nil in Hd. }
  rewrite (gauge_run cs start os w [] spanInv_start taskInv_start Hseen Hrun Hb).
  simpl. lia.
Qed.

Lemma activeTasks_gauge_witness :
  activeTasks (st (default start (snd <$> run begin_end_twice start)))
  = (Z.of_nat (completedBegins begin_end_twice (replicate 5 Returned))
     - Z.of_nat (firstEnds [] begin_end_twice (replicate 5 Returned)))%Z.
Proof.
  apply (activeTasks_gauge begin_end_twice (replicate 5 Returned)
           (default start (snd <$> run begin_end_twice start))).
  - vm_compute. reflexivity.
  - vm_compute. reflexivity.
Defined.

Example gauge_back_to_zero :
  activeTasks (st (default start (snd <$> run begin_end_twice start))) = 0%Z
  ∧ completedBegins begin_end_twice (replicate 5 Returned) = 2
  ∧ firstEnds [] begin_end_twice (replicate 5 Returned) = 2.
Proof. vm_compute. done. Qed.

(** * More of the package *)

(** ** Every call, case by case *)

(** In a state the package can be in, a call with what the client holds takes
    one of the paths of [effect]. *)
Lemma exec_effect c s ds o w' :
  spanInv (heap s) ds → exec c (mkWorld s ds) = Some (o, w') → effect s ds c o w'.
Proof.
  intros Hinv. destruct c as [ctx name|ctx label|d]; simpl; case_decide as Hc;
    intros [= Heq].
  - destruct (WithTask_Ok ctx name s) as (parent & Hnear & HOk).
    { apply Hinv. }
    { intros node ->. by apply (holdsContext_valid (mkWorld s ds)). }
    rewrite HOk in Heq. cbn [begun issued] in Heq. injection Heq as <- <-.
    by apply effect_WithTask.
  - destruct ctx as [parent|].
    { destruct (holdsContext_valid (mkWorld s ds) parent) as [n Hn]; [done..|].
      simpl in Hn. rewrite (WithSpan_eq _ _ _ _ Hn) in Heq. cbn zeta in Heq.
      destruct (activeChildSpan n) eqn:Ha; cbn [begun issued] in Heq;
        injection Heq as <- <-.
      - by eapply effect_WithSpan_refused.
      - by eapply effect_WithSpan. }
    cbn [WithSpan panic begun issued] in Heq. injection Heq as <- <-.
    apply effect_WithSpan_outside.
  - destruct d as [t nd|p x]; simpl in Heq.
    + destruct (inv_task _ _ Hinv t nd Hc) as (n & Hn & Hs).
      rewrite (call_WithTask_endTaskFunc_eq _ _ _ _ Hn) in Heq.
      case_bool_decide as Hcount.
      { cbn [done issued] in Heq. injection Heq as <- <-.
        by eapply effect_task_children. }
      destruct (IsZero (endedAt n)) eqn:Hz; cbn [negb] in Heq.
      2:{ cbn [done issued] in Heq. injection Heq as <- <-.
          apply IsZero_false in Hz. by eapply effect_task_again. }
      apply IsZero_true in Hz. cbn zeta in Heq.
      destruct (parentTask n) as [q|] eqn:Hq.
      2:{ cbn [done issued] in Heq. injection Heq as <- <-.
          by eapply effect_task_end_root. }
      assert (q < t) as Hqt.
      { pose proof (inv_acyclic _ _ Hinv t n Hn) as [Hlt _]. by apply Hlt. }
      pose proof (lookup_lt_Some _ _ _ Hn) as Htlt.
      destruct (lookup_lt_is_Some_2 (heap s) q) as [m Hm]; [lia|].
      rewrite list_lookup_insert_ne in Heq by lia. rewrite Hm in Heq.
      case_bool_decide as Hneg; cbn [done issued] in Heq; injection Heq as <- <-.
      * by eapply effect_task_end_negative.
      * eapply effect_task_end_child; [done..|lia].
    + destruct (inv_span _ _ Hinv p x Hc) as (n & np & Hn & Hs & Hp & Hlive).
      assert (p < x) as Hlt.
      { pose proof (inv_acyclic _ _ Hinv x n Hn) as [_ Hlt]. by apply Hlt. }
      rewrite (call_WithSpan_endTaskFunc_eq _ _ _ _ _ Hp Hn) in Heq by lia.
      destruct (IsZero (endedAt n)) eqn:Hz.
      * apply IsZero_true in Hz.
        rewrite bool_decide_false in Heq by (by intros []; apply Hlive).
        cbn [andb negb] in Heq.
        destruct (activeChildSpan n) eqn:Ha; cbn [done issued] in Heq;
          injection Heq as <- <-.
        -- by eapply effect_span_child.
        -- eapply effect_span_end; [done..|]. by apply Hlive.
      * rewrite andb_false_r in Heq. apply IsZero_false in Hz. cbn [negb] in Heq.
        destruct (activeChildSpan n) eqn:Ha; cbn [done issued] in Heq;
          injection Heq as <- <-.
        -- by eapply effect_span_child.
        -- by eapply effect_span_again.
Qed.

(** With the counters right, the closure of a task does not reach the panic on
    a negative counter. *)
Lemma effect_bounded s ds c o w' :
  spanInv (heap s) ds → taskInv (heap s) → effect s ds c o w' →
  o ≠ Panicked ImplErrorNegativeActiveChildTasks.
Proof.
  intros Hinv Htask Heff. destruct Heff; try done.
  match goal with
  | Ht : heap s !! ?t = Some ?n, Hs : parentSpan ?n = None, Hz : endedAt ?n = 0%N,
    Hc : activeChildTasks ?n = 0%Z |- _ =>
      pose proof (taskInv_end_task _ t n (Npos (clock s)) (inv_acyclic _ _ Hinv)
                    Htask Ht Hs Hz Hc ltac:(done)) as Hend
  end.
  cbn zeta in Hend.
  match goal with Hq : parentTask _ = Some _ |- _ => rewrite Hq in Hend end.
  destruct Hend as (m' & Hm' & _ & _ & Hpos & Hw & _).
  assert (m' = m) as -> by congruence. lia.
Qed.

(** Induction over the calls that lead to a state. *)
Lemma reachable_invariant (P : world → Prop) :
  P start →
  (∀ s ds c o w',
     spanInv (heap s) ds → P (mkWorld s ds) → effect s ds c o w' → P w') →
  ∀ w, reachable w → P w.
Proof.
  intros Hstart Hstep w (cs & os & Hrun).
  pose proof spanInv_start as Hinv. revert Hinv Hstart Hrun.
  generalize start. revert os.
  induction cs as [|c cs IH]; intros os w0 Hinv HP; simpl.
  - by intros [=]; subst.
  - destruct (exec c w0) as [[o w1]|] eqn:Hexec; [|done].
    destruct (run cs w1) as [[os1 w2]|] eqn:Hrun; [|done].
    intros [=]; subst. eapply IH; [by eapply spanInv_exec| |done].
    destruct w0 as [s ds]. eapply Hstep; [done..|]. by apply exec_effect.
Qed.

(** The same for states of fewer than [2^31] nodes, where the counters are
    right. *)
Lemma reachable_invariant_bounded (P : world → Prop) :
  P start →
  (∀ s ds c o w',
     spanInv (heap s) ds → taskInv (heap s) → P (mkWorld s ds) →
     effect s ds c o w' → o ≠ Panicked ImplErrorNegativeActiveChildTasks → P w') →
  ∀ w, reachable w → (Z.of_nat (length (heap (st w))) < 2 ^ 31)%Z → P w.
Proof.
  intros Hstart Hstep w (cs & os & Hrun) Hb.
  pose proof spanInv_start as Hinv. pose proof taskInv_start as Htask.
  revert Hinv Htask Hstart Hrun. generalize start. revert os.
  induction cs as [|c cs IH]; intros os w0 Hinv Htask HP; simpl.
  - by intros [=]; subst.
  - destruct (exec c w0) as [[o w1]|] eqn:Hexec; [|done].
    destruct (run cs w1) as [[os1 w2]|] eqn:Hrun; [|done].
    intros [=]; subst.
    assert (taskInv (heap (st w1))) as Htask1.
    { eapply taskInv_exec; [done..|].
      pose proof (grows_length _ _ (grows_run _ _ _ _ Hrun)). lia. }
    eapply IH; [by eapply spanInv_exec|done| |done].
    destruct w0 as [s ds]. pose proof (exec_effect _ _ _ _ _ Hinv Hexec) as Heff.
    eapply Hstep; [done..|]. by eapply effect_bounded.
Qed.

(** ** Tasks and the spans in them *)

Lemma ended_identity n now : sameIdentity n (set_endedAt now n).
Proof. by destruct n. Qed.

Lemma counted_identity n c : sameIdentity n (set_activeChildTasks c n).
Proof. by destruct n. Qed.

Lemma adopt_identity parent h : Forall2 sameIdentity h (adopt parent h).
Proof.
  eapply Forall2_impl; [apply adopt_view|]. by intros n n' [? _].
Qed.

Lemma typed_view h h' : typed h → Forall2 sameIdentity h h' → typed h'.
Proof.
  intros Htyped Hview p n' Hp.
  destruct (Forall2_lookup_r _ _ _ _ _ Hview Hp) as (n & Hn & (_ & _ & HT & HS & _)).
  destruct (Htyped p n Hn) as [Hspan Htask]. rewrite HT, HS. split.
  - intros q Hq. destruct (Hspan q Hq) as (nq & Hnq & Htq & Hsome).
    destruct (Forall2_lookup_l _ _ _ _ _ Hview Hnq)
      as (nq' & Hnq' & (_ & _ & HT' & HS' & _)).
    exists nq'. split; [done|]. split; [|done].
    rewrite Htq. unfold task. by rewrite HT', HS'.
  - intros t Ht. destruct (Htask t Ht) as (nt & Hnt & Hs).
    destruct (Forall2_lookup_l _ _ _ _ _ Hview Hnt)
      as (nt' & Hnt' & (_ & _ & _ & HS' & _)).
    exists nt'. split; [done|congruence].
Qed.

Lemma typed_snoc h new :
  typed h →
  (∀ q, parentSpan new = Some q →
     ∃ nq, h !! q = Some nq ∧ parentTask new = task q nq ∧ is_Some (parentTask new)) →
  (∀ t, parentTask new = Some t → ∃ nt, h !! t = Some nt ∧ parentSpan nt = None) →
  typed (h ++ [new]).
Proof.
  intros Htyped Hspan Htask p n Hp.
  assert (∀ q m, h !! q = Some m → (h ++ [new]) !! q = Some m) as Hold.
  { intros q m Hq. by apply lookup_app_l_Some. }
  apply lookup_snoc_Some in Hp as [[_ Hp]|[-> <-]].
  - destruct (Htyped p n Hp) as [Hs Ht]. split.
    + intros q Hq. destruct (Hs q Hq) as (nq & Hnq & ?). exists nq. eauto.
    + intros t Hq. destruct (Ht t Hq) as (nt & Hnt & ?). exists nt. eauto.
  - split.
    + intros q Hq. destruct (Hspan q Hq) as (nq & Hnq & ?). exists nq. eauto.
    + intros t Hq. destruct (Htask t Hq) as (nt & Hnt & ?). exists nt. eauto.
Qed.

Lemma candidate_task h ctx p :
  typed h → candidate h ctx = Some p → ∃ n, h !! p = Some n ∧ parentSpan n = None.
Proof.
  intros Htyped. destruct ctx as [node|]; simpl; [|done].
  destruct (h !! node) as [n|] eqn:Hn; [|done]. unfold task.
  destruct (parentSpan n) eqn:Hs.
  - intros Hp. by apply (Htyped node n Hn).
  - intros [= <-]. eauto.
Qed.

Lemma nearestLive_task h c r :
  typed h → nearestLive h c r →
  (∀ p, c = Some p → ∃ n, h !! p = Some n ∧ parentSpan n = None) →
  ∀ p, r = Some p → ∃ n, h !! p = Some n ∧ parentSpan n = None.
Proof.
  intros Htyped. induction 1 as [|p n Hp Hn|p n r Hp Hn _ IH]; intros Hc q Hq.
  - done.
  - simplify_eq. by apply Hc.
  - apply IH; [|done]. intros t Ht. by apply (Htyped p n Hp).
Qed.

Lemma task_of_task h parent n t :
  typed h → h !! parent = Some n → task parent n = Some t →
  ∃ nt, h !! t = Some nt ∧ parentSpan nt = None.
Proof.
  intros Htyped Hn. unfold task. destruct (parentSpan n) eqn:Hs.
  - intros Ht. by apply (Htyped parent n Hn).
  - intros [= <-]. eauto.
Qed.

Lemma task_is_Some h parent n :
  typed h → h !! parent = Some n → is_Some (task parent n).
Proof.
  intros Htyped Hn. unfold task. destruct (parentSpan n) as [q|] eqn:Hs; [|by eexists].
  destruct (Htyped parent n Hn) as [Hspan _].
  by destruct (Hspan q Hs) as (_ & _ & _ & ?).
Qed.

Lemma typed_new_span h i label parent n now :
  typed h → h !! parent = Some n → typed (h ++ [spanNode i label parent n now]).
Proof.
  intros Htyped Hn. apply typed_snoc; [done|..]; simpl.
  - intros q [= <-]. exists n. split; [done|]. split; [done|].
    by eapply task_is_Some.
  - intros t Ht. by eapply task_of_task.
Qed.

Lemma typed_effect s ds c o w' :
  typed (heap s) → effect s ds c o w' → typed (heap (st w')).
Proof.
  intros Htyped Heff. destruct Heff; cbn [st heap afterWithTask afterWithSpanRefused
    afterWithSpan afterTaskEnd afterTaskEndPanic afterSpanEnd]; try done.
  - eapply typed_view; [|apply adopt_identity].
    apply typed_snoc; [done|done|]. simpl. intros t Ht.
    eapply nearestLive_task; [done..| |done].
    intros p Hp. by eapply candidate_task.
  - by apply typed_new_span.
  - eapply typed_view; [by apply typed_new_span|].
    eapply view_insert; [apply _|by apply lookup_app_l_Some|apply setter_identity].
  - eapply typed_view; [done|].
    eapply view_insert; [apply _|done|apply ended_identity].
  - eapply typed_view; [done|]. unfold parentReleased, taskEnded.
    eapply view_insert_insert; [apply _|apply _|done|apply ended_identity| |].
    + rewrite list_lookup_insert_ne by lia. done.
    + apply counted_identity.
  - eapply typed_view; [done|]. unfold parentReleased, taskEnded.
    eapply view_insert_insert; [apply _|apply _|done|apply ended_identity| |].
    + rewrite list_lookup_insert_ne by lia. done.
    + apply counted_identity.
  - eapply typed_view; [done|].
    eapply view_insert_insert; [apply _|apply _|done|apply setter_identity| |].
    + rewrite list_lookup_insert_ne by lia. done.
    + apply ended_identity.
Qed.

Lemma reachable_typed w : reachable w → typed (heap (st w)).
Proof.
  apply (reachable_invariant (λ w, typed (heap (st w)))).
  - by intros p n.
  - intros s ds c o w' _ Htyped Heff. by eapply typed_effect.
Qed.

(** What [typed] says of one node of a state the package can be in. *)
Lemma typed_node (w : world) (x : ptr) (n : traceNode) :
  reachable w → heap (st w) !! x = Some n →
  (∀ p, parentSpan n = Some p →
     ∃ np t nt,
       heap (st w) !! p = Some np ∧ parentTask n = Some t ∧ task p np = Some t
       ∧ heap (st w) !! t = Some nt ∧ parentSpan nt = None ∧ t < x)
  ∧ (parentSpan n = None →
     ∀ t, parentTask n = Some t →
       ∃ nt, heap (st w) !! t = Some nt ∧ parentSpan nt = None ∧ t < x).
Proof.
  intros Hreach Hn. pose proof (reachable_typed w Hreach) as Htyped.
  pose proof (inv_acyclic _ _ (reachable_spanInv w Hreach) x n Hn) as [Hlt _].
  destruct (Htyped x n Hn) as [Hspan Htask]. split.
  - intros p Hp. destruct (Hspan p Hp) as (np & Hnp & Ht & [t Hsome]).
    destruct (Htask t Hsome) as (nt & Hnt & Hs).
    exists np, t, nt. repeat split; try done; [congruence|by apply Hlt].
  - intros _ t Ht. destruct (Htask t Ht) as (nt & Hnt & Hs).
    exists nt. repeat split; [done..|by apply Hlt].
Qed.

(** ** Labels *)

Lemma append_assoc (a b c : string) : (a +:+ b) +:+ c = a +:+ b +:+ c.
Proof.
  induction a as [|ch a IH]; [done|].
  change (String ch ((a +:+ b) +:+ c) = String ch (a +:+ b +:+ c)). by f_equal.
Qed.

Lemma Join_snoc (l : list string) (x sep : string) :
  l ≠ [] → Join (l ++ [x]) sep = Join l sep +:+ sep +:+ x.
Proof.
  induction l as [|y l IH]; [done|]. intros _.
  destruct l as [|z l]; [done|].
  change (Join ((y :: z :: l) ++ [x]) sep)
    with (y +:+ sep +:+ Join ((z :: l) ++ [x]) sep).
  rewrite IH by done.
  change (Join (y :: z :: l) sep) with (y +:+ sep +:+ Join (z :: l) sep).
  by rewrite !append_assoc.
Qed.

(** More fuel does not change what a collecting loop finds. *)
Lemma chain_more_fuel next h fuel fuel' cur l :
  chain fuel next h cur = Some l → fuel ≤ fuel' → chain fuel' next h cur = Some l.
Proof.
  revert fuel' cur l. induction fuel as [|fuel IH]; intros fuel' cur l.
  - destruct cur; [done|]. intros [= <-] _. apply chain_end.
  - destruct cur as [p|]; [|intros [= <-] _; apply chain_end].
    simpl. destruct (h !! p) as [n|] eqn:Hn; [|done].
    destruct (chain fuel next h (next n)) as [rest|] eqn:Hrest; [|done].
    intros [= <-] Hle. destruct fuel' as [|fuel']; [lia|]. simpl.
    rewrite Hn, (IH fuel' _ rest Hrest) by lia. done.
Qed.

(** The nodes collected from a node: the node, then those collected from the
    next one. *)
Lemma chain_step next h p n :
  (∀ p n q, h !! p = Some n → next n = Some q → q < p) →
  h !! p = Some n →
  ∃ rest,
    chain (length h) next h (next n) = Some rest
    ∧ chain (length h) next h (Some p) = Some (n :: rest).
Proof.
  intros Hnext Hn. pose proof (lookup_lt_Some _ _ _ Hn) as Hlt.
  destruct (length h) as [|fuel] eqn:Hlen; [lia|].
  destruct (chain_total next h fuel (next n)) as [rest Hrest].
  { done. }
  { intros q Hq. specialize (Hnext p n q Hn Hq). lia. }
  exists rest. split.
  - eapply chain_more_fuel; [done|lia].
  - simpl. by rewrite Hn, Hrest.
Qed.

Lemma acyclic_parentSpan h :
  acyclic h → ∀ p n q, h !! p = Some n → parentSpan n = Some q → q < p.
Proof. intros Hacyc p n q Hp Hq. apply Hacyc in Hp as [_ Hp]. by apply Hp. Qed.

Lemma acyclic_parentTask h :
  acyclic h → ∀ p n q, h !! p = Some n → parentTask n = Some q → q < p.
Proof. intros Hacyc p n q Hp Hq. apply Hacyc in Hp as [Hp _]. by apply Hp. Qed.

(** The label of a span is the label of the node it was started under,
    followed by [.] and the name of the span. *)
Lemma label_of_span h kind x n p :
  acyclic h → typed h → h !! x = Some n → parentSpan n = Some p →
  ∃ label,
    TaskAndSpanStack h p kind = Some label
    ∧ TaskAndSpanStack h x kind = Some (label +:+ "." +:+ symbolizeSpan kind n).
Proof.
  intros Hacyc Htyped Hn Hp.
  destruct (Htyped x n Hn) as [Hspan _].
  destruct (Hspan p Hp) as (np & Hnp & Htask & _).
  destruct (chain_step parentSpan h x n (acyclic_parentSpan h Hacyc) Hn)
    as (rest & Hrest & Hx).
  rewrite Hp in Hrest.
  destruct (chain_step parentSpan h p np (acyclic_parentSpan h Hacyc) Hnp)
    as (rest' & _ & Hp').
  assert (rest = np :: rest') as -> by congruence.
  destruct (chain_total parentTask h (length h) (task p np)) as [tasks Htasks].
  { apply acyclic_parentTask, Hacyc. }
  { intros t Ht. destruct (task_of_task h p np t Htyped Hnp Ht) as (nt & Hnt & _).
    split; by eapply lookup_lt_Some. }
  eexists. unfold TaskAndSpanStack. rewrite Hnp, Hn, Hp', Hx.
  assert (task x n = task p np) as ->.
  { unfold task at 1. by rewrite Hp. }
  rewrite Htasks. split; [reflexivity|].
  rewrite (reverse_cons (np :: rest') n), fmap_app. simpl.
  rewrite Join_snoc.
  2:{ rewrite reverse_cons, fmap_app. simpl. by destruct (_ <$> reverse rest'). }
  by rewrite !append_assoc.
Qed.

(** The label of a task: the names of the tasks from the root down to it,
    joined by [$], then [$] and the name of the task as a span.  For a child
    task the part before the last two names is the task part of the label of
    its parent. *)
Lemma label_of_task h kind t n :
  acyclic h → typed h → h !! t = Some n → parentSpan n = None →
  match parentTask n with
  | None =>
      TaskAndSpanStack h t kind
      = Some (symbolizeTask kind n +:+ "$" +:+ symbolizeSpan kind n)
  | Some q =>
      ∃ nq tasks,
        h !! q = Some nq
        ∧ TaskAndSpanStack h q kind = Some (tasks +:+ "$" +:+ symbolizeSpan kind nq)
        ∧ TaskAndSpanStack h t kind
          = Some (tasks +:+ "$" +:+ symbolizeTask kind n
                  +:+ "$" +:+ symbolizeSpan kind n)
  end.
Proof.
  intros Hacyc Htyped Hn Hs.
  assert (∀ u nu, h !! u = Some nu → parentSpan nu = None →
            chain (length h) parentSpan h (Some u) = Some [nu]) as Hone.
  { intros u nu Hu Hsu.
    destruct (chain_step parentSpan h u nu (acyclic_parentSpan h Hacyc) Hu)
      as (rest & Hrest & ->).
    rewrite Hsu, chain_end in Hrest. by injection Hrest as <-. }
  destruct (chain_step parentTask h t n (acyclic_parentTask h Hacyc) Hn)
    as (rest & Hrest & Ht).
  destruct (parentTask n) as [q|] eqn:Hq.
  - destruct (Htyped t n Hn) as [_ Htask].
    destruct (Htask q Hq) as (nq & Hnq & Hsq).
    destruct (chain_step parentTask h q nq (acyclic_parentTask h Hacyc) Hnq)
      as (rest' & _ & Hq').
    assert (rest = nq :: rest') as -> by congruence.
    exists nq, (Join (symbolizeTask kind <$> reverse (nq :: rest')) "$").
    split; [done|]. unfold TaskAndSpanStack, task.
    rewrite Hnq, Hsq, Hn, Hs, (Hone q nq Hnq Hsq), (Hone t n Hn Hs), Hq', Ht.
    split; [reflexivity|].
    rewrite (reverse_cons (nq :: rest') n), fmap_app. simpl.
    rewrite Join_snoc.
    2:{ rewrite reverse_cons, fmap_app. simpl. by destruct (_ <$> reverse rest'). }
    by rewrite !append_assoc.
  - rewrite chain_end in Hrest. injection Hrest as <-.
    unfold TaskAndSpanStack, task. rewrite Hn, Hs, (Hone t n Hn Hs), Ht. reflexivity.
Qed.

(** X1.  Every span has a parent node and a task: [parentTask] of a span is the
    task its parent node belongs to, that task is a task node, and it is older
    than the span.  [parentTask] of a task, when set, is a task node older than
    the task. *)
Theorem spans_belong_to_tasks (w : world) (x : ptr) (n : traceNode) :
  reachable w → heap (st w) !! x = Some n →
  (∀ p, parentSpan n = Some p →
     ∃ np t nt,
       heap (st w) !! p = Some np ∧ parentTask n = Some t ∧ task p np = Some t
       ∧ heap (st w) !! t = Some nt ∧ parentSpan nt = None ∧ t < x)
  ∧ (parentSpan n = None →
     ∀ t, parentTask n = Some t →
       ∃ nt, heap (st w) !! t = Some nt ∧ parentSpan nt = None ∧ t < x).
Proof. apply typed_node. Qed.

Lemma spans_belong_to_tasks_witness :
  (∀ p, Some 1 = Some p →
     ∃ np t nt,
       heap (st task_with_two_spans) !! p = Some np ∧ Some 0 = Some t
       ∧ task p np = Some t
       ∧ heap (st task_with_two_spans) !! t = Some nt ∧ parentSpan nt = None ∧ t < 2)
  ∧ (Some 1 = None →
     ∀ t, Some 0 = Some t →
       ∃ nt, heap (st task_with_two_spans) !! t = Some nt ∧ parentSpan nt = None ∧ t < 2).
Proof.
  apply (spans_belong_to_tasks task_with_two_spans 2
           (mkTraceNode "2" "y" (Some 0) 0 (Some 1) None 3 0)).
  - apply task_with_two_spans_reachable.
  - reflexivity.
Defined.

(** X2.  The label of a span is the label of the node it was started under,
    then [.], then the name of the span, for every way of naming nodes. *)
Theorem TaskAndSpanStack_span (w : world) (kind : StackKind) (x p : ptr)
    (n : traceNode) :
  reachable w → heap (st w) !! x = Some n → parentSpan n = Some p →
  ∃ label,
    TaskAndSpanStack (heap (st w)) p kind = Some label
    ∧ TaskAndSpanStack (heap (st w)) x kind
      = Some (label +:+ "." +:+ symbolizeSpan kind n).
Proof.
  intros Hreach. apply label_of_span.
  - apply (reachable_spanInv w Hreach).
  - by apply reachable_typed.
Qed.

Lemma TaskAndSpanStack_span_witness :
  ∃ label,
    TaskAndSpanStack (heap (st task_with_two_spans)) 1 StackKindId = Some label
    ∧ TaskAndSpanStack (heap (st task_with_two_spans)) 2 StackKindId
      = Some (label +:+ "." +:+ "2").
Proof.
  apply (TaskAndSpanStack_span task_with_two_spans StackKindId 2 1
           (mkTraceNode "2" "y" (Some 0) 0 (Some 1) None 3 0)).
  - apply task_with_two_spans_reachable.
  - reflexivity.
  - reflexivity.
Defined.

(** X3.  The label of a task node: for a root task its name as a task, [$],
    and its name as a span; for a child task the task part of the label of its
    parent, [$], and then the same two names.  The part after the last [$] is
    never empty. *)
Theorem TaskAndSpanStack_task (w : world) (kind : StackKind) (t : ptr)
    (n : traceNode) :
  reachable w → heap (st w) !! t = Some n → parentSpan n = None →
  match parentTask n with
  | None =>
      TaskAndSpanStack (heap (st w)) t kind
      = Some (symbolizeTask kind n +:+ "$" +:+ symbolizeSpan kind n)
  | Some q =>
      ∃ nq tasks,
        heap (st w) !! q = Some nq
        ∧ TaskAndSpanStack (heap (st w)) q kind
          = Some (tasks +:+ "$" +:+ symbolizeSpan kind nq)
        ∧ TaskAndSpanStack (heap (st w)) t kind
          = Some (tasks +:+ "$" +:+ symbolizeTask kind n
                  +:+ "$" +:+ symbolizeSpan kind n)
  end.
Proof.
  intros Hreach. apply label_of_task.
  - apply (reachable_spanInv w Hreach).
  - by apply reachable_typed.
Qed.

Lemma TaskAndSpanStack_task_witness :
  ∃ nq tasks,
    heap (st task_with_child) !! 0 = Some nq
    ∧ TaskAndSpanStack (heap (st task_with_child)) 0 SpanStackKindAnnotation
      = Some (tasks +:+ "$" +:+ annotation nq)
    ∧ TaskAndSpanStack (heap (st task_with_child)) 1 SpanStackKindAnnotation
      = Some (tasks +:+ "$" +:+ "b#0" +:+ "$" +:+ "b#0").
Proof.
  apply (TaskAndSpanStack_task task_with_child SpanStackKindAnnotation 1
           (mkTraceNode "1" "b#0" (Some 0) 0 None None 2 0)).
  - apply task_with_child_reachable.
  - reflexivity.
  - reflexivity.
Defined.

(** X4.  [TaskName] of a task node is its annotation, and a span has the
    [TaskName] of the node it was started under: all the spans of a task
    answer with the name of that task. *)
Theorem TaskName_of_span (w : world) (x : ptr) (n : traceNode) :
  reachable w → heap (st w) !! x = Some n →
  (parentSpan n = None → TaskName (heap (st w)) x = Some (annotation n))
  ∧ (∀ p, parentSpan n = Some p →
       ∃ name, TaskName (heap (st w)) x = Some name
               ∧ TaskName (heap (st w)) p = Some name).
Proof.
  intros Hreach Hn. unfold TaskName at 1 2. rewrite Hn. unfold task at 1 2. split.
  - intros ->. by rewrite Hn.
  - intros p Hp. rewrite Hp.
    destruct (typed_node w x n Hreach Hn) as [Hspan _].
    destruct (Hspan p Hp) as (np & t & nt & Hnp & Ht & Htask & Hnt & _).
    exists (annotation nt). unfold TaskName. by rewrite Ht, Hnp, Htask, Hnt.
Qed.

Lemma TaskName_of_span_witness :
  (Some 1 = None → TaskName (heap (st task_with_two_spans)) 2 = Some "y")
  ∧ (∀ p, Some 1 = Some p →
       ∃ name, TaskName (heap (st task_with_two_spans)) 2 = Some name
               ∧ TaskName (heap (st task_with_two_spans)) p = Some name).
Proof.
  apply (TaskName_of_span task_with_two_spans 2
           (mkTraceNode "2" "y" (Some 0) 0 (Some 1) None 3 0)).
  - apply task_with_two_spans_reachable.
  - reflexivity.
Defined.

(** ** The active child span *)

Lemma linked_view h h' ds :
  linked h ds → Forall2 sameSpanView h h' → linked h' ds.
Proof.
  intros Hlinked Hview p np' c Hp Ha.
  destruct (Forall2_lookup_r _ _ _ _ _ Hview Hp) as (np & Hnp & _ & HA & _).
  rewrite HA in Ha. destruct (Hlinked p np c Hnp Ha) as (nc & Hnc & Hs & Hz & Hd).
  destruct (Forall2_lookup_l _ _ _ _ _ Hview Hnc)
    as (nc' & Hnc' & (_ & _ & _ & HS & _) & _ & HE).
  exists nc'. repeat split; [done|congruence| |done].
  rewrite HE; [done|congruence].
Qed.

Lemma linked_more h ds ds' : linked h ds → linked h (ds ++ ds').
Proof.
  intros Hlinked p np c Hp Ha. destruct (Hlinked p np c Hp Ha) as (nc & ? & ? & ? & ?).
  exists nc. repeat split; [done..|]. apply elem_of_app. by left.
Qed.

Lemma linked_snoc h ds new :
  linked h ds → activeChildSpan new = None → linked (h ++ [new]) ds.
Proof.
  intros Hlinked Hnew p np c Hp Ha.
  apply lookup_snoc_Some in Hp as [[_ Hp]|[-> <-]]; [|congruence].
  destruct (Hlinked p np c Hp Ha) as (nc & Hnc & ?). exists nc.
  split; [by apply lookup_app_l_Some|done].
Qed.

Lemma linked_effect s ds c o w' :
  spanInv (heap s) ds → linked (heap s) ds → effect s ds c o w' →
  linked (heap (st w')) (issued w').
Proof.
  intros Hinv Hlinked Heff.
  destruct Heff; cbn [st heap issued afterWithTask afterWithSpanRefused
    afterWithSpan afterTaskEnd afterTaskEndPanic afterSpanEnd]; try done.
  - apply linked_more. eapply linked_view; [|apply adopt_view]. by apply linked_snoc.
  - by apply linked_snoc.
  - match goal with Hn : heap s !! parent = Some n |- _ =>
      pose proof (lookup_lt_Some _ _ _ Hn) as Hlt end.
    set (sn := spanNode _ _ _ _ _).
    pose proof (linked_snoc _ _ sn Hlinked eq_refl) as Hl1.
    intros q nq c Hq Ha.
    apply list_lookup_insert_Some in Hq as [(<- & <- & _)|[Hne Hq]].
    + cbn [activeChildSpan set_activeChildSpan] in Ha. injection Ha as <-.
      exists sn. rewrite list_lookup_insert_ne by lia.
      split; [by apply list_lookup_middle|]. repeat split.
      apply elem_of_app. right. apply list_elem_of_here.
    + destruct (Hl1 q nq c Hq Ha) as (nc & Hnc & Hs & Hz & Hd).
      assert (∃ nc', <[parent:=set_activeChildSpan (Some (length (heap s))) n]>
                       (heap s ++ [sn]) !! c = Some nc'
                     ∧ parentSpan nc' = Some q ∧ endedAt nc' = 0%N)
        as (nc' & Hnc' & Hs' & Hz').
      { destruct (decide (c = parent)) as [->|Hc].
        - rewrite list_lookup_insert_eq by (rewrite length_app; lia).
          eexists. split; [done|].
          assert (nc = n) as ->.
          { match goal with Hn : heap s !! parent = Some n |- _ =>
              apply lookup_app_l_Some with (l2 := [sn]) in Hn end.
            congruence. }
          by destruct n.
        - rewrite list_lookup_insert_ne by done. eauto. }
      exists nc'. repeat split; [done..|]. apply elem_of_app. by left.
  - eapply linked_view; [done|].
    eapply view_insert; [apply _|done|by apply task_view_ended].
  - eapply linked_view; [done|]. unfold parentReleased, taskEnded.
    eapply view_insert_insert; [apply _|apply _|done|by apply task_view_ended| |].
    + rewrite list_lookup_insert_ne by lia. done.
    + apply task_view_counted.
  - eapply linked_view; [done|]. unfold parentReleased, taskEnded.
    eapply view_insert_insert; [apply _|apply _|done|by apply task_view_ended| |].
    + rewrite list_lookup_insert_ne by lia. done.
    + apply task_view_counted.
  - intros q nq c Hq Ha.
    apply list_lookup_insert_Some in Hq as [(<- & <- & _)|[Hne Hq]].
    { cbn [activeChildSpan set_endedAt] in Ha. congruence. }
    apply list_lookup_insert_Some in Hq as [(<- & <- & _)|[Hne' Hq]].
    { done. }
    destruct (Hlinked q nq c Hq Ha) as (nc & Hnc & Hs & Hz & Hd).
    assert (c ≠ x) as Hcx by (intros ->; congruence).
    rewrite list_lookup_insert_ne by done.
    destruct (decide (c = p)) as [->|Hcp].
    + rewrite list_lookup_insert_eq by (by eapply lookup_lt_Some).
      eexists. split; [done|]. assert (nc = np) as -> by congruence. by destruct np.
    + rewrite list_lookup_insert_ne by done. eauto.
Qed.

Lemma reachable_linked w : reachable w → linked (heap (st w)) (issued w).
Proof.
  apply (reachable_invariant (λ w, linked (heap (st w)) (issued w))).
  - by intros p np c.
  - intros s ds c o w' Hinv Hlinked Heff. by eapply linked_effect.
Qed.

(** X5.  [activeChildSpan] of a node is set to [c] exactly when [c] is a span
    started under the node that has not ended (and whose closure was handed
    out); so among the spans started under one node at most one has not
    ended. *)
Theorem activeChildSpan_is_the_live_child (w : world) (p : ptr) (np : traceNode) :
  reachable w → heap (st w) !! p = Some np →
  (∀ c, activeChildSpan np = Some c ↔
        ∃ nc, WithSpan_endTaskFunc p c ∈ issued w
              ∧ heap (st w) !! c = Some nc ∧ endedAt nc = 0%N)
  ∧ (∀ x y nx ny,
       WithSpan_endTaskFunc p x ∈ issued w → WithSpan_endTaskFunc p y ∈ issued w →
       heap (st w) !! x = Some nx → heap (st w) !! y = Some ny →
       endedAt nx = 0%N → endedAt ny = 0%N → x = y).
Proof.
  intros Hreach Hp.
  pose proof (reachable_spanInv w Hreach) as Hinv.
  pose proof (reachable_linked w Hreach) as Hlinked.
  assert (∀ c nc, WithSpan_endTaskFunc p c ∈ issued w →
            heap (st w) !! c = Some nc → endedAt nc = 0%N →
            activeChildSpan np = Some c) as Hlive.
  { intros c nc Hd Hc Hz.
    destruct (inv_span _ _ Hinv p c Hd) as (n & np' & Hn & _ & Hp' & Hl).
    assert (n = nc) as -> by congruence. assert (np' = np) as -> by congruence.
    by apply Hl. }
  split.
  - intros c. split.
    + intros Ha. destruct (Hlinked p np c Hp Ha) as (nc & ? & ? & ? & ?). eauto.
    + intros (nc & Hd & Hc & Hz). by eapply Hlive.
  - intros x y nx ny Hx Hy Hnx Hny Hzx Hzy.
    pose proof (Hlive x nx Hx Hnx Hzx). pose proof (Hlive y ny Hy Hny Hzy). congruence.
Qed.

Lemma activeChildSpan_is_the_live_child_witness :
  (∀ c, Some 1 = Some c ↔
        ∃ nc, WithSpan_endTaskFunc 0 c ∈ issued task_with_two_spans
              ∧ heap (st task_with_two_spans) !! c = Some nc ∧ endedAt nc = 0%N)
  ∧ (∀ x y nx ny,
       WithSpan_endTaskFunc 0 x ∈ issued task_with_two_spans →
       WithSpan_endTaskFunc 0 y ∈ issued task_with_two_spans →
       heap (st task_with_two_spans) !! x = Some nx →
       heap (st task_with_two_spans) !! y = Some ny →
       endedAt nx = 0%N → endedAt ny = 0%N → x = y).
Proof.
  apply (activeChildSpan_is_the_live_child task_with_two_spans 0
           (mkTraceNode "0" "t#0" None 0 None (Some 1) 1 0)).
  - apply task_with_two_spans_reachable.
  - reflexivity.
Defined.

(** ** End times *)

(** What a call does to the end time of a node there is: nothing, unless the
    call is the closure of that node and the node has not ended. *)
Lemma effect_endedAt s ds c o w' q n :
  effect s ds c o w' → heap s !! q = Some n →
  ∃ n', heap (st w') !! q = Some n'
        ∧ (endedAt n' = endedAt n
           ∨ (endedAt n = 0%N ∧ endedAt n' = Npos (clock s)
              ∧ ∃ d, d ∈ ds ∧ c = CallDone d ∧ thisOf d = q)).
Proof.
  intros Heff Hq. pose proof (lookup_lt_Some _ _ _ Hq) as Hqlt.
  destruct Heff; cbn [st heap issued afterWithTask afterWithSpanRefused
    afterWithSpan afterTaskEnd afterTaskEndPanic afterSpanEnd];
    try (exists n; split; [done|by left]).
  - set (tn := taskNode _ _ _ _).
    destruct (Forall2_lookup_l _ _ _ _ _ (adopt_sameEnd parent (heap s ++ [tn]))
                (lookup_app_l_Some _ [tn] _ _ Hq)) as (n' & Hn' & He).
    exists n'. split; [done|by left].
  - exists n. split; [by apply lookup_app_l_Some|by left].
  - destruct (decide (q = parent)) as [->|Hne].
    + eexists. split.
      { apply list_lookup_insert_eq. rewrite length_app. lia. }
      left. assert (n0 = n) as -> by congruence. by destruct n.
    + exists n. rewrite list_lookup_insert_ne by done.
      split; [by apply lookup_app_l_Some|by left].
  - unfold taskEnded. destruct (decide (q = t)) as [->|Hne].
    + eexists. split; [by apply list_lookup_insert_eq|].
      assert (n0 = n) as -> by congruence. right.
      split; [done|]. split; [by destruct n|]. eexists. by repeat split.
    + exists n. rewrite list_lookup_insert_ne by done. split; [done|by left].
  - unfold parentReleased, taskEnded. destruct (decide (q = q0)) as [->|Hne].
    + eexists. split.
      { apply list_lookup_insert_eq. by rewrite length_insert. }
      left. assert (m = n) as -> by congruence. by destruct n.
    + rewrite list_lookup_insert_ne by done. destruct (decide (q = t)) as [->|Hne'].
      * eexists. split; [by apply list_lookup_insert_eq|].
        assert (n0 = n) as -> by congruence. right.
        split; [done|]. split; [by destruct n|]. eexists. by repeat split.
      * exists n. rewrite list_lookup_insert_ne by done. split; [done|by left].
  - unfold parentReleased, taskEnded. destruct (decide (q = q0)) as [->|Hne].
    + eexists. split.
      { apply list_lookup_insert_eq. by rewrite length_insert. }
      left. assert (m = n) as -> by congruence. by destruct n.
    + rewrite list_lookup_insert_ne by done. destruct (decide (q = t)) as [->|Hne'].
      * eexists. split; [by apply list_lookup_insert_eq|].
        assert (n0 = n) as -> by congruence. right.
        split; [done|]. split; [by destruct n|]. eexists. by repeat split.
      * exists n. rewrite list_lookup_insert_ne by done. split; [done|by left].
  - destruct (decide (q = x)) as [->|Hne].
    + eexists. split.
      { apply list_lookup_insert_eq. by rewrite length_insert. }
      assert (n0 = n) as -> by congruence. right.
      split; [done|]. split; [by destruct n|]. eexists. by repeat split.
    + rewrite list_lookup_insert_ne by done. destruct (decide (q = p)) as [->|Hne'].
      * eexists. split; [by apply list_lookup_insert_eq|].
        left. assert (np = n) as -> by congruence. by destruct n.
      * exists n. rewrite list_lookup_insert_ne by done. split; [done|by left].
Qed.

Lemma ended_stays_run cs w os w' q n :
  spanInv (heap (st w)) (issued w) → run cs w = Some (os, w') →
  heap (st w) !! q = Some n → endedAt n ≠ 0%N →
  EndedAt (heap (st w')) q = Some (endedAt n).
Proof.
  revert w os n. induction cs as [|c cs IH]; intros w os n Hinv; simpl.
  - intros [=] Hq _; subst. unfold EndedAt. by rewrite Hq.
  - destruct (exec c w) as [[o w1]|] eqn:Hexec; [|done].
    destruct (run cs w1) as [[os1 w2]|] eqn:Hrun; [|done].
    intros [=] Hq Hz; subst.
    pose proof (spanInv_exec _ _ _ _ Hinv Hexec) as Hinv1.
    destruct w as [s ds]. apply exec_effect in Hexec; [|done].
    destruct (effect_endedAt _ _ _ _ _ q n Hexec Hq) as (n' & Hn' & [He|[He _]]);
      [|done].
    rewrite <-He. eapply IH; [done..|congruence].
Qed.

(** X6.  The end time of a node is written once: a call changes [endedAt] of
    a node only if it is the closure of that very node and the node has not
    ended, and once a node has ended [EndedAt] answers the same time after any
    further calls. *)
Theorem endedAt_written_once (w : world) (q : ptr) (n : traceNode) :
  reachable w → heap (st w) !! q = Some n →
  (∀ c o w',
     exec c w = Some (o, w') →
     EndedAt (heap (st w')) q ≠ Some (endedAt n) →
     endedAt n = 0%N ∧ ∃ d, d ∈ issued w ∧ c = CallDone d ∧ thisOf d = q)
  ∧ (endedAt n ≠ 0%N →
     ∀ cs os w', run cs w = Some (os, w') →
       EndedAt (heap (st w')) q = Some (endedAt n)).
Proof.
  intros Hreach Hq. pose proof (reachable_spanInv w Hreach) as Hinv. split.
  - intros c o w' Hexec Hchanged. destruct w as [s ds].
    apply exec_effect in Hexec; [|done].
    destruct (effect_endedAt _ _ _ _ _ q n Hexec Hq) as (n' & Hn' & [He|(He & _ & Hd)]).
    + exfalso. apply Hchanged. unfold EndedAt. rewrite Hn'. simpl. by rewrite He.
    + done.
  - intros Hz cs os w' Hrun. by eapply ended_stays_run.
Qed.

Lemma endedAt_written_once_witness :
  (∀ c o w',
     exec c child_ended = Some (o, w') →
     EndedAt (heap (st w')) 1 ≠ Some 3%N →
     3%N = 0%N ∧ ∃ d, d ∈ issued child_ended ∧ c = CallDone d ∧ thisOf d = 1)
  ∧ (3%N ≠ 0%N →
     ∀ cs os w', run cs child_ended = Some (os, w') →
       EndedAt (heap (st w')) 1 = Some 3%N).
Proof.
  apply (endedAt_written_once child_ended 1
           (mkTraceNode "1" "b#0" (Some 0) 0 None None 2 3)).
  - apply child_ended_reachable.
  - reflexivity.
Defined.

(** ** The emitted events *)

Lemma precededByBegin_snoc l e :
  precededByBegin l → (∀ b, beginOf e = Some b → b ∈ l) → precededByBegin (l ++ [e]).
Proof.
  intros Hl He l1 e' l2 b Heq Hb.
  destruct l2 as [|z l2 _] using rev_ind.
  - apply app_inj_tail in Heq as [<- <-]. by apply He.
  - change (e' :: l2 ++ [z]) with ((e' :: l2) ++ [z]) in Heq.
    rewrite app_assoc in Heq. apply app_inj_tail in Heq as [-> _].
    by eapply Hl.
Qed.

Lemma lookups_length {A B} (h : list A) (h' : list B) :
  (∀ q n, h !! q = Some n → is_Some (h' !! q)) → length h ≤ length h'.
Proof.
  intros Hlook. destruct h as [|n0 h0 _] using rev_ind; [simpl; lia|].
  destruct (Hlook (length h0) n0) as [n' Hn']; [by apply list_lookup_middle|].
  apply lookup_lt_Some in Hn'. rewrite length_app. simpl. lia.
Qed.

Lemma events_heap h h' l ds :
  eventsInv h l ds →
  (∀ q n, h !! q = Some n →
     ∃ n', h' !! q = Some n' ∧ (endedAt n ≠ 0%N → endedAt n' ≠ 0%N)) →
  eventsInv h' l ds.
Proof.
  intros [Hnodup Hnode Hended Horder Hbegun] Hlook.
  assert (length h ≤ length h') as Hlen.
  { apply lookups_length. intros q n Hq. destruct (Hlook q n Hq) as (n' & ? & _).
    by eexists. }
  split; try done.
  - intros e He. specialize (Hnode e He). lia.
  - intros e b He Hb. destruct (Hended e b He Hb) as (n & Hn & Hz).
    destruct (Hlook _ n Hn) as (n' & Hn' & Hz'). eauto.
Qed.

Lemma events_begin h l ds e :
  eventsInv h l ds → beginOf e = None → nodeOf e < length h → e ∉ l →
  eventsInv h (l ++ [e]) ds.
Proof.
  intros [Hnodup Hnode Hended Horder Hbegun] Hb Hn He. split.
  - apply NoDup_app. split; [done|]. split; [|apply NoDup_singleton].
    intros x Hx Hx'. apply list_elem_of_singleton in Hx'. by subst.
  - intros x Hx. apply elem_of_app in Hx as [Hx|Hx]; [by apply Hnode|].
    apply list_elem_of_singleton in Hx. by subst.
  - intros x b Hx Hxb. apply elem_of_app in Hx as [Hx|Hx]; [by eapply Hended|].
    apply list_elem_of_singleton in Hx. congruence.
  - apply precededByBegin_snoc; [done|]. intros b Hb'. congruence.
  - intros d b Hd Hdb. apply elem_of_app. left. by eapply Hbegun.
Qed.

Lemma events_end h l ds e b n :
  eventsInv h l ds → beginOf e = Some b → b ∈ l → e ∉ l →
  h !! nodeOf e = Some n → endedAt n ≠ 0%N →
  eventsInv h (l ++ [e]) ds.
Proof.
  intros [Hnodup Hnode Hended Horder Hbegun] Hb Hbl He Hn Hz. split.
  - apply NoDup_app. split; [done|]. split; [|apply NoDup_singleton].
    intros x Hx Hx'. apply list_elem_of_singleton in Hx'. by subst.
  - intros x Hx. apply elem_of_app in Hx as [Hx|Hx]; [by apply Hnode|].
    apply list_elem_of_singleton in Hx. subst. by eapply lookup_lt_Some.
  - intros x b' Hx Hxb. apply elem_of_app in Hx as [Hx|Hx]; [by eapply Hended|].
    apply list_elem_of_singleton in Hx. subst. eauto.
  - apply precededByBegin_snoc; [done|]. intros b' Hb'. congruence.
  - intros d b' Hd Hdb. apply elem_of_app. left. by eapply Hbegun.
Qed.

Lemma events_closure h l ds d :
  eventsInv h l ds → (∀ b, b ∈ beginsOf d → b ∈ l) → eventsInv h l (ds ++ [d]).
Proof.
  intros [Hnodup Hnode Hended Horder Hbegun] Hd. split; try done.
  intros d' b Hd' Hb. apply elem_of_app in Hd' as [Hd'|Hd']; [by eapply Hbegun|].
  apply list_elem_of_singleton in Hd'. subst. by apply Hd.
Qed.

Lemma events_not_ended h l ds e b n :
  eventsInv h l ds → beginOf e = Some b → h !! nodeOf e = Some n →
  endedAt n = 0%N → e ∉ l.
Proof.
  intros Hinv Hb Hn Hz He. destruct (ev_ended _ _ _ Hinv e b He Hb) as (n' & Hn' & Hz').
  congruence.
Qed.

Lemma events_fresh h l ds e : eventsInv h l ds → nodeOf e = length h → e ∉ l.
Proof. intros Hinv Hn He. pose proof (ev_node _ _ _ Hinv e He). lia. Qed.

Lemma events_effect s ds c o w' :
  eventsInv (heap s) (emitted s) ds → effect s ds c o w' →
  eventsInv (heap (st w')) (emitted (st w')) (issued w').
Proof.
  intros Hinv Heff.
  assert (eventsInv (heap (st w')) (emitted s) ds) as Hinv'.
  { eapply events_heap; [done|]. intros q n Hq.
    destruct (effect_endedAt _ _ _ _ _ q n Heff Hq) as (n' & Hn' & [He|(He & _)]).
    - exists n'. split; [done|congruence].
    - exists n'. split; [done|congruence]. }
  assert (length (heap s) ≤ length (heap (st w'))) as Hlen.
  { apply lookups_length. intros q n Hq.
    destruct (effect_endedAt _ _ _ _ _ q n Heff Hq) as (n' & Hn' & _). by eexists. }
  destruct Heff; cbn [st heap emitted issued afterWithTask afterWithSpanRefused
    afterWithSpan afterTaskEnd afterTaskEndPanic afterSpanEnd] in *; try done.
  - apply events_closure.
    + apply events_begin; [done|done| |by apply (events_fresh _ _ _ _ Hinv)].
      simpl. unfold adopt. destruct parent as [q|]; [destruct (_ !! q)|];
        rewrite ?length_insert, length_app; simpl; lia.
    + intros b Hb. apply list_elem_of_singleton in Hb as ->.
      apply elem_of_app. right. apply list_elem_of_here.
  - assert (length (heap s) < length
              (<[parent:=set_activeChildSpan (Some (length (heap s))) n]>
                 (heap s ++ [spanNode (pretty (idgen s)) label parent n
                               (N.pos (clock s))]))) as Hlt.
    { rewrite length_insert, length_app. simpl. lia. }
    apply events_closure.
    + apply events_begin; [|done|done|].
      * apply events_begin; [done|done|done|by apply (events_fresh _ _ _ _ Hinv)].
      * intros He. apply elem_of_app in He as [He|He].
        -- by eapply (events_fresh _ _ _ (callbackBeginSpan (length (heap s))) Hinv).
        -- by apply list_elem_of_singleton in He.
    + intros b Hb. simpl in Hb.
      apply elem_of_cons in Hb as [->|Hb]; [|apply list_elem_of_singleton in Hb as ->].
      * apply elem_of_app. left. apply elem_of_app. right. apply list_elem_of_here.
      * apply elem_of_app. right. apply list_elem_of_here.
  - eapply (events_end _ _ _ (chrometraceEndTask t)); [done|done| | | |].
    + eapply (ev_begun _ _ _ Hinv); [done|apply list_elem_of_here].
    + by eapply (events_not_ended _ _ _ (chrometraceEndTask t) _ _ Hinv).
    + simpl. unfold taskEnded. apply list_lookup_insert_eq. by eapply lookup_lt_Some.
    + by destruct n.
  - eapply (events_end _ _ _ (chrometraceEndTask t)); [done|done| | | |].
    + eapply (ev_begun _ _ _ Hinv); [done|apply list_elem_of_here].
    + by eapply (events_not_ended _ _ _ (chrometraceEndTask t) _ _ Hinv).
    + simpl. unfold parentReleased, taskEnded. rewrite list_lookup_insert_ne by lia.
      apply list_lookup_insert_eq. by eapply lookup_lt_Some.
    + by destruct n.
  - assert (<[x:=set_endedAt (N.pos (clock s)) n]>
              (<[p:=set_activeChildSpan None np]> (heap s)) !! x
            = Some (set_endedAt (N.pos (clock s)) n)) as Hx.
    { apply list_lookup_insert_eq. rewrite length_insert. by eapply lookup_lt_Some. }
    eapply (events_end _ _ _ (callbackEndSpan x)); [|done| | |exact Hx|by destruct n].
    + eapply (events_end _ _ _ (chrometraceEndSpan x));
        [done|done| | |exact Hx|by destruct n].
      * eapply (ev_begun _ _ _ Hinv); [done|apply list_elem_of_here].
      * by eapply (events_not_ended _ _ _ (chrometraceEndSpan x) _ _ Hinv).
    + apply elem_of_app. left.
      eapply (ev_begun _ _ _ Hinv); [done|]. simpl. apply list_elem_of_further.
      apply list_elem_of_here.
    + intros He. apply elem_of_app in He as [He|He].
      * by eapply (events_not_ended _ _ _ (callbackEndSpan x) _ _ Hinv).
      * by apply list_elem_of_singleton in He.
Qed.

Lemma reachable_eventsInv w :
  reachable w → eventsInv (heap (st w)) (emitted (st w)) (issued w).
Proof.
  apply (reachable_invariant
           (λ w, eventsInv (heap (st w)) (emitted (st w)) (issued w))).
  - split; simpl.
    + apply NoDup_nil_2.
    + intros e He. by apply elem_of_nil in He.
    + intros e b He. by apply elem_of_nil in He.
    + intros l1 e l2 b Heq. by destruct l1.
    + intros d b Hd. by apply elem_of_nil in Hd.
  - intros s ds c o w' _ Hinv Heff. by eapply events_effect.
Qed.

(** X7.  The stream of emitted events is well formed: no event is emitted
    twice (a node begins once and ends at most once), every event that ends a
    task or span comes after the event that began it, and the node it is about
    has its end time set. *)
Theorem emitted_well_formed (w : world) :
  reachable w →
  NoDup (emitted (st w))
  ∧ precededByBegin (emitted (st w))
  ∧ ∀ e b, e ∈ emitted (st w) → beginOf e = Some b →
      b ∈ emitted (st w)
      ∧ ∃ n, heap (st w) !! nodeOf e = Some n ∧ endedAt n ≠ 0%N.
Proof.
  intros Hreach. destruct (reachable_eventsInv w Hreach) as [Hnodup _ Hended Horder _].
  split; [done|]. split; [done|]. intros e b He Hb. split; [|by eapply Hended].
  apply list_elem_of_split in He as (l1 & l2 & Heq). rewrite Heq.
  apply elem_of_app. left. by eapply Horder.
Qed.

Lemma emitted_well_formed_witness :
  NoDup (emitted (st child_ended))
  ∧ precededByBegin (emitted (st child_ended))
  ∧ ∀ e b, e ∈ emitted (st child_ended) → beginOf e = Some b →
      b ∈ emitted (st child_ended)
      ∧ ∃ n, heap (st child_ended) !! nodeOf e = Some n ∧ endedAt n ≠ 0%N.
Proof. apply (emitted_well_formed child_ended), child_ended_reachable. Defined.

(** ** Panics *)

(** X8.  A call that panics panics with one of the four documented values,
    never with an "impl error", and it leaves the tree as it was: the client
    holds the same closures, every node is unchanged, and so are the gauge,
    the namer and the emitted events.  Only the refused [WithSpan] leaves
    anything behind (the node it had made, which nothing points to); every
    other panic leaves the whole state as it was. *)
Theorem panic_leaves_tree (w w' : world) (c : call) (e : panicValue) :
  reachable w → (Z.of_nat (length (heap (st w))) < 2 ^ 31)%Z →
  exec c w = Some (Panicked e, w') →
  documented e
  ∧ issued w' = issued w
  ∧ (∀ q n, heap (st w) !! q = Some n → heap (st w') !! q = Some n)
  ∧ activeTasks (st w') = activeTasks (st w)
  ∧ taskNamer (st w') = taskNamer (st w)
  ∧ emitted (st w') = emitted (st w)
  ∧ (e ≠ ErrAlreadyActiveChildSpan → w' = w).
Proof.
  intros Hreach Hb Hexec.
  pose proof (reachable_spanInv w Hreach) as Hinv.
  pose proof (reachable_taskInv w Hreach Hb) as Htask.
  destruct w as [s ds]. apply exec_effect in Hexec; [|done].
  pose proof (effect_bounded _ _ _ _ _ Hinv Htask Hexec) as Hnot.
  inversion Hexec; subst; try done.
  cbn [st issued heap activeTasks taskNamer emitted afterWithSpanRefused].
  repeat split; try done. intros q m Hq. by apply lookup_app_l_Some.
Qed.

Lemma panic_leaves_tree_witness :
  documented (ErrTaskStillHasActiveChildTasks 1)
  ∧ issued task_with_child = issued task_with_child
  ∧ (∀ q n, heap (st task_with_child) !! q = Some n →
       heap (st task_with_child) !! q = Some n)
  ∧ activeTasks (st task_with_child) = activeTasks (st task_with_child)
  ∧ taskNamer (st task_with_child) = taskNamer (st task_with_child)
  ∧ emitted (st task_with_child) = emitted (st task_with_child)
  ∧ (ErrTaskStillHasActiveChildTasks 1 ≠ ErrAlreadyActiveChildSpan →
     task_with_child = task_with_child).
Proof.
  apply (panic_leaves_tree task_with_child task_with_child
           (CallDone (WithTask_endTaskFunc 0 ("a", 0)))
           (ErrTaskStillHasActiveChildTasks 1)).
  - apply task_with_child_reachable.
  - vm_compute. reflexivity.
  - vm_compute. reflexivity.
Defined.

(** ** Tasks and their children *)

(** X9.  A task that has ended has no child task that has not ended: a task
    whose [parentTask] is [t] and that is still active keeps [t] active. *)
Theorem ended_task_has_no_live_child (w : world) (t c : ptr) (n nc : traceNode) :
  reachable w → (Z.of_nat (length (heap (st w))) < 2 ^ 31)%Z →
  heap (st w) !! t = Some n → parentSpan n = None →
  heap (st w) !! c = Some nc → parentSpan nc = None → parentTask nc = Some t →
  endedAt nc = 0%N → endedAt n = 0%N.
Proof.
  intros Hreach Hb Ht Hs Hc Hsc Hpc Hzc.
  pose proof (reachable_taskInv w Hreach Hb) as Htask.
  destruct (decide (endedAt n = 0%N)) as [|Hne]; [done|exfalso].
  pose proof (inv_ended _ Htask t n Ht Hs Hne) as Hcount.
  rewrite (inv_count _ Htask t n Ht) in Hcount.
  assert (0 < liveChildTasks (heap (st w)) t); [|lia].
  eapply (count_pos (liveChildOf t)); [done|]. by repeat split.
Qed.

Lemma ended_task_has_no_live_child_witness :
  endedAt (mkTraceNode "0" "a#0" None 1 None None 1 0) = 0%N.
Proof.
  apply (ended_task_has_no_live_child task_with_child 0 1
           (mkTraceNode "0" "a#0" None 1 None None 1 0)
           (mkTraceNode "1" "b#0" (Some 0) 0 None None 2 0)).
  - apply task_with_child_reachable.
  - vm_compute. reflexivity.
  - reflexivity.
  - reflexivity.
  - reflexivity.
  - reflexivity.
  - reflexivity.
  - reflexivity.
Defined.

(** ** The gauge and the store *)

Lemma liveTasks_snoc h n : liveTasks (h ++ [n]) = liveTasks h + one liveTask n.
Proof. apply count_snoc. Qed.

Lemma liveTasks_insert h i x y :
  h !! i = Some x →
  liveTasks (<[i:=y]> h) + one liveTask x = liveTasks h + one liveTask y.
Proof. apply count_insert. Qed.

Lemma liveTasks_insert_same h i x y :
  h !! i = Some x → (liveTask x ↔ liveTask y) →
  liveTasks (<[i:=y]> h) = liveTasks h.
Proof.
  intros Hi Hiff. pose proof (liveTasks_insert h i x y Hi) as Hins.
  unfold one in Hins. repeat case_decide; tauto || lia.
Qed.

Lemma liveTasks_adopt parent h : liveTasks (adopt parent h) = liveTasks h.
Proof.
  unfold adopt. destruct parent as [p|]; [|done].
  destruct (h !! p) as [n|] eqn:Hn; [|done].
  eapply liveTasks_insert_same; [done|by destruct n].
Qed.

Lemma one_holds {A} (P : A → Prop) `{!∀ x, Decision (P x)} x : P x → one P x = 1.
Proof. intros HP. unfold one. by rewrite decide_True. Qed.

Lemma one_fails {A} (P : A → Prop) `{!∀ x, Decision (P x)} x : ¬ P x → one P x = 0.
Proof. intros HP. unfold one. by rewrite decide_False. Qed.

Lemma gauge_effect s ds c o w' :
  effect s ds c o w' → o ≠ Panicked ImplErrorNegativeActiveChildTasks →
  activeTasks s = Z.of_nat (liveTasks (heap s)) →
  activeTasks (st w') = Z.of_nat (liveTasks (heap (st w'))).
Proof.
  intros Heff Hnot Hgauge.
  assert (∀ t n, heap s !! t = Some n → parentSpan n = None → endedAt n = 0%N →
            liveTasks (taskEnded s t n) + 1 = liveTasks (heap s)) as Hend.
  { intros t n Ht Hs Hz. unfold taskEnded.
    pose proof (liveTasks_insert _ t n (set_endedAt (N.pos (clock s)) n) Ht) as Hins.
    rewrite (one_holds liveTask n) in Hins by done.
    rewrite (one_fails liveTask) in Hins by (destruct n; by intros [_ ?]). lia. }
  destruct Heff; cbn [st heap activeTasks afterWithTask afterWithSpanRefused
    afterWithSpan afterTaskEnd afterTaskEndPanic afterSpanEnd]; try done.
  - rewrite liveTasks_adopt, liveTasks_snoc, (one_holds liveTask) by done. lia.
  - rewrite liveTasks_snoc, (one_fails liveTask) by (by intros [? _]). lia.
  - rewrite (liveTasks_insert_same _ parent n);
      [|by apply lookup_app_l_Some|by destruct n].
    rewrite liveTasks_snoc, (one_fails liveTask) by (by intros [? _]). lia.
  - match goal with Ht : heap s !! t = Some n |- _ =>
      pose proof (Hend t n Ht ltac:(done) ltac:(done)) end. lia.
  - unfold parentReleased.
    rewrite (liveTasks_insert_same _ q m); [| |by destruct m].
    2:{ unfold taskEnded. rewrite list_lookup_insert_ne by lia. done. }
    match goal with Ht : heap s !! t = Some n |- _ =>
      pose proof (Hend t n Ht ltac:(done) ltac:(done)) end. lia.
  - match goal with Hs : parentSpan n = Some p |- _ =>
      assert (liveTask n ↔ liveTask (set_endedAt (N.pos (clock s)) n)) as Hiff
        by (destruct n; unfold liveTask; simpl in *; split; intros [? _]; congruence)
    end.
    rewrite (liveTasks_insert_same _ x n); [| |exact Hiff].
    2:{ rewrite list_lookup_insert_ne by lia. done. }
    rewrite (liveTasks_insert_same _ p np); [done|done|by destruct np].
Qed.

Lemma reachable_gauge w :
  reachable w → (Z.of_nat (length (heap (st w))) < 2 ^ 31)%Z →
  activeTasks (st w) = Z.of_nat (liveTasks (heap (st w))).
Proof.
  apply (reachable_invariant_bounded
           (λ w, activeTasks (st w) = Z.of_nat (liveTasks (heap (st w))))).
  - done.
  - intros s ds c o w' _ _ Hgauge Heff Hnot. by eapply gauge_effect.
Qed.

(** X10.  The gauge counts the tasks in the store that have not ended. *)
Theorem activeTasks_counts_live_tasks (w : world) :
  reachable w → (Z.of_nat (length (heap (st w))) < 2 ^ 31)%Z →
  activeTasks (st w) = Z.of_nat (liveTasks (heap (st w))).
Proof. apply reachable_gauge. Qed.

Lemma activeTasks_counts_live_tasks_witness :
  activeTasks (st child_ended) = Z.of_nat (liveTasks (heap (st child_ended))).
Proof.
  apply (activeTasks_counts_live_tasks child_ended).
  - apply child_ended_reachable.
  - vm_compute. reflexivity.
Defined.

(** ** The closures handed out *)

Lemma closures_effect s ds c o w' :
  spanInv (heap s) ds → effect s ds c o w' →
  NoDup (thisOf <$> ds) → NoDup (thisOf <$> issued w').
Proof.
  intros Hinv Heff Hnodup.
  assert (∀ d, d ∈ ds → thisOf d < length (heap s)) as Hlt.
  { intros d Hd. destruct (issued_valid _ _ d Hinv Hd) as [n Hn].
    by eapply lookup_lt_Some. }
  assert (NoDup (thisOf <$> ds ++ [WithTask_endTaskFunc (length (heap s)) ("", 0)]))
    as Hfresh.
  { rewrite fmap_app. apply NoDup_app. split; [done|]. split; [|apply NoDup_singleton].
    intros x Hx Hx'. apply list_elem_of_singleton in Hx'. simpl in Hx'. subst.
    apply list_elem_of_fmap in Hx as (d & Heq & Hd). specialize (Hlt d Hd). lia. }
  destruct Heff; cbn [issued]; try done; by rewrite fmap_app in *.
Qed.

Lemma reachable_closures w : reachable w → NoDup (thisOf <$> issued w).
Proof.
  apply (reachable_invariant (λ w, NoDup (thisOf <$> issued w))).
  - apply NoDup_nil_2.
  - intros s ds c o w' Hinv Hnodup Heff. by eapply closures_effect.
Qed.

(** X11.  Every [WithTask] and [WithSpan] that returns makes a node of its own:
    no two closures the client holds are about the same node, each is about a
    node of the store, and the node of a task closure is a task, that of a span
    closure a span below the captured parent. *)
Theorem closures_have_own_nodes (w : world) :
  reachable w →
  NoDup (thisOf <$> issued w)
  ∧ ∀ d, d ∈ issued w →
      ∃ n, heap (st w) !! thisOf d = Some n
           ∧ match d with
             | WithTask_endTaskFunc _ _ => parentSpan n = None
             | WithSpan_endTaskFunc p _ => parentSpan n = Some p
             end.
Proof.
  intros Hreach. split; [by apply reachable_closures|].
  pose proof (reachable_spanInv w Hreach) as Hinv. intros [t nd|p x] Hd; simpl.
  - by apply (inv_task _ _ Hinv t nd).
  - destruct (inv_span _ _ Hinv p x Hd) as (n & _ & Hn & Hs & _). eauto.
Qed.

Lemma closures_have_own_nodes_witness :
  NoDup (thisOf <$> issued task_with_two_spans)
  ∧ ∀ d, d ∈ issued task_with_two_spans →
      ∃ n, heap (st task_with_two_spans) !! thisOf d = Some n
           ∧ match d with
             | WithTask_endTaskFunc _ _ => parentSpan n = None
             | WithSpan_endTaskFunc p _ => parentSpan n = Some p
             end.
Proof.
  apply (closures_have_own_nodes task_with_two_spans), task_with_two_spans_reachable.
Defined.

(** ** Counters of spans *)

(** X12.  [activeChildTasks] is never negative, and it stays zero on span
    nodes: only task nodes count children. *)
Theorem activeChildTasks_of_spans (w : world) (x : ptr) (n : traceNode) :
  reachable w → (Z.of_nat (length (heap (st w))) < 2 ^ 31)%Z →
  heap (st w) !! x = Some n →
  (0 ≤ activeChildTasks n)%Z ∧ (parentSpan n ≠ None → activeChildTasks n = 0%Z).
Proof.
  intros Hreach Hb Hn.
  pose proof (reachable_taskInv w Hreach Hb) as Htask.
  pose proof (reachable_typed w Hreach) as Htyped.
  rewrite (inv_count _ Htask x n Hn). split; [lia|]. intros Hs.
  unfold liveChildTasks. rewrite (count_none (liveChildOf x)); [done|].
  apply Forall_lookup_2. intros c nc Hc (_ & _ & Hpc).
  destruct (Htyped c nc Hc) as [_ Hparent].
  destruct (Hparent x Hpc) as (nx & Hnx & Hsx). congruence.
Qed.

Lemma activeChildTasks_of_spans_witness :
  (0 ≤ 0)%Z ∧ (Some 1 ≠ None → 0%Z = 0%Z).
Proof.
  apply (activeChildTasks_of_spans task_with_two_spans 2
           (mkTraceNode "2" "y" (Some 0) 0 (Some 1) None 3 0)).
  - apply task_with_two_spans_reachable.
  - vm_compute. reflexivity.
  - reflexivity.
Defined.

(** ** What stays *)

(** X13.  The identity of a node never changes: whatever calls are made, with
    whatever arguments, a node keeps its [id], [annotation], [parentTask],
    [parentSpan] and [startedAt], and stays at its address. *)
Theorem identity_never_changes (w w' : world) (cs : list call) (os : list outcome)
    (q : ptr) (n : traceNode) :
  run cs w = Some (os, w') → heap (st w) !! q = Some n →
  ∃ n', heap (st w') !! q = Some n'
        ∧ id n' = id n ∧ annotation n' = annotation n
        ∧ parentTask n' = parentTask n ∧ parentSpan n' = parentSpan n
        ∧ startedAt n' = startedAt n.
Proof. intros Hrun Hq. by apply (grows_run _ _ _ _ Hrun). Qed.

Lemma identity_never_changes_witness :
  ∃ n', heap (st child_ended) !! 1 = Some n'
        ∧ id n' = "1" ∧ annotation n' = "b#0"
        ∧ parentTask n' = Some 0 ∧ parentSpan n' = None
        ∧ startedAt n' = 2%N.
Proof.
  apply (identity_never_changes task_with_child child_ended
           [CallDone (WithTask_endTaskFunc 1 ("b", 0))] [Returned] 1
           (mkTraceNode "1" "b#0" (Some 0) 0 None None 2 0)).
  - vm_compute. reflexivity.
  - reflexivity.
Defined.

Lemma chain_grows next h h' fuel cur l :
  (∀ n n', sameIdentity n n' → next n' = next n) →
  (∀ q n, h !! q = Some n → ∃ n', h' !! q = Some n' ∧ sameIdentity n n') →
  chain fuel next h cur = Some l →
  ∃ l', chain fuel next h' cur = Some l' ∧ Forall2 sameIdentity l l'.
Proof.
  intros Hnext Hgrows. revert cur l. induction fuel as [|fuel IH]; intros cur l.
  - destruct cur; [done|]. intros [= <-]. exists []. by split.
  - destruct cur as [p|]; [|intros [= <-]; exists []; by split].
    simpl. destruct (h !! p) as [n|] eqn:Hn; [|done].
    destruct (chain fuel next h (next n)) as [rest|] eqn:Hrest; [|done].
    intros [= <-]. destruct (Hgrows p n Hn) as (n' & Hn' & Hid).
    destruct (IH _ _ Hrest) as (rest' & Hrest' & Hall).
    exists (n' :: rest'). rewrite Hn', (Hnext n n' Hid), Hrest'.
    split; [done|by constructor].
Qed.

Lemma names_grow (f : traceNode → string) l l' :
  (∀ n n', sameIdentity n n' → f n' = f n) →
  Forall2 sameIdentity l l' → f <$> reverse l' = f <$> reverse l.
Proof.
  intros Hf Hall. rewrite !fmap_reverse. f_equal.
  induction Hall as [|n n' l l' Hn _ IH]; [done|].
  by rewrite !fmap_cons, IH, (Hf n n').
Qed.

(** The label of a node is the same in a store that has grown. *)
Lemma TaskAndSpanStack_grows h h' kind q label :
  namesByIdentity kind →
  (∀ p n, h !! p = Some n → ∃ n', h' !! p = Some n' ∧ sameIdentity n n') →
  TaskAndSpanStack h q kind = Some label →
  TaskAndSpanStack h' q kind = Some label.
Proof.
  intros Hkind Hgrows. unfold TaskAndSpanStack.
  destruct (h !! q) as [n|] eqn:Hn; [|done].
  destruct (chain (length h) parentSpan h (Some q)) as [spans|] eqn:Hspans; [|done].
  destruct (chain (length h) parentTask h (task q n)) as [tasks|] eqn:Htasks; [|done].
  intros [= <-].
  assert (length h ≤ length h') as Hlen.
  { apply lookups_length. intros p m Hp. destruct (Hgrows p m Hp) as (m' & ? & _).
    by eexists. }
  destruct (Hgrows q n Hn) as (n' & Hn' & Hid). rewrite Hn'.
  destruct (chain_grows parentSpan h h' _ _ _
              ltac:(by intros ?? (_&_&_&?&_)) Hgrows Hspans) as (spans' & Hspans' & Hs).
  destruct (chain_grows parentTask h h' _ _ _
              ltac:(by intros ?? (_&_&?&_)) Hgrows Htasks) as (tasks' & Htasks' & Ht).
  rewrite (chain_more_fuel _ _ _ (length h') _ _ Hspans' Hlen).
  assert (task q n' = task q n) as ->.
  { destruct Hid as (_ & _ & HT & HS & _). unfold task. by rewrite HT, HS. }
  rewrite (chain_more_fuel _ _ _ (length h') _ _ Htasks' Hlen).
  rewrite (names_grow (symbolizeTask kind) tasks tasks'),
    (names_grow (symbolizeSpan kind) spans spans'); try done.
  - intros m m' Hm. by apply Hkind.
  - intros m m' Hm. by apply Hkind.
Qed.

(** X14.  The label of a node never changes: for a way of naming nodes that
    reads only their identity (by [id], by [annotation]), [TaskAndSpanStack]
    answers after any further calls what it answered before. *)
Theorem label_never_changes (w w' : world) (cs : list call) (os : list outcome)
    (kind : StackKind) (q : ptr) (label : string) :
  namesByIdentity kind → run cs w = Some (os, w') →
  TaskAndSpanStack (heap (st w)) q kind = Some label →
  TaskAndSpanStack (heap (st w')) q kind = Some label.
Proof.
  intros Hkind Hrun. apply TaskAndSpanStack_grows; [done|].
  apply (grows_run _ _ _ _ Hrun).
Qed.

Lemma StackKindId_namesByIdentity : namesByIdentity StackKindId.
Proof. by intros n n' (? & _). Qed.

Lemma SpanStackKindAnnotation_namesByIdentity : namesByIdentity SpanStackKindAnnotation.
Proof. by intros n n' (_ & ? & _). Qed.

Lemma label_never_changes_witness :
  TaskAndSpanStack (heap (st child_ended)) 1 SpanStackKindAnnotation
  = Some "a#0$b#0$b#0".
Proof.
  apply (label_never_changes task_with_child child_ended
           [CallDone (WithTask_endTaskFunc 1 ("b", 0))] [Returned]
           SpanStackKindAnnotation 1 "a#0$b#0$b#0").
  - apply SpanStackKindAnnotation_namesByIdentity.
  - vm_compute. reflexivity.
  - reflexivity.
Defined.

(** ** The ancestry query *)

(** X15.  [GetSpanStackOrDefault] answers the default only for a context
    without a node.  For every context the client holds it answers a label,
    and that label names the nodes by [id] whatever kind is passed. *)
Theorem GetSpanStackOrDefault_by_id (w : world) (ctx : Context) (kind : StackKind)
    (def : string) :
  reachable w → holdsContext w ctx →
  match ctx with
  | None => GetSpanStackOrDefault (heap (st w)) ctx kind def = Some def
  | Some n =>
      ∃ label,
        GetSpanStackOrDefault (heap (st w)) ctx kind def = Some label
        ∧ TaskAndSpanStack (heap (st w)) n StackKindId = Some label
  end.
Proof.
  intros Hreach Hctx. destruct ctx as [n|]; [|done].
  pose proof (reachable_spanInv w Hreach) as Hinv.
  destruct (holdsContext_valid w n Hinv Hctx) as [node Hnode].
  destruct (TaskAndSpanStack_total (heap (st w)) n StackKindId) as [label Hlabel].
  { apply Hinv. }
  { by eapply lookup_lt_Some. }
  exists label. by split.
Qed.

Lemma GetSpanStackOrDefault_by_id_witness :
  ∃ label,
    GetSpanStackOrDefault (heap (st task_with_two_spans)) (Some 2)
      SpanStackKindAnnotation "-" = Some label
    ∧ TaskAndSpanStack (heap (st task_with_two_spans)) 2 StackKindId = Some label.
Proof.
  apply (GetSpanStackOrDefault_by_id task_with_two_spans (Some 2)
           SpanStackKindAnnotation "-").
  - apply task_with_two_spans_reachable.
  - vm_compute. repeat constructor.
Defined.

(** ** When a span can be started *)

(** X16.  [WithSpan] under a node the client holds returns exactly when every
    span started under that node has ended; otherwise it panics with
    [ErrAlreadyActiveChildSpan]. *)
Theorem WithSpan_returns_iff (w : world) (p : ptr) (label : string) :
  reachable w → holdsContext w (Some p) →
  ((∃ w', exec (CallWithSpan (Some p) label) w = Some (Returned, w'))
   ↔ ∀ c nc, WithSpan_endTaskFunc p c ∈ issued w →
       heap (st w) !! c = Some nc → endedAt nc ≠ 0%N)
  ∧ ((∃ w', exec (CallWithSpan (Some p) label) w
            = Some (Panicked ErrAlreadyActiveChildSpan, w'))
     ∨ ∃ w', exec (CallWithSpan (Some p) label) w = Some (Returned, w')).
Proof.
  intros Hreach Hctx.
  pose proof (reachable_spanInv w Hreach) as Hinv.
  pose proof (reachable_linked w Hreach) as Hlinked.
  destruct (holdsContext_valid w p Hinv Hctx) as [np Hp].
  assert (exec (CallWithSpan (Some p) label) w
          = Some (begun w (WithSpan (Some p) label (st w)))) as Hexec.
  { unfold exec. by rewrite decide_True. }
  rewrite Hexec, (WithSpan_eq _ _ _ _ Hp). cbn zeta.
  destruct (activeChildSpan np) as [c|] eqn:Ha; cbn [begun].
  - split; [|left; by eexists]. split; [by intros (w' & [=])|].
    intros Hall. exfalso.
    destruct (Hlinked p np c Hp Ha) as (nc & Hnc & _ & Hz & Hd).
    by apply (Hall c nc Hd Hnc).
  - split; [|right; by eexists]. split; [|by eexists].
    intros _ c nc Hd Hc Hz.
    destruct (inv_span _ _ Hinv p c Hd) as (n & np' & Hn & _ & Hp' & Hlive).
    assert (n = nc) as -> by congruence. assert (np' = np) as -> by congruence.
    specialize (Hlive Hz). congruence.
Qed.

Lemma WithSpan_returns_iff_witness :
  ((∃ w', exec (CallWithSpan (Some 2) "z") task_with_two_spans = Some (Returned, w'))
   ↔ ∀ c nc, WithSpan_endTaskFunc 2 c ∈ issued task_with_two_spans →
       heap (st task_with_two_spans) !! c = Some nc → endedAt nc ≠ 0%N)
  ∧ ((∃ w', exec (CallWithSpan (Some 2) "z") task_with_two_spans
            = Some (Panicked ErrAlreadyActiveChildSpan, w'))
     ∨ ∃ w', exec (CallWithSpan (Some 2) "z") task_with_two_spans
             = Some (Returned, w')).
Proof.
  apply (WithSpan_returns_iff task_with_two_spans 2 "z").
  - apply task_with_two_spans_reachable.
  - vm_compute. repeat constructor.
Defined.
